(** * A shallow embedding of the Hawkes limit-order-book simulator

    Sources embedded here:
    - [cpp/include/event.h]                       (Side, EventType, Event)
    - [cpp/src/order_book.cpp]                    (OrderBook)
    - [cpp/src/hawkes_multivariate_process.cpp]   (HawkesMultivariateProcess)
    - [cpp/apps/simulate_hawkes_multivariate.cpp] (the simulator loop)
    - [python/bindings/lob_bindings.cpp]          (run_simulation)
    - [cpp/src/poisson_process.cpp]               (PoissonProcess)
    - [cpp/src/hawkes_univariate_process.cpp]     (HawkesUnivariateProcess)

    C++ [double] is IEEE-754 binary64, taken from the Standard Library's
    [SpecFloat] (no axioms, every operation computes).  C++ [int] is a
    32-bit two's complement integer: a [Z] with the wrap-around written
    out.  A [std::map<double,int>] is an association list kept in strictly
    ascending key order.  The engine, which needs [exp] and [log], is
    written over an arithmetic interface with a binary64 and a real-number
    instance. *)

From Stdlib Require Import ZArith List Bool Lia SpecFloat Reals Lra.
Import ListNotations.

Local Open Scope Z_scope.

(* ================================================================== *)
(** ** IEEE-754 binary64 *)
(* ================================================================== *)

Module F64.

Definition prec : Z := 53.
Definition emax : Z := 1024.

Definition double : Type := spec_float.

Definition fadd : double -> double -> double := SFadd prec emax.
Definition fsub : double -> double -> double := SFsub prec emax.
Definition fmul : double -> double -> double := SFmul prec emax.
Definition fdiv : double -> double -> double := SFdiv prec emax.

(** [x < y], [x <= y], [x == y]; all three are false when an operand is NaN. *)
Definition flt : double -> double -> bool := SFltb.
Definition fle : double -> double -> bool := SFleb.
Definition feq : double -> double -> bool := SFeqb.
(** [x > y] and [x >= y] are the same comparisons with the operands swapped. *)
Definition fgt (x y : double) : bool := SFltb y x.
Definition fge (x y : double) : bool := SFleb y x.

Definition isnan (x : double) : bool :=
  match x with S754_nan => true | _ => false end.

Definition isfinite (x : double) : bool :=
  match x with
  | S754_zero _ | S754_finite _ _ _ => true
  | S754_infinity _ | S754_nan => false
  end.

(** [static_cast<double>(n)] for an integer [n]; exact below [2^53]. *)
Definition of_int (n : Z) : double := binary_normalize prec emax n 0 false.

Definition zero : double := S754_zero false.
Definition quiet_NaN : double := S754_nan.

(** The decimal literal [n / 10^k] as the compiler reads it: the nearest
    double, which is what one correctly rounded division of two exactly
    representable integers returns. *)
Definition lit (n : Z) (k : nat) : double :=
  fdiv (of_int n) (of_int (10 ^ Z.of_nat k)).

(** [std::round]: nearest integer, halfway cases away from zero. *)
Definition round (x : double) : double :=
  match x with
  | S754_finite s m e =>
      if 0 <=? e then x
      else
        let d := 2 ^ (- e) in
        let q := Z.pos m / d in
        let r := Z.pos m mod d in
        let q' := if d <=? 2 * r then q + 1 else q in
        match q' with
        | Z.pos p => binary_round prec emax s p 0
        | _ => S754_zero s
        end
  | _ => x
  end.

(** [static_cast<int>(x)]: truncation toward zero (defined by the language
    only when the truncated value fits an [int]). *)
Definition to_int (x : double) : Z :=
  match x with
  | S754_finite s m e =>
      let a := if 0 <=? e then Z.pos m * 2 ^ e else Z.pos m / 2 ^ (- e) in
      if s then - a else a
  | _ => 0
  end.

End F64.

Import F64.

(* ================================================================== *)
(** ** C++ [int] *)
(* ================================================================== *)

Module Int32.

Definition INT_MAX : Z := 2147483647.
Definition INT_MIN : Z := -2147483648.

(** Two's complement wrap-around of a 32-bit signed result. *)
Definition wrap (z : Z) : Z := (z + 2 ^ 31) mod 2 ^ 32 - 2 ^ 31.

Definition in_range (z : Z) : Prop := INT_MIN <= z <= INT_MAX.

Definition add (x y : Z) : Z := wrap (x + y).
Definition sub (x y : Z) : Z := wrap (x - y).

End Int32.

(* ================================================================== *)
(** ** event.h *)
(* ================================================================== *)

Inductive Side : Type := Bid | Ask.

Inductive EventType : Type := Add | Cancel | Market.

(** [struct Event].  The number type of [t] and [price] is a parameter:
    the order book consumes [Event double]; the engine is written over an
    arithmetic interface (see [Hawkes]) and produces [Event F]. *)
Record Event (F : Type) : Type := mkEvent {
  t : F;
  type : EventType;
  side : Side;
  price : F;
  quantity : Z
}.

Arguments mkEvent {F} _ _ _ _ _.
Arguments t {F} _.
Arguments type {F} _.
Arguments side {F} _.
Arguments price {F} _.
Arguments quantity {F} _.

(* ================================================================== *)
(** ** order_book.h / order_book.cpp *)
(* ================================================================== *)

Module Book.

(** [std::map<double,int>]: levels in strictly ascending price order. *)
Definition side_map : Type := list (double * Z).

(** [side_map.find(price)]: the level whose key is equivalent to [price]
    (neither compares less than the other). *)
Fixpoint find (m : side_map) (p : double) : option Z :=
  match m with
  | [] => None
  | (k, v) :: r =>
      if flt k p then find r p
      else if flt p k then None
      else Some v
  end.

(** Store [v] at [p]: assign when an equivalent key exists (the map keeps
    its own key), insert a new node at its place in the order otherwise. *)
Fixpoint insert (m : side_map) (p : double) (v : Z) : side_map :=
  match m with
  | [] => [(p, v)]
  | (k, w) :: r =>
      if flt k p then (k, w) :: insert r p v
      else if flt p k then (p, v) :: (k, w) :: r
      else (k, v) :: r
  end.

(** [side_map.erase(it)] for the iterator that [find(p)] returned. *)
Fixpoint erase (m : side_map) (p : double) : side_map :=
  match m with
  | [] => []
  | (k, w) :: r =>
      if flt k p then (k, w) :: erase r p
      else if flt p k then (k, w) :: r
      else r
  end.

(** [*std::prev(m.end())], when [m] is not empty. *)
Fixpoint back (m : side_map) : option (double * Z) :=
  match m with
  | [] => None
  | x :: r => match r with [] => Some x | _ :: _ => back r end
  end.

(** [*m.begin()], when [m] is not empty. *)
Definition front (m : side_map) : option (double * Z) :=
  match m with [] => None | x :: _ => Some x end.

Record TopOfBook : Type := mkTopOfBook {
  best_bid_price : option double;
  best_bid_qty : option Z;
  best_ask_price : option double;
  best_ask_qty : option Z
}.

Record Metrics : Type := mkMetrics {
  mid : option double;
  spread : option double;
  imbalance_top1 : option double
}.

Record OrderBook : Type := mkOrderBook {
  tick_size_ : double;
  bids_ : side_map;
  asks_ : side_map
}.

(** [OrderBook::OrderBook(double tick_size)] *)
Definition create (tick_size : double) : OrderBook :=
  let tick :=
    if negb (fgt tick_size zero) || negb (isfinite tick_size)
    then lit 1 1
    else tick_size in
  mkOrderBook tick [] [].

Definition tick_size (b : OrderBook) : double := tick_size_ b.
Definition bid_levels (b : OrderBook) : nat := length (bids_ b).
Definition ask_levels (b : OrderBook) : nat := length (asks_ b).

Definition round_to_tick (b : OrderBook) (price : double) : double :=
  fmul (round (fdiv price (tick_size_ b))) (tick_size_ b).

(** [side_map[price] += qty]; [operator[]] creates a missing level with
    value 0 first. *)
Definition add_level (m : side_map) (price : double) (qty : Z) : side_map :=
  if qty <=? 0 then m
  else
    let old := match find m price with Some v => v | None => 0 end in
    insert m price (Int32.add old qty).

Definition remove_level_qty (m : side_map) (price : double) (qty : Z)
  : side_map :=
  if qty <=? 0 then m
  else
    match find m price with
    | None => m
    | Some v =>
        let v' := Int32.sub v qty in
        if v' <=? 0 then erase m price else insert m price v'
    end.

(** The loop shared by [consume_best_ask] and [consume_best_bid], on the
    levels listed best price first.  Each turn either stops or erases the
    best level, so the recursion is on the list. *)
Fixpoint consume_best_first (levels : side_map) (qty : Z) : side_map :=
  if qty <=? 0 then levels
  else
    match levels with
    | [] => []
    | (p, available) :: rest =>
        if qty <? available
        then (p, Int32.sub available qty) :: rest
        else consume_best_first rest (Int32.sub qty available)
    end.

(** Best ask is [asks.begin()]. *)
Definition consume_best_ask (asks : side_map) (qty : Z) : side_map :=
  consume_best_first asks qty.

(** Best bid is [std::prev(bids.end())]: the same walk from the far end. *)
Definition consume_best_bid (bids : side_map) (qty : Z) : side_map :=
  rev (consume_best_first (rev bids) qty).

(** [OrderBook::top] *)
Definition top (b : OrderBook) : TopOfBook :=
  mkTopOfBook
    (option_map fst (back (bids_ b)))
    (option_map snd (back (bids_ b)))
    (option_map fst (front (asks_ b)))
    (option_map snd (front (asks_ b))).

Definition with_bids (b : OrderBook) (m : side_map) : OrderBook :=
  mkOrderBook (tick_size_ b) m (asks_ b).

Definition with_asks (b : OrderBook) (m : side_map) : OrderBook :=
  mkOrderBook (tick_size_ b) (bids_ b) m.

(** [OrderBook::apply]: the returned flag and the book afterwards.  The
    [default:] arm of the switch has no counterpart: [EventType] has three
    values. *)
Definition apply (b : OrderBook) (e : Event double) : bool * OrderBook :=
  if negb (isfinite (t e)) || (quantity e <=? 0) then (false, b)
  else
    let tob := top b in
    let best_bid :=
      match best_bid_price tob with Some p => p | None => quiet_NaN end in
    let best_ask :=
      match best_ask_price tob with Some p => p | None => quiet_NaN end in
    match type e with
    | Add =>
        if negb (isfinite (price e)) || fle (price e) zero then (false, b)
        else
          let px := round_to_tick b (price e) in
          match side e with
          | Bid =>
              if negb (isnan best_ask) && fge px best_ask
              then (true, with_asks b (consume_best_ask (asks_ b) (quantity e)))
              else (true, with_bids b (add_level (bids_ b) px (quantity e)))
          | Ask =>
              if negb (isnan best_bid) && fle px best_bid
              then (true, with_bids b (consume_best_bid (bids_ b) (quantity e)))
              else (true, with_asks b (add_level (asks_ b) px (quantity e)))
          end
    | Cancel =>
        if negb (isfinite (price e)) || fle (price e) zero then (false, b)
        else
          let px := round_to_tick b (price e) in
          match side e with
          | Bid =>
              (true, with_bids b (remove_level_qty (bids_ b) px (quantity e)))
          | Ask =>
              (true, with_asks b (remove_level_qty (asks_ b) px (quantity e)))
          end
    | Market =>
        match side e with
        | Bid => (true, with_asks b (consume_best_ask (asks_ b) (quantity e)))
        | Ask => (true, with_bids b (consume_best_bid (bids_ b) (quantity e)))
        end
    end.

(** [OrderBook::metrics] *)
Definition metrics (b : OrderBook) : Metrics :=
  let tob := top b in
  match best_bid_price tob, best_ask_price tob with
  | Some bid, Some ask =>
      let qb :=
        match best_bid_qty tob with Some q => of_int q | None => zero end in
      let qa :=
        match best_ask_qty tob with Some q => of_int q | None => zero end in
      let denom := fadd qb qa in
      mkMetrics
        (Some (fmul (lit 5 1) (fadd bid ask)))
        (Some (fsub ask bid))
        (if fgt denom zero then Some (fdiv (fsub qb qa) denom) else None)
  | _, _ => mkMetrics None None None
  end.

(** A sequence of [apply] calls, flags dropped. *)
Definition apply_all (b : OrderBook) (es : list (Event double)) : OrderBook :=
  fold_left (fun b e => snd (apply b e)) es b.

End Book.

(* ================================================================== *)
(** ** Arithmetic and random-number interfaces of the engine *)
(* ================================================================== *)

(** The engine calls [std::exp] and [std::log], which IEEE-754 does not
    define, and draws from [std::mt19937].  Its code is therefore written
    once over the operations it uses.  [F64_num] runs it on binary64 with
    the two library functions supplied; [R_num] reads the same code over
    the real numbers, the setting of the analytic statements. *)
Class Num (F : Type) : Type := {
  n0 : F;
  n1 : F;
  nadd : F -> F -> F;
  nsub : F -> F -> F;
  nmul : F -> F -> F;
  ndiv : F -> F -> F;
  nneg : F -> F;
  nexp : F -> F;
  nlog : F -> F;
  nlt : F -> F -> bool;
  nle : F -> F -> bool;
  nfinite : F -> bool
}.

(** [G] is the generator state.  [mt19937 seed] is the constructor,
    [uniform_real01] a draw of [std::uniform_real_distribution<double>(0,1)],
    [uniform_int lo hi] a draw of [std::uniform_int_distribution<int>(lo,hi)];
    each draw returns the advanced generator. *)
Class Rng (F G : Type) : Type := {
  mt19937 : Z -> G;
  uniform_real01 : G -> F * G;
  uniform_int : Z -> Z -> G -> Z * G
}.

Definition F64_num (exp log : double -> double) : Num double := {|
  n0 := zero;
  n1 := of_int 1;
  nadd := fadd;
  nsub := fsub;
  nmul := fmul;
  ndiv := fdiv;
  nneg := SFopp;
  nexp := exp;
  nlog := log;
  nlt := flt;
  nle := fle;
  nfinite := isfinite
|}.

(** What running the code can end in besides a value. *)
Inductive error : Type :=
| InvalidArgument   (* [throw std::invalid_argument] *)
| EmptyOptional     (* [*opt] on an empty [std::optional] *)
| NoAcceptance.     (* the thinning loop is still running when fuel ends *)

Inductive result (A : Type) : Type :=
| Ok (a : A)
| Raise (e : error).

Arguments Ok {A} _.
Arguments Raise {A} _.

Definition bind {A B : Type} (r : result A) (k : A -> result B) : result B :=
  match r with
  | Ok a => k a
  | Raise e => Raise e
  end.

Notation "x <- r ;; k" := (bind r (fun x => k))
  (at level 61, r at next level, right associativity).
Notation "' p <- r ;; k" := (bind r (fun p => k))
  (at level 61, p pattern, r at next level, right associativity).

(* ================================================================== *)
(** ** hawkes_multivariate_process.h / .cpp *)
(* ================================================================== *)

Module Hawkes.

Section Engine.

Context {F G : Type} {num : Num F} {rng : Rng F G}.

Local Infix "+." := nadd (at level 50, left associativity).
Local Infix "-." := nsub (at level 50, left associativity).
Local Infix "*." := nmul (at level 40, left associativity).
Local Infix "/." := ndiv (at level 40, left associativity).

Record HawkesMultivariateProcess : Type := mkProcess {
  dim_ : nat;
  mu_ : list F;
  alpha_ : list (list F);
  beta_ : list (list F);
  s_ : list F;
  lambda_ : list F;
  w_ : list F;
  last_time_ : F;
  rng_ : G;
  qty_min_ : Z;     (* the bounds held by [qty_dist_] *)
  qty_max_ : Z
}.

(** [v[i]] and [m[i][j]]; every access in the source is below the size. *)
Definition at_ (v : list F) (i : nat) : F := nth i v n0.
Definition at2 (m : list (list F)) (i j : nat) : F := nth j (nth i m []) n0.

(** [if (x < 0.0) x = 0.0] *)
Definition clamp0 (x : F) : F := if nlt x n0 then n0 else x.

(** The constructor; [Raise InvalidArgument] where it throws. *)
Definition create (mu : list F) (alpha beta : list (list F))
    (qty_min qty_max : Z) (seed : Z) : result HawkesMultivariateProcess :=
  let dim := length mu in
  if negb (Nat.eqb dim 6) then Raise InvalidArgument
  else if negb (Nat.eqb (length alpha) dim) || negb (Nat.eqb (length beta) dim)
  then Raise InvalidArgument
  else if existsb (fun i => negb (Nat.eqb (length (nth i alpha [])) dim)
                            || negb (Nat.eqb (length (nth i beta [])) dim))
                  (seq 0 dim)
  then Raise InvalidArgument
  else if existsb (fun i => negb (nfinite (at_ mu i)) || nle (at_ mu i) n0)
                  (seq 0 dim)
  then Raise InvalidArgument
  else
    Ok (mkProcess dim mu alpha beta
          (repeat n0 dim)
          (map (fun i => at_ mu i) (seq 0 dim))
          (repeat n1 dim)
          n0 (mt19937 seed) qty_min qty_max).

Definition set_weights (p : HawkesMultivariateProcess) (w : list F)
  : result HawkesMultivariateProcess :=
  if negb (Nat.eqb (length w) (dim_ p)) then Raise InvalidArgument
  else
    let w' := map (fun x => if negb (nfinite x) || nle x n0 then n1 else x) w in
    Ok (mkProcess (dim_ p) (mu_ p) (alpha_ p) (beta_ p) (s_ p) (lambda_ p)
          w' (last_time_ p) (rng_ p) (qty_min_ p) (qty_max_ p)).

Definition decay_to (p : HawkesMultivariateProcess) (t : F)
  : HawkesMultivariateProcess :=
  if nle t (last_time_ p) then p
  else
    let dt := t -. last_time_ p in
    let s' :=
      map (fun i =>
             let b := at2 (beta_ p) i i in
             at_ (s_ p) i *. nexp (nneg b *. dt))
          (seq 0 (dim_ p)) in
    let lambda' :=
      map (fun i => clamp0 (at_ (mu_ p) i +. at_ s' i)) (seq 0 (dim_ p)) in
    mkProcess (dim_ p) (mu_ p) (alpha_ p) (beta_ p) s' lambda'
      (w_ p) t (rng_ p) (qty_min_ p) (qty_max_ p).

Definition total_weighted_intensity (p : HawkesMultivariateProcess) : F :=
  fold_left
    (fun sum i =>
       if nlt n0 (at_ (lambda_ p) i)
       then sum +. at_ (w_ p) i *. at_ (lambda_ p) i
       else sum)
    (seq 0 (dim_ p)) n0.

(** The cumulative walk of [sample_dimension_weighted] from index [i]. *)
Fixpoint sample_walk (p : HawkesMultivariateProcess) (u acc : F)
    (idx : list nat) : nat :=
  match idx with
  | [] => dim_ p - 1
  | i :: rest =>
      if nle (at_ (lambda_ p) i) n0 then sample_walk p u acc rest
      else
        let acc' := acc +. at_ (w_ p) i *. at_ (lambda_ p) i in
        if nle u acc' then i else sample_walk p u acc' rest
  end.

(** Returns the index and the advanced generator. *)
Definition sample_dimension_weighted (p : HawkesMultivariateProcess)
  : nat * G :=
  let total := total_weighted_intensity p in
  if negb (nlt n0 total) then (0%nat, rng_ p)
  else
    let '(u01, g) := uniform_real01 (rng_ p) in
    let u := u01 *. total in
    (sample_walk p u n0 (seq 0 (dim_ p)), g).

Definition with_rng (p : HawkesMultivariateProcess) (g : G)
  : HawkesMultivariateProcess :=
  mkProcess (dim_ p) (mu_ p) (alpha_ p) (beta_ p) (s_ p) (lambda_ p)
    (w_ p) (last_time_ p) g (qty_min_ p) (qty_max_ p).

(** [s_[i] += alpha_[i][k]] and the refreshed intensities. *)
Definition excite (p : HawkesMultivariateProcess) (k : nat)
  : HawkesMultivariateProcess :=
  let s' :=
    map (fun i => at_ (s_ p) i +. at2 (alpha_ p) i k) (seq 0 (dim_ p)) in
  let lambda' :=
    map (fun i => clamp0 (at_ (mu_ p) i +. at_ s' i)) (seq 0 (dim_ p)) in
  mkProcess (dim_ p) (mu_ p) (alpha_ p) (beta_ p) s' lambda'
    (w_ p) (last_time_ p) (rng_ p) (qty_min_ p) (qty_max_ p).

(** The [switch (k)]; an index it does not list leaves the
    value-initialised fields. *)
Definition category (k : nat) : EventType * Side :=
  match k with
  | 0%nat => (Add, Bid)
  | 1%nat => (Add, Ask)
  | 2%nat => (Cancel, Bid)
  | 3%nat => (Cancel, Ask)
  | 4%nat => (Market, Bid)
  | 5%nat => (Market, Ask)
  | _ => (Add, Bid)
  end.

(** One candidate of the thinning loop: the bound before the decay, the
    candidate time, the state decayed to it, the intensity there, and the
    acceptance draw. *)
Record Candidate : Type := mkCandidate {
  lambda_bar : F;
  cand_time : F;
  lambda_cand : F;
  u2 : F;
  at_cand : HawkesMultivariateProcess
}.

Definition propose (p : HawkesMultivariateProcess) (current_time : F)
  : Candidate :=
  let lambda_bar := total_weighted_intensity p in
  let '(u1, g1) := uniform_real01 (rng_ p) in
  let wait := nneg (nlog u1) /. lambda_bar in
  let cand_time := current_time +. wait in
  let p1 := decay_to (with_rng p g1) cand_time in
  let lambda_cand := total_weighted_intensity p1 in
  let '(u2, g2) := uniform_real01 (rng_ p1) in
  mkCandidate lambda_bar cand_time lambda_cand u2 (with_rng p1 g2).

(** The accepting branch: sample the dimension, excite, build the event. *)
Definition accept (c : Candidate) : Event F * HawkesMultivariateProcess :=
  let p := at_cand c in
  let '(k, g) := sample_dimension_weighted p in
  let p1 := excite (with_rng p g) k in
  let '(q, g') := uniform_int (qty_min_ p1) (qty_max_ p1) (rng_ p1) in
  let '(ty, sd) := category k in
  (mkEvent (cand_time c) ty sd n0 q, with_rng p1 g').

Definition reset_weights (p : HawkesMultivariateProcess)
  : HawkesMultivariateProcess :=
  mkProcess (dim_ p) (mu_ p) (alpha_ p) (beta_ p) (s_ p) (lambda_ p)
    (map (fun _ => n1) (w_ p)) (last_time_ p) (rng_ p)
    (qty_min_ p) (qty_max_ p).

(** The [while (true)] of [next]; one unit of fuel per turn. *)
Fixpoint thinning (fuel : nat) (p : HawkesMultivariateProcess)
    (current_time : F) : result (Event F * HawkesMultivariateProcess) :=
  match fuel with
  | O => Raise NoAcceptance
  | S fuel' =>
      if negb (nlt n0 (total_weighted_intensity p))
      then thinning fuel' (reset_weights p) current_time
      else
        let c := propose p current_time in
        if nle (u2 c) (lambda_cand c /. lambda_bar c)
        then Ok (accept c)
        else thinning fuel' (at_cand c) (cand_time c)
  end.

(** The candidates that the [while (true)] of [next] goes through, in
    order, while fuel lasts (the same walk as [thinning], keeping each
    proposal instead of the final event). *)
Fixpoint candidates (fuel : nat) (p : HawkesMultivariateProcess)
    (current_time : F) : list Candidate :=
  match fuel with
  | O => []
  | S fuel' =>
      if negb (nlt n0 (total_weighted_intensity p))
      then candidates fuel' (reset_weights p) current_time
      else
        let c := propose p current_time in
        c :: (if nle (u2 c) (lambda_cand c /. lambda_bar c)
              then []
              else candidates fuel' (at_cand c) (cand_time c))
  end.

Definition next (fuel : nat) (p : HawkesMultivariateProcess) (t : F)
  : result (Event F * HawkesMultivariateProcess) :=
  thinning fuel (decay_to p t) t.

(** The engine as the simulator loop drives it: before each call the
    weights computed from the book are installed, and the clock passed to
    the next call is the time of the event just returned. *)
Fixpoint drive (fuel : nat) (weights : list (list F))
    (p : HawkesMultivariateProcess) (clock : F) : result (list (Event F)) :=
  match weights with
  | [] => Ok []
  | w :: rest =>
      p1 <- set_weights p w ;;
      '(e, p2) <- next fuel p1 clock ;;
      es <- drive fuel rest p2 (t e) ;;
      Ok (e :: es)
  end.

End Engine.

Arguments HawkesMultivariateProcess : clear implicits.
Arguments Candidate : clear implicits.

End Hawkes.

(* ================================================================== *)
(** ** apps/simulate_hawkes_multivariate.cpp *)
(* ================================================================== *)

Module Sim.

Import Book.

Definition price_center : double := of_int 100.
Definition tick : double := lit 1 1.

(** [std::max(a, b)] is [(a < b) ? b : a]. *)
Definition fmax (a b : double) : double := if flt a b then b else a.

Definition clamp_weight (x : double) : double :=
  let x1 := if negb (isfinite x) || flt x (lit 5 2) then lit 5 2 else x in
  if fgt x1 (of_int 50) then of_int 50 else x1.

(** [compute_weights] *)
Definition compute_weights (book : OrderBook) : list double :=
  let one := of_int 1 in
  let tob := top book in
  match best_bid_price tob, best_ask_price tob with
  | Some bid, Some ask =>
      let tick := tick_size book in
      let spread := fsub ask bid in
      let spread_ticks := if fgt tick zero then fdiv spread tick else one in
      let qb :=
        match best_bid_qty tob with Some q => of_int q | None => zero end in
      let qa :=
        match best_ask_qty tob with Some q => of_int q | None => zero end in
      let denom := fadd qb qa in
      let imbalance :=
        if fgt denom zero then fdiv (fsub qb qa) denom else zero in
      let wide := fadd one (fmul (lit 8 1) spread_ticks) in
      let tight := fadd one (fdiv (lit 25 1) (fadd one spread_ticks)) in
      map clamp_weight
        [ wide;
          wide;
          fadd one (fmul (lit 1 2) qb);
          fadd one (fmul (lit 1 2) qa);
          fmul tight (fadd one (fmul (lit 15 1) (fmax zero imbalance)));
          fmul tight
            (fadd one (fmul (lit 15 1) (fmax zero (SFopp imbalance)))) ]
  | _, _ => repeat one 6
  end.

(** The seeding loop, [k = 1 .. 10]. *)
Definition seed_book (book : OrderBook) : OrderBook :=
  fold_left
    (fun b k =>
       let b1 := snd (apply b (mkEvent zero Add Bid
                       (fsub price_center (fmul (of_int k) tick)) 60)) in
       snd (apply b1 (mkEvent zero Add Ask
                       (fadd price_center (fmul (of_int k) tick)) 60)))
    (map Z.of_nat (seq 1 10)) book.

(** The safety net.  Both tests read the same snapshot [tob], taken before
    the first injection. *)
Definition liveness (book : OrderBook) (t : double) : OrderBook :=
  let tob := top book in
  let b1 :=
    match best_bid_price tob with
    | None => snd (apply book (mkEvent t Add Bid (fsub price_center tick) 50))
    | Some _ => book
    end in
  match best_ask_price tob with
  | None => snd (apply b1 (mkEvent t Add Ask (fadd price_center tick) 50))
  | Some _ => b1
  end.

(** [*opt]: undefined on an empty optional. *)
Definition deref {A : Type} (o : option A) : result A :=
  match o with
  | Some a => Ok a
  | None => Raise EmptyOptional
  end.

Section Loop.

Context {G1 G2 : Type}.
Context {num : Num double}.
Context {rng1 : Rng double G1}.   (* the engine's generator *)
Context {rng2 : Rng double G2}.   (* the placement generator *)

(** The placement logic: the price of the event, and the generator after
    the draws it made. *)
Definition place (e : Event double) (best_bid best_ask : double) (g : G2)
  : double * G2 :=
  let spread_ticks := fdiv (fsub best_ask best_bid) tick in
  match type e with
  | Add =>
      let improve_prob :=
        if fge spread_ticks (of_int 3) then lit 45 2 else lit 20 2 in
      let join_prob := lit 50 2 in
      let '(roll, g1) := uniform_int 0 99 g in
      match side e with
      | Bid =>
          if (roll <? to_int (fmul improve_prob (of_int 100)))
             && flt (fadd best_bid tick) best_ask
          then (fadd best_bid tick, g1)
          else if roll
                  <? to_int (fmul (fadd improve_prob join_prob) (of_int 100))
          then (best_bid, g1)
          else
            let '(depth, g2) := uniform_int 1 5 g1 in
            (fsub best_bid (fmul (of_int depth) tick), g2)
      | Ask =>
          if (roll <? to_int (fmul improve_prob (of_int 100)))
             && fgt (fsub best_ask tick) best_bid
          then (fsub best_ask tick, g1)
          else if roll
                  <? to_int (fmul (fadd improve_prob join_prob) (of_int 100))
          then (best_ask, g1)
          else
            let '(depth, g2) := uniform_int 1 5 g1 in
            (fadd best_ask (fmul (of_int depth) tick), g2)
      end
  | Cancel =>
      (match side e with Bid => best_bid | Ask => best_ask end, g)
  | Market => (zero, g)
  end.

Record Observation : Type := mkObservation {
  obs_event : Event double;
  obs_top : TopOfBook;
  obs_metrics : Metrics
}.

(** The loop body from the safety net to the log line, for the event [e]
    that [process.next] returned. *)
Definition handle (book : OrderBook) (g : G2) (e : Event double)
  : result (OrderBook * G2 * Observation) :=
  let now := t e in
  let book1 := liveness book now in
  let tob := top book1 in
  best_bid <- deref (best_bid_price tob) ;;
  best_ask <- deref (best_ask_price tob) ;;
  let '(px, g') := place e best_bid best_ask g in
  let e' := mkEvent now (type e) (side e) px (quantity e) in
  let book2 := snd (apply book1 e') in
  Ok (book2, g', mkObservation e' (top book2) (metrics book2)).

(** The loop body over the successive events of the engine. *)
Fixpoint handle_all (book : OrderBook) (g : G2) (es : list (Event double))
  : result (OrderBook * G2 * list Observation) :=
  match es with
  | [] => Ok (book, g, [])
  | e :: rest =>
      '(book1, g1, ob) <- handle book g e ;;
      '(book2, g2, obs) <- handle_all book1 g1 rest ;;
      Ok (book2, g2, ob :: obs)
  end.

End Loop.

End Sim.

(* ================================================================== *)
(** ** The whole loop of [main] *)
(* ================================================================== *)

Module Main.

Import Book Sim.

Section Run.

Context {G1 G2 : Type}.
Context {num : Num double}.
Context {rng1 : Rng double G1}.
Context {rng2 : Rng double G2}.

Record State : Type := mkState {
  book : OrderBook;
  process : Hawkes.HawkesMultivariateProcess double G1;
  place_rng : G2;
  clock : double
}.

(** One turn of the [for] loop.  [fuel] bounds the thinning loop inside
    [process.next]. *)
Definition step (fuel : nat) (st : State) : result (State * Observation) :=
  p1 <- Hawkes.set_weights (process st) (compute_weights (book st)) ;;
  '(e, p2) <- Hawkes.next fuel p1 (clock st) ;;
  '(book', g', ob) <- handle (book st) (place_rng st) e ;;
  Ok (mkState book' p2 g' (t e), ob).

Fixpoint loop (fuel : nat) (n : nat) (st : State) : result (list Observation) :=
  match n with
  | O => Ok []
  | S n' =>
      '(st', ob) <- step fuel st ;;
      obs <- loop fuel n' st' ;;
      Ok (ob :: obs)
  end.

(** [main] with its constants as arguments: the Hawkes parameters, the
    quantity range, the two seeds and the number of events. *)
Definition simulate (mu : list double) (alpha beta : list (list double))
    (qty_min qty_max : Z) (seed place_seed : Z) (N : nat) (fuel : nat)
  : result (list Observation) :=
  p <- Hawkes.create mu alpha beta qty_min qty_max seed ;;
  loop fuel N (mkState (seed_book (create tick)) p (mt19937 place_seed) zero).

Definition main_mu : list double :=
  [lit 15 1; lit 15 1; lit 8 1; lit 8 1; of_int 1; of_int 1].

Definition main_alpha : list (list double) :=
  let z := zero in
  [ [lit 6 1; lit 1 1; lit 1 1; z; lit 2 1; z];
    [lit 1 1; lit 6 1; z; lit 1 1; z; lit 2 1];
    [lit 1 1; z; lit 4 1; lit 1 1; lit 1 1; z];
    [z; lit 1 1; lit 1 1; lit 4 1; z; lit 1 1];
    [lit 2 1; z; lit 1 1; z; lit 5 1; lit 1 1];
    [z; lit 2 1; z; lit 1 1; lit 1 1; lit 5 1] ].

Definition main_beta : list (list double) := repeat (repeat (lit 15 1) 6) 6.

Definition main (fuel : nat) : result (list Observation) :=
  simulate main_mu main_alpha main_beta 5 50 42 42 800 fuel.

End Run.

Arguments State : clear implicits.

End Main.

(* ================================================================== *)
(** ** The engine over the real numbers *)
(* ================================================================== *)

Module RealModel.

Definition Rltb (x y : R) : bool := if Rlt_dec x y then true else false.
Definition Rleb (x y : R) : bool := if Rle_dec x y then true else false.

#[export] Instance R_num : Num R := {|
  n0 := 0%R;
  n1 := 1%R;
  nadd := Rplus;
  nsub := Rminus;
  nmul := Rmult;
  ndiv := Rdiv;
  nneg := Ropp;
  nexp := exp;
  nlog := ln;
  nlt := Rltb;
  nle := Rleb;
  nfinite := fun _ => true
|}.

End RealModel.

(* ================================================================== *)
(** ** Predicates used by the statements *)
(* ================================================================== *)

Module Props.

Import Book RealModel.

Definition keys (m : side_map) : list double := map fst m.

(** The representation invariant of [std::map]: keys strictly ascending
    (which also makes every key comparable, that is, not NaN). *)
Fixpoint ascending_from (lo : double) (m : side_map) : bool :=
  match m with
  | [] => true
  | (k, _) :: r => flt lo k && ascending_from k r
  end.

Definition ordered (m : side_map) : bool :=
  match m with
  | [] => true
  | (k, _) :: r => negb (isnan k) && ascending_from k r
  end.

Definition is_int (z : Z) : bool :=
  (Int32.INT_MIN <=? z) && (z <=? Int32.INT_MAX).

(** A stored quantity is a positive [int]. *)
Definition level_ok (q : Z) : bool := (1 <=? q) && (q <=? Int32.INT_MAX).

Definition levels_ok (m : side_map) : bool :=
  forallb (fun kv => level_ok (snd kv)) m.

Definition tick_ok (b : OrderBook) : bool :=
  isfinite (tick_size_ b) && fgt (tick_size_ b) zero.

(** [best_bid < best_ask] whenever both exist. *)
Definition uncrossed (b : OrderBook) : bool :=
  match best_bid_price (top b), best_ask_price (top b) with
  | Some pb, Some pa => flt pb pa
  | _, _ => true
  end.

(** Every bid key is below every ask key. *)
Definition separated (bids asks : side_map) : Prop :=
  forall kb ka, In kb (keys bids) -> In ka (keys asks) -> flt kb ka = true.

(** The part of the invariant that does not depend on the quantities. *)
Definition wf_keys (b : OrderBook) : Prop :=
  tick_ok b = true /\
  ordered (bids_ b) = true /\ ordered (asks_ b) = true /\
  separated (bids_ b) (asks_ b).

Definition wf_book (b : OrderBook) : Prop :=
  tick_ok b = true /\
  ordered (bids_ b) = true /\ ordered (asks_ b) = true /\
  levels_ok (bids_ b) = true /\ levels_ok (asks_ b) = true /\
  separated (bids_ b) (asks_ b).

(** Total resting quantity of a side. *)
Definition depth (m : side_map) : Z :=
  fold_right (fun kv acc => snd kv + acc) 0 m.

Definition snapped (b : OrderBook) (e : Event double) : double :=
  round_to_tick b (price e).

Definition own_side (b : OrderBook) (s : Side) : side_map :=
  match s with Bid => bids_ b | Ask => asks_ b end.

Definition opposite_side (b : OrderBook) (s : Side) : side_map :=
  match s with Bid => asks_ b | Ask => bids_ b end.

(** The snapped price crosses or touches the opposite best. *)
Definition marketable (b : OrderBook) (e : Event double) : bool :=
  match side e with
  | Bid =>
      match best_ask_price (top b) with
      | Some pa => fge (snapped b e) pa
      | None => false
      end
  | Ask =>
      match best_bid_price (top b) with
      | Some pb => fle (snapped b e) pb
      | None => false
      end
  end.

Definition is_add (e : Event double) : bool :=
  match type e with Add => true | _ => false end.

(** The preconditions of [apply], as the specification lists them. *)
Definition fails_precondition (e : Event double) : bool :=
  negb (isfinite (t e))
  || (quantity e <=? 0)
  || (match type e with
      | Add | Cancel => negb (isfinite (price e)) || fle (price e) zero
      | Market => false
      end).

(** [apply b e] rests the order: an accepted, non-marketable Add. *)
Definition rests (b : OrderBook) (e : Event double) : bool :=
  negb (fails_precondition e) && is_add e && negb (marketable b e).

(** Quantity already resting at the snapped price on the event's side. *)
Definition resting_qty (b : OrderBook) (e : Event double) : Z :=
  match find (own_side b (side e)) (snapped b e) with
  | Some v => v
  | None => 0
  end.

(** The event carries an [int], and if it rests, the level it joins stays
    within [INT_MAX]. *)
Definition fits_int (b : OrderBook) (e : Event double) : bool :=
  is_int (quantity e)
  && (negb (rests b e) || (resting_qty b e + quantity e <=? Int32.INT_MAX)).

Fixpoint run_fits_int (b : OrderBook) (es : list (Event double)) : bool :=
  match es with
  | [] => true
  | e :: r => fits_int b e && run_fits_int (snd (apply b e)) r
  end.

(** [m'] is [m] after a best-first walk over levels listed best first:
    a prefix of levels is gone, and the next level is either untouched or
    keeps a positive residual below its old quantity. *)
Definition consumed_best_first (m m' : side_map) : Prop :=
  exists gone rest,
    m = gone ++ rest /\
    (m' = rest \/
     exists p v v' tl,
       rest = (p, v) :: tl /\ m' = (p, v') :: tl /\ 1 <= v' < v).

(** Keys that [std::map] treats as the same key. *)
Definition equiv (x y : double) : Prop := flt x y = false /\ flt y x = false.

(** A double above zero whose exponent is in the binary64 range: what
    rounding a positive value returns. *)
Definition strictly_positive (x : double) : Prop :=
  match x with
  | S754_infinity false => True
  | S754_finite false _ e => emin prec emax <= e
  | _ => False
  end.

(** The engine state the intensity statements are about: for every
    dimension, a non-negative excitation, a positive weight, baseline and
    diagonal decay, and the cached intensity [mu_i + s_i]. *)
Definition valid_state {G : Type}
    (p : Hawkes.HawkesMultivariateProcess R G) : Prop :=
  forall i, (i < Hawkes.dim_ p)%nat ->
    (0 <= Hawkes.at_ (Hawkes.s_ p) i)%R /\
    (0 < Hawkes.at_ (Hawkes.w_ p) i)%R /\
    (0 < Hawkes.at_ (Hawkes.mu_ p) i)%R /\
    (0 < Hawkes.at2 (Hawkes.beta_ p) i i)%R /\
    Hawkes.at_ (Hawkes.lambda_ p) i
      = (Hawkes.at_ (Hawkes.mu_ p) i + Hawkes.at_ (Hawkes.s_ p) i)%R.

(** [lo <= t1 <= t2 <= ...] *)
Fixpoint non_decreasing (lo : R) (ts : list R) : Prop :=
  match ts with
  | [] => True
  | x :: r => (lo <= x)%R /\ non_decreasing x r
  end.

(** The draws of [std::uniform_real_distribution<double>(0, 1)] lie in
    [0, 1). *)
Definition unit_interval_draws {G : Type} (rng : Rng R G) : Prop :=
  forall g : G, (0 <= fst (uniform_real01 g) < 1)%R.

(** The weighted intensity of one dimension, as
    [total_weighted_intensity] adds it. *)
Definition term {G : Type} (p : Hawkes.HawkesMultivariateProcess R G)
    (i : nat) : R :=
  if Rltb 0 (Hawkes.at_ (Hawkes.lambda_ p) i)
  then (Hawkes.at_ (Hawkes.w_ p) i * Hawkes.at_ (Hawkes.lambda_ p) i)%R
  else 0%R.

(** The parameters under which the engine keeps [valid_state]: no
    excitation is negative and every diagonal decay is positive. *)
Definition sound_parameters {G : Type}
    (p : Hawkes.HawkesMultivariateProcess R G) : Prop :=
  forall i, (i < Hawkes.dim_ p)%nat ->
    (0 < Hawkes.at2 (Hawkes.beta_ p) i i)%R /\
    forall k, (0 <= Hawkes.at2 (Hawkes.alpha_ p) i k)%R.

End Props.

(* ================================================================== *)
(** ** Concrete inputs used by the examples *)
(* ================================================================== *)

Module Samples.

Import Book RealModel.

Definition tick01 : double := lit 1 1.

(** An event at time 0. *)
Definition ev (ty : EventType) (sd : Side) (p : double) (q : Z)
  : Event double :=
  mkEvent zero ty sd p q.

(** Boundary scenario 1 of the specification. *)
Definition crossed_add : list (Event double) :=
  [ ev Add Bid (of_int 100) 50;
    ev Add Ask (lit 1005 1) 50;
    ev Add Bid (lit 1005 1) 20 ].

(** Two resting adds at one price whose quantities sum to [INT_MAX + 1]. *)
Definition overflowing_adds : list (Event double) :=
  [ ev Add Bid (of_int 100) Int32.INT_MAX;
    ev Add Bid (of_int 100) 1 ].

(** Boundary scenario 2 of the specification: asks at 100.1, 100.2, 100.3
    and one bid, then a market buy of 22. *)
Definition three_asks : list (Event double) :=
  [ ev Add Ask (lit 1001 1) 10;
    ev Add Ask (lit 1002 1) 15;
    ev Add Ask (lit 1003 1) 20;
    ev Add Bid (lit 999 1) 10 ].

Definition market_buy_22 : Event double := ev Market Bid zero 22.

(** A cancel of 4 at the resting bid of [three_asks]. *)
Definition cancel_bid_4 : Event double := ev Cancel Bid (lit 999 1) 4.

(** The overflowing adds followed by one ask. *)
Definition overflow_then_ask : list (Event double) :=
  overflowing_adds ++ [ ev Add Ask (of_int 101) 1 ].

(** A generator that replays a list of integer draws (and returns the
    lower bound once the list is used up); its real draws are all [u]. *)
Definition replay (u : double) : Rng double (list Z) := {|
  mt19937 := fun _ => [];
  uniform_real01 := fun g => (u, g);
  uniform_int := fun lo _ g =>
    match g with
    | [] => (lo, [])
    | x :: r => (x, r)
    end
|}.

(** An event as the engine returns it: time [n], price 0. *)
Definition engine_ev (n : Z) (ty : EventType) (sd : Side) (q : Z)
  : Event double :=
  mkEvent (of_int n) ty sd zero q.

(** Market sells empty the best bid level, two improving asks follow the
    bid down to 99.9, then market sells take the nine remaining bid
    levels.  Quantities are in the engine's range 5..50. *)
Definition draining_events : list (Event double) :=
  [ engine_ev 1 Market Ask 50; engine_ev 2 Market Ask 10;
    engine_ev 3 Add Ask 50; engine_ev 4 Add Ask 50 ]
  ++ map (fun n => engine_ev n Market Ask 50)
       [5; 6; 7; 8; 9; 10; 11; 12; 13; 14]
  ++ [ engine_ev 15 Market Ask 40 ].

(** The placement rolls of the two Add events: both improve. *)
Definition draining_rolls : list Z := [0; 0].

(** A real-number engine right after construction with unit baselines, no
    excitation and unit decays, on a generator whose real draws are all 0
    and whose integer draws are the lower bound. *)
Definition zero_draws : Rng R unit := {|
  mt19937 := fun _ => tt;
  uniform_real01 := fun g => (0%R, g);
  uniform_int := fun lo _ g => (lo, g)
|}.

Definition unit_rates : Hawkes.HawkesMultivariateProcess R unit :=
  Hawkes.mkProcess 6%nat
    (repeat 1%R 6) (repeat (repeat 0%R 6) 6) (repeat (repeat 1%R 6) 6)
    (repeat 0%R 6) (repeat 1%R 6) (repeat 1%R 6) 0%R tt 5 50.

(** Binary64 arithmetic with stand-ins for the two library functions:
    [exp] constantly 1 (no decay) and [log] constantly -1 (every waiting
    time is [1 / lambda_bar]). *)
Definition stub_num : Num double :=
  F64_num (fun _ => of_int 1) (fun _ => of_int (-1)).

(** Boundary scenario 3: a book with one bid, and a cancel on the empty
    ask side. *)
Definition lone_bid : list (Event double) := [ ev Add Bid (lit 999 1) 10 ].

Definition cancel_absent_ask : Event double := ev Cancel Ask (lit 1005 1) 5.

(** Boundary scenario 4: prices off the tick grid. *)
Definition off_grid_adds : list (Event double) :=
  [ ev Add Bid (lit 10004 2) 10; ev Add Bid (lit 10006 2) 10 ].

End Samples.

(* ================================================================== *)
(** ** python/bindings/lob_bindings.cpp *)
(* ================================================================== *)

Module Bindings.

Import Book.

(** [static_cast<int>(e.type)] and [static_cast<int>(e.side)]. *)
Definition type_code (ty : EventType) : Z :=
  match ty with Add => 0 | Cancel => 1 | Market => 2 end.

Definition side_code (sd : Side) : Z :=
  match sd with Bid => 0 | Ask => 1 end.

(** The vectors that [run_simulation] fills, one entry per event. *)
Record Columns : Type := mkColumns {
  times : list double;
  event_types : list Z;
  sides : list Z;
  quantities : list Z;
  prices : list double;
  best_bids : list double;
  best_asks : list double;
  mids : list double;
  spreads : list double
}.

Definition no_columns : Columns := mkColumns [] [] [] [] [] [] [] [] [].

(** [opt ? *opt : std::nan("")] *)
Definition or_nan (o : option double) : double :=
  match o with Some x => x | None => quiet_NaN end.

(** The nine [push_back] calls at the end of the loop body. *)
Definition push_back (c : Columns) (now : double) (e : Event double)
    (tob : TopOfBook) (m : Metrics) : Columns :=
  mkColumns
    (times c ++ [now])
    (event_types c ++ [type_code (type e)])
    (sides c ++ [side_code (side e)])
    (quantities c ++ [quantity e])
    (prices c ++ [price e])
    (best_bids c ++ [or_nan (best_bid_price tob)])
    (best_asks c ++ [or_nan (best_ask_price tob)])
    (mids c ++ [or_nan (mid m)])
    (spreads c ++ [or_nan (spread m)]).

(** The lambda [compute_weights] of [run_simulation]. *)
Definition compute_weights (book : OrderBook) : list double :=
  let one := of_int 1 in
  let tob := top book in
  match best_bid_price tob, best_ask_price tob with
  | Some bid, Some ask =>
      let spread := fsub ask bid in
      let spread_ticks := fdiv spread (tick_size book) in
      let wide := fadd one (fmul (lit 8 1) spread_ticks) in
      let tight := fadd one (fdiv (lit 25 1) (fadd one spread_ticks)) in
      [wide; wide; one; one; tight; tight]
  | _, _ => repeat one 6
  end.

(** The seeding loop, [k = 1 .. 10], at the caller's centre and tick. *)
Definition seed_book (price_center tick_size : double) (book : OrderBook)
  : OrderBook :=
  fold_left
    (fun b k =>
       let b1 := snd (apply b (mkEvent zero Add Bid
                       (fsub price_center (fmul (of_int k) tick_size)) 60)) in
       snd (apply b1 (mkEvent zero Add Ask
                       (fadd price_center (fmul (of_int k) tick_size)) 60)))
    (map Z.of_nat (seq 1 10)) book.

(** "Safety: keep book alive".  Both tests read the snapshot taken before
    the first injection. *)
Definition liveness (price_center tick_size : double) (book : OrderBook)
    (now : double) : OrderBook :=
  let tob := top book in
  let b1 :=
    match best_bid_price tob with
    | None =>
        snd (apply book
               (mkEvent now Add Bid (fsub price_center tick_size) 50))
    | Some _ => book
    end in
  match best_ask_price tob with
  | None =>
      snd (apply b1 (mkEvent now Add Ask (fadd price_center tick_size) 50))
  | Some _ => b1
  end.

(** The argument of [std::mt19937 place_rng(...)]:
    [static_cast<unsigned>(t * 1000 + n)] (defined by the language only
    when the truncated value fits an [unsigned]). *)
Definition place_seed (now : double) (n : Z) : Z :=
  to_int (fadd (fmul now (of_int 1000)) (of_int n)).

Section Run.

Context {G : Type}.
Context {num : Num double}.
Context {rng : Rng double G}.

(** The placement logic; a market order keeps the price the engine
    gave it. *)
Definition place (tick_size : double) (e : Event double)
    (best_bid best_ask : double) (g : G) : double :=
  let spread_ticks := fdiv (fsub best_ask best_bid) tick_size in
  match type e with
  | Add =>
      let improve_prob :=
        if fge spread_ticks (of_int 3) then lit 45 2 else lit 20 2 in
      let join_prob := lit 50 2 in
      let '(roll, g1) := uniform_int 0 99 g in
      match side e with
      | Bid =>
          if (roll <? to_int (fmul improve_prob (of_int 100)))
             && flt (fadd best_bid tick_size) best_ask
          then fadd best_bid tick_size
          else if roll
                  <? to_int (fmul (fadd improve_prob join_prob) (of_int 100))
          then best_bid
          else
            let '(depth, _) := uniform_int 1 5 g1 in
            fsub best_bid (fmul (of_int depth) tick_size)
      | Ask =>
          if (roll <? to_int (fmul improve_prob (of_int 100)))
             && fgt (fsub best_ask tick_size) best_bid
          then fsub best_ask tick_size
          else if roll
                  <? to_int (fmul (fadd improve_prob join_prob) (of_int 100))
          then best_ask
          else
            let '(depth, _) := uniform_int 1 5 g1 in
            fadd best_ask (fmul (of_int depth) tick_size)
      end
  | Cancel => match side e with Bid => best_bid | Ask => best_ask end
  | Market => price e
  end.

(** The loop body after [process.next] returned [e], in turn [n]. *)
Definition handle (price_center tick_size : double) (n : Z)
    (book : OrderBook) (c : Columns) (e : Event double)
  : result (OrderBook * Columns) :=
  let now := t e in
  let book1 := liveness price_center tick_size book now in
  let tob := top book1 in
  best_bid <- Sim.deref (best_bid_price tob) ;;
  best_ask <- Sim.deref (best_ask_price tob) ;;
  let px := place tick_size e best_bid best_ask (mt19937 (place_seed now n)) in
  let e' := mkEvent now (type e) (side e) px (quantity e) in
  let book2 := snd (apply book1 e') in
  Ok (book2, push_back c now e' (top book2) (metrics book2)).

(** The [for] loop: [todo] turns are left, [n] is the loop counter. *)
Fixpoint loop (fuel : nat) (price_center tick_size : double) (todo : nat)
    (n : Z) (book : OrderBook)
    (process : Hawkes.HawkesMultivariateProcess double G)
    (now : double) (c : Columns) : result Columns :=
  match todo with
  | O => Ok c
  | S todo' =>
      p1 <- Hawkes.set_weights process (compute_weights book) ;;
      '(e, p2) <- Hawkes.next fuel p1 now ;;
      '(book', c') <- handle price_center tick_size n book c e ;;
      loop fuel price_center tick_size todo' (n + 1) book' p2 (t e) c'
  end.

(** [run_simulation]; the returned dictionary holds the columns. *)
Definition run_simulation (fuel : nat) (mu : list double)
    (alpha beta : list (list double)) (num_events : Z)
    (price_center tick_size : double) (qty_min qty_max seed : Z)
  : result Columns :=
  let book := seed_book price_center tick_size (create tick_size) in
  process <- Hawkes.create mu alpha beta qty_min qty_max seed ;;
  loop fuel price_center tick_size (Z.to_nat num_events) 0 book process
    zero no_columns.

End Run.

End Bindings.

(* ================================================================== *)
(** ** poisson_process.h / .cpp and hawkes_univariate_process.h / .cpp *)
(* ================================================================== *)

(** The two simple processes convert an [int] to the number type
    ([tick_offset * tick_size_]) and draw from two more distributions. *)
Class FromInt (F : Type) : Type := {
  nof_int : Z -> F     (* [static_cast<double>(n)] *)
}.

(** [bernoulli p] is a draw of [std::bernoulli_distribution(p)],
    [exponential lambda] a draw of
    [std::exponential_distribution<double>(lambda)]; each returns the
    advanced generator. *)
Class Dists (F G : Type) : Type := {
  bernoulli : F -> G -> bool * G;
  exponential : F -> G -> F * G
}.

Definition F64_from_int : FromInt double := {| nof_int := of_int |}.

Module Simple.

Section Processes.

Context {F G : Type}.
Context {num : Num F} {conv : FromInt F}.
Context {rng : Rng F G} {dists : Dists F G}.

Local Infix "+." := nadd (at level 50, left associativity).
Local Infix "-." := nsub (at level 50, left associativity).
Local Infix "*." := nmul (at level 40, left associativity).
Local Infix "/." := ndiv (at level 40, left associativity).

(** The literals [0.5] and [0.8] handed to [side_dist_] and
    [type_dist_]. *)
Definition side_prob : F := nof_int 5 /. nof_int 10.
Definition type_prob : F := nof_int 8 /. nof_int 10.

(** [1 + (qty_dist_(rng_) % 5)]; [%] truncates toward zero. *)
Definition tick_offset (draw : Z) : Z := 1 + Z.rem draw 5.

(** "Minimal price model": the centre moved by the offset, down for a bid
    and up for an ask. *)
Definition offset_price (price_center tick_size : F) (sd : Side) (off : Z)
  : F :=
  match sd with
  | Bid => price_center -. nof_int off *. tick_size
  | Ask => price_center +. nof_int off *. tick_size
  end.

(** *** PoissonProcess *)

Record PoissonProcess : Type := mkPoisson {
  p_rng_ : G;
  p_lambda_ : F;          (* the rate held by [inter_arrival_] *)
  p_qty_min_ : Z;
  p_qty_max_ : Z;
  p_price_center_ : F;
  p_tick_size_ : F
}.

Definition poisson_create (lambda price_center tick_size : F)
    (qty_min qty_max seed : Z) : PoissonProcess :=
  mkPoisson (mt19937 seed) lambda qty_min qty_max price_center tick_size.

(** [PoissonProcess::next] *)
Definition poisson_next (p : PoissonProcess) (now : F)
  : Event F * PoissonProcess :=
  let '(gap, g1) := exponential (p_lambda_ p) (p_rng_ p) in
  let '(sb, g2) := bernoulli side_prob g1 in
  let '(tb, g3) := bernoulli type_prob g2 in
  let '(q, g4) := uniform_int (p_qty_min_ p) (p_qty_max_ p) g3 in
  let '(d, g5) := uniform_int (p_qty_min_ p) (p_qty_max_ p) g4 in
  let sd := if sb then Bid else Ask in
  let ty := if tb then Add else Cancel in
  (mkEvent (now +. gap) ty sd
     (offset_price (p_price_center_ p) (p_tick_size_ p) sd (tick_offset d)) q,
   mkPoisson g5 (p_lambda_ p) (p_qty_min_ p) (p_qty_max_ p)
     (p_price_center_ p) (p_tick_size_ p)).

(** *** HawkesUnivariateProcess *)

Record HawkesUnivariateProcess : Type := mkUnivariate {
  mu_ : F;
  alpha_ : F;
  beta_ : F;
  last_time_ : F;
  s_ : F;
  rng_ : G;
  qty_min_ : Z;
  qty_max_ : Z;
  price_center_ : F;
  tick_size_ : F
}.

(** The constructor; [Raise InvalidArgument] where it throws. *)
Definition create (mu alpha beta price_center tick_size : F)
    (qty_min qty_max seed : Z) : result HawkesUnivariateProcess :=
  if negb (nlt n0 mu) then Raise InvalidArgument
  else if nlt alpha n0 then Raise InvalidArgument
  else if negb (nlt n0 beta) then Raise InvalidArgument
  else Ok (mkUnivariate mu alpha beta n0 n0 (mt19937 seed)
             qty_min qty_max price_center tick_size).

Definition with_state (p : HawkesUnivariateProcess) (last_time s : F)
  : HawkesUnivariateProcess :=
  mkUnivariate (mu_ p) (alpha_ p) (beta_ p) last_time s (rng_ p)
    (qty_min_ p) (qty_max_ p) (price_center_ p) (tick_size_ p).

Definition with_rng (p : HawkesUnivariateProcess) (g : G)
  : HawkesUnivariateProcess :=
  mkUnivariate (mu_ p) (alpha_ p) (beta_ p) (last_time_ p) (s_ p) g
    (qty_min_ p) (qty_max_ p) (price_center_ p) (tick_size_ p).

Definition decay_to (p : HawkesUnivariateProcess) (new_time : F)
  : HawkesUnivariateProcess :=
  if nlt new_time (last_time_ p) then with_state p new_time n0
  else
    let dt := new_time -. last_time_ p in
    if nlt n0 dt
    then with_state p new_time (s_ p *. nexp (nneg (beta_ p) *. dt))
    else p.

Definition intensity (p : HawkesUnivariateProcess) : F :=
  mu_ p +. alpha_ p *. s_ p.

(** One turn of the thinning loop up to the acceptance test: the bound,
    the candidate time, the intensity there, the acceptance draw, and the
    state in which the test is made. *)
Record Candidate : Type := mkCandidate {
  lambda_bar : F;
  cand_time : F;
  lambda_cand : F;
  u2 : F;
  before_test : HawkesUnivariateProcess
}.

Definition propose (p : HawkesUnivariateProcess) (current_time : F)
  : Candidate :=
  let lambda_bar := intensity p in
  let p0 :=
    if negb (nlt n0 lambda_bar) || negb (nfinite lambda_bar)
    then with_state p current_time n0
    else p in
  let '(u1, g1) := uniform_real01 (rng_ p0) in
  let w := nneg (nlog u1) /. lambda_bar in
  let cand_time := current_time +. w in
  let dt := cand_time -. last_time_ p0 in
  let s_cand := s_ p0 *. nexp (nneg (beta_ p0) *. dt) in
  let lambda_cand := mu_ p0 +. alpha_ p0 *. s_cand in
  let '(u2, g2) := uniform_real01 g1 in
  mkCandidate lambda_bar cand_time lambda_cand u2 (with_rng p0 g2).

(** The rejecting branch. *)
Definition reject (c : Candidate) : HawkesUnivariateProcess :=
  decay_to (before_test c) (cand_time c).

(** The accepting branch. *)
Definition accept (c : Candidate) : Event F * HawkesUnivariateProcess :=
  let p1 := decay_to (before_test c) (cand_time c) in
  let p2 := with_state p1 (last_time_ p1) (s_ p1 +. n1) in
  let '(sb, g1) := bernoulli side_prob (rng_ p2) in
  let '(tb, g2) := bernoulli type_prob g1 in
  let '(q, g3) := uniform_int (qty_min_ p2) (qty_max_ p2) g2 in
  let '(d, g4) := uniform_int (qty_min_ p2) (qty_max_ p2) g3 in
  let sd := if sb then Bid else Ask in
  let ty := if tb then Add else Cancel in
  (mkEvent (cand_time c) ty sd
     (offset_price (price_center_ p2) (tick_size_ p2) sd (tick_offset d)) q,
   with_rng p2 g4).

(** The [while (true)] of [next]; one unit of fuel per turn. *)
Fixpoint thinning (fuel : nat) (p : HawkesUnivariateProcess)
    (current_time : F) : result (Event F * HawkesUnivariateProcess) :=
  match fuel with
  | O => Raise NoAcceptance
  | S fuel' =>
      let c := propose p current_time in
      if nle (u2 c) (lambda_cand c /. lambda_bar c)
      then Ok (accept c)
      else thinning fuel' (reject c) (cand_time c)
  end.

(** [HawkesUnivariateProcess::next] *)
Definition next (fuel : nat) (p : HawkesUnivariateProcess) (now : F)
  : result (Event F * HawkesUnivariateProcess) :=
  thinning fuel (decay_to p now) now.

End Processes.

Arguments PoissonProcess : clear implicits.
Arguments HawkesUnivariateProcess : clear implicits.
Arguments Candidate : clear implicits.

End Simple.

Module SimpleProps.

Import RealModel.

#[export] Instance R_from_int : FromInt R := {| nof_int := IZR |}.

(** The arguments the univariate constructor accepts, on binary64. *)
Definition accepted_arguments (mu alpha beta : double) : bool :=
  fgt mu zero && negb (flt alpha zero) && fgt beta zero.

(** The univariate state the intensity statements are about: positive
    baseline and decay, no negative excitation. *)
Definition sound {G : Type} (p : Simple.HawkesUnivariateProcess R G) : Prop :=
  (0 < Simple.mu_ p)%R /\ (0 <= Simple.alpha_ p)%R /\
  (0 < Simple.beta_ p)%R /\ (0 <= Simple.s_ p)%R.

(** The draws of [std::exponential_distribution] are not negative. *)
Definition gaps_not_negative {G : Type} (d : Dists R G) : Prop :=
  forall lambda g, (0 <= fst (exponential lambda g))%R.

(** The event of a simple process: an add or a cancel, priced one to
    five ticks from the centre on its own side. *)
Definition simple_event {F : Type} {num : Num F} {conv : FromInt F}
    (price_center tick_size : F) (e : Event F) : Prop :=
  type e <> Market /\
  exists off, 1 <= off <= 5 /\
    price e = Simple.offset_price price_center tick_size (side e) off.

End SimpleProps.

(* ================================================================== *)
(** ** Further predicates on books *)
(* ================================================================== *)

Module BookProps.

Import Book Props.

(** A double whose sign bit is clear and which is not NaN: [+0], a
    positive finite value or [+inf]. *)
Definition sign_clear (x : double) : bool :=
  match x with
  | S754_zero false | S754_infinity false | S754_finite false _ _ => true
  | _ => false
  end.

(** The cancel that takes back what the add [e] rested. *)
Definition cancel_of (e : Event double) : Event double :=
  mkEvent (t e) Cancel (side e) (price e) (quantity e).

(** A market order of [q] on side [sd] at time [now]. *)
Definition market (now : double) (sd : Side) (q : Z) : Event double :=
  mkEvent now Market sd zero q.

End BookProps.

(* ================================================================== *)
(** ** Further predicates on the engine *)
(* ================================================================== *)

Module EngineProps.

Import Props RealModel.

Section Generic.

Context {F G : Type} {num : Num F}.

(** What the constructor asks of its arguments. *)
Definition valid_arguments (mu : list F) (alpha beta : list (list F)) : Prop :=
  length mu = 6%nat /\ length alpha = 6%nat /\ length beta = 6%nat /\
  Forall (fun row => length row = 6%nat) alpha /\
  Forall (fun row => length row = 6%nat) beta /\
  Forall (fun m => nfinite m = true /\ nle m n0 = false) mu.

(** The fields that no member function writes after construction. *)
Definition same_parameters (p p' : Hawkes.HawkesMultivariateProcess F G)
  : Prop :=
  Hawkes.dim_ p' = Hawkes.dim_ p /\
  Hawkes.mu_ p' = Hawkes.mu_ p /\
  Hawkes.alpha_ p' = Hawkes.alpha_ p /\
  Hawkes.beta_ p' = Hawkes.beta_ p /\
  Hawkes.qty_min_ p' = Hawkes.qty_min_ p /\
  Hawkes.qty_max_ p' = Hawkes.qty_max_ p.

(** [std::uniform_int_distribution<int>(lo, hi)] returns values in
    [lo, hi]. *)
Definition int_draws_in_range (rng : Rng F G) : Prop :=
  forall lo hi g, lo <= hi -> lo <= fst (uniform_int lo hi g) <= hi.

End Generic.

(** The sum of the first [k] weighted intensities. *)
Definition cumulative {G : Type} (p : Hawkes.HawkesMultivariateProcess R G)
    (k : nat) : R :=
  fold_left (fun sum i => (sum + term p i)%R) (seq 0 k) 0%R.

End EngineProps.

(* ================================================================== *)
(** ** Further predicates on the simulator loop *)
(* ================================================================== *)

Module SimProps.

Import Book Props Sim.

(** The prices, snapped to the simulator's tick, at which the safety net
    injects its bid and its ask. *)
Definition safety_bid : double :=
  round_to_tick (create tick) (fsub price_center tick).

Definition safety_ask : double :=
  round_to_tick (create tick) (fadd price_center tick).

(** A weight as [compute_weights] hands it to the engine. *)
Definition weight_in_range (w : double) : bool :=
  isfinite w && fle (lit 5 2) w && fle w (of_int 50).

(** A logged row whose best bid is below its best ask whenever it has
    both, and whose mid and spread are present exactly when it has both. *)
Definition row_ok (ob : Observation) : Prop :=
  match best_bid_price (obs_top ob), best_ask_price (obs_top ob) with
  | Some pb, Some pa =>
      flt pb pa = true /\
      mid (obs_metrics ob) = Some (fmul (lit 5 1) (fadd pb pa)) /\
      spread (obs_metrics ob) = Some (fsub pa pb)
  | _, _ => obs_metrics ob = mkMetrics None None None
  end.

End SimProps.

(* ================================================================== *)
(** ** Further predicates on the Python entry point *)
(* ================================================================== *)

Module BindingsProps.

(** A centre or a tick that [run_simulation] cannot seed a book with:
    a centre that is not finite, a tick that is not finite, or a tick
    of zero. *)
Definition degenerate (price_center tick_size : double) : bool :=
  negb (isfinite price_center) || negb (isfinite tick_size)
  || feq tick_size zero.

(** A finite double other than zero. *)
Definition finite_nonzero (c : double) : bool :=
  match c with S754_finite _ _ _ => true | _ => false end.

(** A best bid and a best ask as a row of the result holds them: NaN
    stands for an empty side, and two prices are in order. *)
Definition quotes_ok (pb pa : double) : bool :=
  isnan pb || isnan pa || flt pb pa.

(** Every column has [n] entries, and the quotes of every row are in
    order. *)
Definition columns_ok (c : Bindings.Columns) (n : nat) : Prop :=
  length (Bindings.times c) = n /\
  length (Bindings.event_types c) = n /\
  length (Bindings.sides c) = n /\
  length (Bindings.quantities c) = n /\
  length (Bindings.prices c) = n /\
  length (Bindings.best_bids c) = n /\
  length (Bindings.best_asks c) = n /\
  length (Bindings.mids c) = n /\
  length (Bindings.spreads c) = n /\
  Forall2 (fun pb pa => quotes_ok pb pa = true)
    (Bindings.best_bids c) (Bindings.best_asks c).

End BindingsProps.

(* ================================================================== *)
(** ** Further concrete inputs *)
(* ================================================================== *)

Module Cases.

Import Book.

(** The book of [Samples.three_asks]: a bid of 10 at 99.9 and asks of 10,
    15 and 20 at 100.1, 100.2 and 100.3. *)
Definition small_book : OrderBook :=
  apply_all (create Samples.tick01) Samples.three_asks.

(** An add that joins the resting bid, and one that opens a level. *)
Definition joining_bid : Event double := Samples.ev Add Bid (lit 999 1) 5.
Definition new_bid : Event double := Samples.ev Add Bid (lit 998 1) 7.

(** The engine as [main] constructs it, on the replaying generator. *)
Definition main_process : Hawkes.HawkesMultivariateProcess double (list Z) :=
  Hawkes.mkProcess 6 Main.main_mu Main.main_alpha Main.main_beta
    (repeat zero 6) Main.main_mu (repeat (of_int 1) 6) zero [] 5 50.

(** Unit baselines and decays with every excitation at -2: arguments the
    constructor accepts. *)
Definition inhibiting_alpha : list (list double) :=
  repeat (repeat (of_int (-2)) 6) 6.

Definition inhibited_start : Hawkes.HawkesMultivariateProcess double (list Z) :=
  Hawkes.mkProcess 6 (repeat (of_int 1) 6) inhibiting_alpha
    (repeat (repeat (of_int 1) 6) 6)
    (repeat zero 6) (repeat (of_int 1) 6) (repeat (of_int 1) 6) zero [] 5 50.

End Cases.

(* ================================================================== *)
(** ** Concrete inputs for the simple processes and the Python entry *)
(* ================================================================== *)

Module SimpleCases.

Import RealModel SimpleProps.

(** A generator that replays integer draws, each brought into the range
    asked for; its real draws are all [u]. *)
Definition clamped (u : double) : Rng double (list Z) := {|
  mt19937 := fun _ => [];
  uniform_real01 := fun g => (u, g);
  uniform_int := fun lo hi g =>
    match g with
    | [] => (lo, [])
    | x :: r => (Z.max lo (Z.min hi x), r)
    end
|}.

(** Coins that always come up heads and a gap of one time unit. *)
Definition heads : Dists double (list Z) := {|
  bernoulli := fun _ g => (true, g);
  exponential := fun _ g => (of_int 1, g)
|}.

Definition real_heads : Dists R unit := {|
  bernoulli := fun _ g => (true, g);
  exponential := fun _ g => (1%R, g)
|}.

Definition poisson_sample : Simple.PoissonProcess double (list Z) :=
  Simple.mkPoisson [7; 13] (of_int 2) 5 50 (of_int 100) (lit 1 1).

Definition univariate_sample : Simple.HawkesUnivariateProcess double (list Z) :=
  Simple.mkUnivariate (of_int 1) (lit 5 1) (of_int 1) zero zero [7; 13]
    5 50 (of_int 100) (lit 1 1).

Definition real_univariate : Simple.HawkesUnivariateProcess R unit :=
  Simple.mkUnivariate 1%R 0%R 1%R 0%R 0%R tt 5 50 100%R (1 / 10)%R.

End SimpleCases.

(* ================================================================== *)
(** * Facts about binary64 comparison *)
(* ================================================================== *)

Module F64Facts.

Ltac cases_compare :=
  repeat match goal with
    | H : context [Z.compare ?a ?b] |- _ =>
        destruct (Z.compare_spec a b); try lia; try discriminate
    | |- context [Z.compare ?a ?b] =>
        destruct (Z.compare_spec a b); try lia; try discriminate
    | H : context [Pos.compare ?a ?b] |- _ =>
        destruct (Pos.compare_spec a b); try lia; try discriminate
    | |- context [Pos.compare ?a ?b] =>
        destruct (Pos.compare_spec a b); try lia; try discriminate
    end.

Ltac by_float_cases :=
  simpl in *;
  change (Pos.compare_cont Eq) with Pos.compare in *;
  try discriminate; try reflexivity; try congruence;
  cases_compare; simpl in *; subst;
  try discriminate; try reflexivity; try congruence; try lia.

Lemma compare_none (x y : double) :
  SFcompare x y = None <-> isnan x = true \/ isnan y = true.
Proof.
  destruct x as [[]|[]| |[] ? ?], y as [[]|[]| |[] ? ?]; simpl;
    split; intros H; try discriminate; try reflexivity; auto;
    destruct H; discriminate.
Qed.

Lemma compare_swap (x y : double) :
  SFcompare y x = option_map CompOpp (SFcompare x y).
Proof.
  destruct x as [[]|[]| |[] m1 e1], y as [[]|[]| |[] m2 e2]; by_float_cases.
Qed.

Lemma compare_trans (x y z : double) (c : comparison) :
  SFcompare x y = Some c -> SFcompare y z = Some c -> SFcompare x z = Some c.
Proof.
  destruct c;
    destruct x as [[]|[]| |[] m1 e1], y as [[]|[]| |[] m2 e2],
             z as [[]|[]| |[] m3 e3];
    intros H1 H2; by_float_cases.
Qed.

Lemma compare_eq_l (x y z : double) (c : comparison) :
  SFcompare x y = Some Eq -> SFcompare y z = Some c -> SFcompare x z = Some c.
Proof.
  destruct c;
    destruct x as [[]|[]| |[] m1 e1], y as [[]|[]| |[] m2 e2],
             z as [[]|[]| |[] m3 e3];
    intros H1 H2; by_float_cases.
Qed.

Lemma compare_eq_r (x y z : double) (c : comparison) :
  SFcompare x y = Some c -> SFcompare y z = Some Eq -> SFcompare x z = Some c.
Proof.
  destruct c;
    destruct x as [[]|[]| |[] m1 e1], y as [[]|[]| |[] m2 e2],
             z as [[]|[]| |[] m3 e3];
    intros H1 H2; by_float_cases.
Qed.

End F64Facts.

Import F64Facts Book Props.

(** *** The order on comparable doubles *)

Lemma flt_spec (x y : double) : flt x y = true <-> SFcompare x y = Some Lt.
Proof.
  unfold flt, SFltb. destruct (SFcompare x y) as [[]|]; split; congruence.
Qed.

Lemma fle_spec (x y : double) :
  fle x y = true <-> SFcompare x y = Some Lt \/ SFcompare x y = Some Eq.
Proof.
  unfold fle, SFleb. destruct (SFcompare x y) as [[]|]; split; intros H;
    try discriminate; auto; destruct H; congruence.
Qed.

Lemma compare_some (x y : double) :
  isnan x = false -> isnan y = false -> exists c, SFcompare x y = Some c.
Proof.
  intros Hx Hy. destruct (SFcompare x y) as [c|] eqn:E; [eauto|].
  apply compare_none in E. destruct E; congruence.
Qed.

Lemma flt_not_nan (x y : double) :
  flt x y = true -> isnan x = false /\ isnan y = false.
Proof.
  intros H. apply flt_spec in H.
  destruct x as [[]|[]| |[] ? ?], y as [[]|[]| |[] ? ?]; simpl in *;
    try discriminate; auto.
Qed.

Lemma flt_irrefl (x : double) : flt x x = false.
Proof.
  destruct (flt x x) eqn:E; [|reflexivity].
  apply flt_spec in E. pose proof (compare_swap x x) as S.
  rewrite E in S. discriminate.
Qed.

Lemma flt_trans (x y z : double) :
  flt x y = true -> flt y z = true -> flt x z = true.
Proof.
  rewrite !flt_spec. apply compare_trans.
Qed.

Lemma flt_asym (x y : double) : flt x y = true -> flt y x = false.
Proof.
  intros H. destruct (flt y x) eqn:E; [|reflexivity].
  pose proof (flt_trans _ _ _ H E) as C. rewrite flt_irrefl in C. discriminate.
Qed.

(** For comparable operands [!(x <= y)] is [y < x]. *)
Lemma fle_false_flt (x y : double) :
  isnan x = false -> isnan y = false -> fle x y = false -> flt y x = true.
Proof.
  intros Hx Hy H. destruct (compare_some x y Hx Hy) as [c E].
  apply flt_spec. rewrite compare_swap, E.
  destruct c; simpl; try reflexivity;
    (assert (fle x y = true) by (apply fle_spec; auto); congruence).
Qed.

Lemma flt_false_fle (x y : double) :
  isnan x = false -> isnan y = false -> flt x y = false -> fle y x = true.
Proof.
  intros Hx Hy H. destruct (compare_some x y Hx Hy) as [c E].
  apply fle_spec. rewrite compare_swap, E.
  destruct c; simpl; auto.
  assert (flt x y = true) by (apply flt_spec; auto). congruence.
Qed.

Lemma fle_flt_trans (x y z : double) :
  fle x y = true -> flt y z = true -> flt x z = true.
Proof.
  rewrite fle_spec, !flt_spec. intros [H|H] Hyz.
  - eapply compare_trans; eauto.
  - eapply compare_eq_l; eauto.
Qed.

Lemma flt_fle_trans (x y z : double) :
  flt x y = true -> fle y z = true -> flt x z = true.
Proof.
  rewrite fle_spec, !flt_spec. intros Hxy [H|H].
  - eapply compare_trans; eauto.
  - eapply compare_eq_r; eauto.
Qed.

Lemma equiv_compare (x y : double) :
  isnan x = false -> isnan y = false -> equiv x y -> SFcompare x y = Some Eq.
Proof.
  intros Hx Hy [H1 H2]. destruct (compare_some x y Hx Hy) as [c E].
  destruct c; auto.
  - apply flt_spec in E. congruence.
  - assert (flt y x = true) by (apply flt_spec; rewrite compare_swap, E; auto).
    congruence.
Qed.

Lemma equiv_flt_l (x y z : double) :
  isnan x = false -> isnan y = false -> equiv x y ->
  flt x z = flt y z.
Proof.
  intros Hx Hy He. pose proof (equiv_compare _ _ Hx Hy He) as E.
  assert (E' : SFcompare y x = Some Eq) by (rewrite compare_swap, E; auto).
  destruct (flt x z) eqn:A, (flt y z) eqn:B; auto.
  - apply flt_spec in A. pose proof (compare_eq_l _ _ _ _ E' A) as C.
    apply flt_spec in C. congruence.
  - apply flt_spec in B. pose proof (compare_eq_l _ _ _ _ E B) as C.
    apply flt_spec in C. congruence.
Qed.

Lemma equiv_flt_r (x y z : double) :
  isnan x = false -> isnan y = false -> equiv x y ->
  flt z x = flt z y.
Proof.
  intros Hx Hy He. pose proof (equiv_compare _ _ Hx Hy He) as E.
  assert (E' : SFcompare y x = Some Eq) by (rewrite compare_swap, E; auto).
  destruct (flt z x) eqn:A, (flt z y) eqn:B; auto.
  - apply flt_spec in A. pose proof (compare_eq_r _ _ _ _ A E) as C.
    apply flt_spec in C. congruence.
  - apply flt_spec in B. pose proof (compare_eq_r _ _ _ _ B E') as C.
    apply flt_spec in C. congruence.
Qed.

(** *** Rounding never invents a NaN, and keeps positive values positive *)

Lemma shr_1_m (mrs : shr_record) :
  0 <= shr_m mrs -> shr_m (shr_1 mrs) = shr_m mrs / 2.
Proof.
  destruct mrs as [m r s]. cbn [shr_m]. intros Hm.
  rewrite <- Z.div2_div.
  destruct m as [|[p|p|]|p]; try reflexivity. lia.
Qed.

Lemma iter_shr_1_m (p : positive) : forall mrs,
  0 <= shr_m mrs ->
  shr_m (SpecFloat.iter_pos shr_1 p mrs) = shr_m mrs / 2 ^ Z.pos p.
Proof.
  induction p as [p IH|p IH|]; intros mrs Hm; simpl SpecFloat.iter_pos.
  - assert (H1 : 0 <= shr_m (shr_1 mrs)).
    { rewrite shr_1_m by assumption. apply Z.div_pos; lia. }
    assert (H2 : 0 <= shr_m (SpecFloat.iter_pos shr_1 p (shr_1 mrs))).
    { rewrite IH by assumption. apply Z.div_pos; [assumption|].
      apply Z.pow_pos_nonneg; lia. }
    rewrite IH, IH, shr_1_m by assumption.
    rewrite !Z.div_div by (try apply Z.pow_pos_nonneg; lia).
    f_equal. replace (Z.pos p~1) with (1 + Z.pos p + Z.pos p) by lia.
    rewrite Z.pow_add_r, Z.pow_add_r, Z.pow_1_r by lia. lia.
  - assert (H2 : 0 <= shr_m (SpecFloat.iter_pos shr_1 p mrs)).
    { rewrite IH by assumption. apply Z.div_pos; [assumption|].
      apply Z.pow_pos_nonneg; lia. }
    rewrite IH, IH by assumption.
    rewrite !Z.div_div by (try apply Z.pow_pos_nonneg; lia).
    f_equal. replace (Z.pos p~0) with (Z.pos p + Z.pos p) by lia.
    rewrite Z.pow_add_r by lia. lia.
  - rewrite shr_1_m by assumption. reflexivity.
Qed.

Lemma shr_m_of_loc (m : Z) (l : location) : shr_m (shr_record_of_loc m l) = m.
Proof. destruct l as [|[]]; reflexivity. Qed.

Lemma shr_nonneg (mrs : shr_record) (e n : Z) :
  0 <= shr_m mrs -> 0 <= shr_m (fst (shr mrs e n)).
Proof.
  intros Hm. destruct n as [|p|p]; simpl; try assumption.
  rewrite iter_shr_1_m by assumption.
  apply Z.div_pos; [assumption|]. apply Z.pow_pos_nonneg; lia.
Qed.

Lemma round_nearest_even_ge (m : Z) (l : location) :
  m <= round_nearest_even m l.
Proof.
  destruct l as [|[]]; simpl; try lia. destruct (Z.even m); lia.
Qed.

Lemma binary_round_aux_not_nan (s : bool) (mx ex : Z) (lx : location) :
  0 <= mx -> isnan (binary_round_aux prec emax s mx ex lx) = false.
Proof.
  intros Hm. unfold binary_round_aux, shr_fexp.
  destruct (shr (shr_record_of_loc mx lx) ex _) as [mrs1 e1] eqn:E1.
  assert (H1 : 0 <= shr_m mrs1).
  { change mrs1 with (fst (mrs1, e1)). rewrite <- E1.
    apply shr_nonneg. rewrite shr_m_of_loc. assumption. }
  destruct (shr (shr_record_of_loc (round_nearest_even _ _) _) e1 _)
    as [mrs2 e2] eqn:E2.
  assert (H2 : 0 <= shr_m mrs2).
  { change mrs2 with (fst (mrs2, e2)). rewrite <- E2.
    apply shr_nonneg. rewrite shr_m_of_loc.
    pose proof (round_nearest_even_ge (shr_m mrs1) (loc_of_shr_record mrs1)).
    lia. }
  destruct (shr_m mrs2) as [|p|p]; try reflexivity; try lia.
  destruct (Z.leb _ _); reflexivity.
Qed.

Lemma pow2_pred (d : Z) : 1 <= d -> 2 ^ d = 2 * 2 ^ (d - 1).
Proof.
  intros Hd. replace d with (Z.succ (d - 1)) at 1 by lia.
  apply Z.pow_succ_r. lia.
Qed.

Lemma digits2_pos_bounds (m : positive) :
  2 ^ (Z.pos (digits2_pos m) - 1) <= Z.pos m < 2 ^ Z.pos (digits2_pos m).
Proof.
  induction m as [m IH|m IH|]; simpl digits2_pos.
  - rewrite Pos2Z.inj_succ. change (Z.pos m~1) with (2 * Z.pos m + 1).
    replace (Z.succ (Z.pos (digits2_pos m)) - 1)
      with (Z.pos (digits2_pos m)) by lia.
    rewrite Z.pow_succ_r by lia.
    rewrite (pow2_pred (Z.pos (digits2_pos m))) in * by lia.
    generalize dependent (2 ^ (Z.pos (digits2_pos m) - 1)). intros; lia.
  - rewrite Pos2Z.inj_succ. change (Z.pos m~0) with (2 * Z.pos m).
    replace (Z.succ (Z.pos (digits2_pos m)) - 1)
      with (Z.pos (digits2_pos m)) by lia.
    rewrite Z.pow_succ_r by lia.
    rewrite (pow2_pred (Z.pos (digits2_pos m))) in * by lia.
    generalize dependent (2 ^ (Z.pos (digits2_pos m) - 1)). intros; lia.
  - simpl. lia.
Qed.

(** Shifting a positive mantissa down to the format keeps it positive when
    the exponent is not below [emin]. *)
Lemma shr_fexp_pos (m : positive) (e : Z) (l : location) :
  emin prec emax <= e ->
  1 <= shr_m (fst (shr_fexp prec emax (Z.pos m) e l)) /\
  emin prec emax <= snd (shr_fexp prec emax (Z.pos m) e l).
Proof.
  intros He. unfold shr_fexp, fexp. simpl Zdigits2.
  set (d := Z.pos (digits2_pos m)).
  set (n := Z.max (d + e - prec) (emin prec emax) - e).
  destruct n as [|p|p] eqn:En; simpl; rewrite ?shr_m_of_loc; try lia.
  rewrite iter_shr_1_m by (rewrite shr_m_of_loc; lia).
  rewrite shr_m_of_loc. split; [|lia].
  assert (Hp : Z.pos p <= d - 1) by (unfold prec in *; lia).
  pose proof (digits2_pos_bounds m) as [Hlo _]. fold d in Hlo.
  apply Z.div_le_lower_bound; [apply Z.pow_pos_nonneg; lia|].
  rewrite Z.mul_1_r. etransitivity; [|exact Hlo].
  apply Z.pow_le_mono_r; lia.
Qed.

Lemma binary_round_aux_pos (m : positive) (e : Z) (l : location) :
  emin prec emax <= e ->
  strictly_positive (binary_round_aux prec emax false (Z.pos m) e l).
Proof.
  intros He. unfold binary_round_aux.
  pose proof (shr_fexp_pos m e l He) as [H1 H1e].
  destruct (shr_fexp prec emax (Z.pos m) e l) as [mrs1 e1]. simpl in H1, H1e.
  pose proof (round_nearest_even_ge (shr_m mrs1) (loc_of_shr_record mrs1))
    as Hr.
  destruct (round_nearest_even (shr_m mrs1) (loc_of_shr_record mrs1))
    as [|m2|m2]; try lia.
  pose proof (shr_fexp_pos m2 e1 loc_Exact H1e) as [H2 H2e].
  destruct (shr_fexp prec emax (Z.pos m2) e1 loc_Exact) as [mrs2 e2].
  simpl in H2, H2e.
  destruct (shr_m mrs2) as [|m3|m3]; try lia.
  destruct (Z.leb e2 (emax - prec)); simpl; auto.
Qed.

Lemma binary_round_pos (m : positive) (e : Z) :
  emin prec emax <= e ->
  strictly_positive (binary_round prec emax false m e).
Proof.
  intros He. unfold binary_round, shl_align.
  destruct (fexp prec emax (Z.pos (digits2_pos m) + e) - e) eqn:E;
    try (apply binary_round_aux_pos; assumption).
  apply binary_round_aux_pos. unfold fexp. lia.
Qed.

Lemma of_int_pos (n : Z) : 1 <= n -> strictly_positive (of_int n).
Proof.
  intros Hn. destruct n as [|p|p]; try lia.
  unfold of_int. simpl. apply binary_round_pos. unfold emin, prec, emax. lia.
Qed.

Lemma fadd_pos (x y : double) :
  strictly_positive x -> strictly_positive y -> strictly_positive (fadd x y).
Proof.
  destruct x as [sx|[]| |[] mx ex], y as [sy|[]| |[] my ey]; simpl;
    try contradiction; auto.
  intros Hx Hy.
  destruct (shl_align mx ex (Z.min ex ey)) as [mx' ex'].
  destruct (shl_align my ey (Z.min ex ey)) as [my' ey'].
  simpl. apply binary_round_pos. lia.
Qed.

Lemma strictly_positive_gt_zero (x : double) :
  strictly_positive x -> fgt x zero = true.
Proof.
  destruct x as [sx|[]| |[] mx ex]; simpl; try contradiction; reflexivity.
Qed.

Lemma binary_round_not_nan (s : bool) (m : positive) (e : Z) :
  isnan (binary_round prec emax s m e) = false.
Proof.
  unfold binary_round. destruct (shl_align m e _) as [mz ez].
  apply binary_round_aux_not_nan. lia.
Qed.

Lemma fdiv_finite_not_nan (x y : double) :
  isfinite x = true -> isfinite y = true -> fgt y zero = true ->
  isnan (fdiv x y) = false.
Proof.
  destruct x as [sx|sx| |sx mx ex], y as [sy|sy| |[] my ey];
    simpl; try discriminate; try reflexivity.
  intros _ _ _. unfold SFdiv_core_binary.
  set (m' := match _ with Z.pos _ => _ | Z0 => _ | Z.neg _ => _ end).
  assert (Hm' : 0 <= m').
  { subst m'. destruct (ex - ey - _) as [|s|s]; try lia.
    apply Z.shiftl_nonneg. lia. }
  pose proof (Z.div_pos m' (Z.pos my) Hm' ltac:(lia)) as Hq.
  unfold Z.div in Hq. destruct (Z.div_eucl m' (Z.pos my)) as [q r].
  apply binary_round_aux_not_nan. exact Hq.
Qed.

Lemma round_not_nan (x : double) : isnan x = false -> isnan (round x) = false.
Proof.
  destruct x as [sx|sx| |sx mx ex]; simpl; auto.
  intros _. destruct (0 <=? ex); [reflexivity|].
  destruct (if _ <=? _ then _ else _); try reflexivity.
  apply binary_round_not_nan.
Qed.

Lemma fmul_finite_not_nan (x y : double) :
  isnan x = false -> isfinite y = true -> fgt y zero = true ->
  isnan (fmul x y) = false.
Proof.
  destruct x as [sx|sx| |sx mx ex], y as [sy|sy| |[] my ey];
    simpl; try discriminate; try reflexivity.
  intros _ _ _. apply binary_round_aux_not_nan. lia.
Qed.

(** A snapped price is never NaN. *)
Lemma round_to_tick_not_nan (b : OrderBook) (p : double) :
  tick_ok b = true -> isfinite p = true ->
  isnan (round_to_tick b p) = false.
Proof.
  unfold tick_ok, round_to_tick. intros Ht Hp.
  apply andb_true_iff in Ht as [Hf Hpos].
  apply fmul_finite_not_nan; try assumption.
  apply round_not_nan. apply fdiv_finite_not_nan; assumption.
Qed.

(** *** The side maps *)

Lemma ascending_from_keys (m : side_map) : forall lo,
  ascending_from lo m = true ->
  forall k, In k (keys m) -> flt lo k = true.
Proof.
  induction m as [|[k v] r IH]; simpl; intros lo H x Hx; [contradiction|].
  apply andb_true_iff in H as [H1 H2]. destruct Hx as [<-|Hx]; [assumption|].
  eapply flt_trans; [exact H1|]. eapply IH; eauto.
Qed.

Lemma ascending_from_weaken (m : side_map) (lo lo' : double) :
  flt lo' lo = true -> ascending_from lo m = true ->
  ascending_from lo' m = true.
Proof.
  destruct m as [|[k v] r]; simpl; auto.
  intros H H'. apply andb_true_iff in H' as [H1 H2].
  rewrite (flt_trans _ _ _ H H1), H2. reflexivity.
Qed.

Lemma ascending_from_ordered (m : side_map) (lo : double) :
  ascending_from lo m = true -> ordered m = true.
Proof.
  destruct m as [|[k v] r]; simpl; auto.
  intros H. apply andb_true_iff in H as [H1 H2].
  apply flt_not_nan in H1 as [_ ->]. assumption.
Qed.

Lemma ordered_tail (x : double * Z) (r : side_map) :
  ordered (x :: r) = true -> ordered r = true.
Proof.
  destruct x as [k v]. simpl. intros H. apply andb_true_iff in H as [_ H].
  eapply ascending_from_ordered; eauto.
Qed.

Lemma ordered_keys_not_nan (m : side_map) :
  ordered m = true -> forall k, In k (keys m) -> isnan k = false.
Proof.
  destruct m as [|[k v] r]; simpl; [contradiction|].
  intros H x [<-|Hx].
  - apply andb_true_iff in H as [H _]. now apply negb_true_iff in H.
  - apply andb_true_iff in H as [_ H].
    eapply flt_not_nan, ascending_from_keys; eauto.
Qed.

(** [ordered] looks at the keys only. *)
Lemma ascending_from_same_keys (m m' : side_map) : forall lo,
  keys m = keys m' -> ascending_from lo m = ascending_from lo m'.
Proof.
  revert m'. induction m as [|[k v] r IH]; intros [|[k' v'] r'] lo H;
    simpl in *; try discriminate; auto.
  injection H as -> H. f_equal. apply IH. assumption.
Qed.

Lemma ordered_same_keys (m m' : side_map) :
  keys m = keys m' -> ordered m = ordered m'.
Proof.
  destruct m as [|[k v] r], m' as [|[k' v'] r']; simpl; intros H;
    try discriminate; auto.
  injection H as -> H. f_equal. apply ascending_from_same_keys. assumption.
Qed.

Lemma ordered_app_r (a b : side_map) :
  ordered (a ++ b) = true -> ordered b = true.
Proof.
  induction a as [|x a IH]; simpl; auto.
  intros H. apply IH. eapply ordered_tail. exact H.
Qed.

Lemma ascending_from_app_l (a b : side_map) : forall lo,
  ascending_from lo (a ++ b) = true -> ascending_from lo a = true.
Proof.
  induction a as [|[k v] a IH]; simpl; auto.
  intros lo H. apply andb_true_iff in H as [H1 H2].
  rewrite H1. simpl. eapply IH; eauto.
Qed.

Lemma ordered_app_l (a b : side_map) :
  ordered (a ++ b) = true -> ordered a = true.
Proof.
  destruct a as [|[k v] a]; simpl; auto.
  intros H. apply andb_true_iff in H as [H1 H2].
  rewrite H1. simpl. eapply ascending_from_app_l; eauto.
Qed.

(** The least key is at the front, the greatest at the back. *)
Lemma front_in (m : side_map) (k : double) (v : Z) :
  front m = Some (k, v) -> In (k, v) m.
Proof.
  destruct m; simpl; intros H; [discriminate|]. injection H as ->. auto.
Qed.

Lemma back_in (m : side_map) (k : double) (v : Z) :
  back m = Some (k, v) -> In (k, v) m.
Proof.
  induction m as [|x r IH]; simpl; [discriminate|].
  destruct r as [|y r']; intros H.
  - injection H as ->. auto.
  - right. apply IH. exact H.
Qed.

Lemma in_keys (m : side_map) (k : double) (v : Z) :
  In (k, v) m -> In k (keys m).
Proof. intros H. apply (in_map fst) in H. exact H. Qed.

Lemma front_least (m : side_map) (k : double) (v : Z) :
  ordered m = true -> front m = Some (k, v) ->
  forall k', In k' (keys m) -> k' = k \/ flt k k' = true.
Proof.
  destruct m as [|[k0 v0] r]; simpl; [discriminate|].
  intros H E k' [<-|Hk']; injection E as <- <-; auto.
  right. apply andb_true_iff in H as [_ H].
  eapply ascending_from_keys; eauto.
Qed.

Lemma back_greatest (m : side_map) : forall k v,
  ordered m = true -> back m = Some (k, v) ->
  forall k', In k' (keys m) -> k' = k \/ flt k' k = true.
Proof.
  induction m as [|[k0 v0] r IH]; intros k v H E k' Hk'; [discriminate|].
  destruct r as [|y r'].
  - simpl in *. injection E as <- <-. destruct Hk' as [<-|[]]. auto.
  - change (back ((k0, v0) :: y :: r')) with (back (y :: r')) in E.
    destruct Hk' as [<-|Hk'].
    + right. cbn [ordered] in H. apply andb_true_iff in H as [_ H].
      apply (ascending_from_keys (y :: r') _ H). apply (in_keys _ _ v).
      apply back_in. exact E.
    + eapply IH; eauto. eapply ordered_tail; eauto.
Qed.

Ltac split_flt :=
  repeat match goal with
    | |- context [if flt ?a ?b then _ else _] => destruct (flt a b) eqn:?
    | H : context [if flt ?a ?b then _ else _] |- _ => destruct (flt a b) eqn:?
    end.

Lemma find_in (m : side_map) (p : double) (v : Z) :
  find m p = Some v -> exists k, In (k, v) m /\ equiv k p.
Proof.
  induction m as [|[k w] r IH]; simpl; [discriminate|].
  split_flt; intros H; try discriminate.
  - destruct (IH H) as (k' & Hin & He). eauto.
  - injection H as <-. exists k. split; [auto|split; assumption].
Qed.

Lemma keys_insert (m : side_map) (p : double) (v : Z) (k : double) :
  In k (keys (insert m p v)) -> k = p \/ In k (keys m).
Proof.
  induction m as [|[k0 w] r IH]; simpl.
  - intros [<-|[]]. auto.
  - split_flt; simpl; intros H; intuition (subst; auto).
Qed.

Lemma keys_insert_present (m : side_map) (p : double) (v v' : Z) :
  find m p = Some v -> keys (insert m p v') = keys m.
Proof.
  induction m as [|[k0 w] r IH]; simpl; [discriminate|].
  split_flt; simpl; intros H; try discriminate; auto.
  f_equal. auto.
Qed.

Lemma keys_erase (m : side_map) (p k : double) :
  In k (keys (erase m p)) -> In k (keys m).
Proof.
  induction m as [|[k0 w] r IH]; simpl; auto.
  split_flt; simpl; auto. intros [<-|H]; auto.
Qed.

Lemma ascending_from_insert (m : side_map) (p : double) (v : Z) : forall lo,
  ascending_from lo m = true -> flt lo p = true ->
  ascending_from lo (insert m p v) = true.
Proof.
  induction m as [|[k w] r IH]; simpl; intros lo H Hp.
  - rewrite Hp. reflexivity.
  - apply andb_true_iff in H as [H1 H2].
    destruct (flt k p) eqn:E1; [|destruct (flt p k) eqn:E2]; simpl.
    + rewrite H1, IH; auto.
    + rewrite Hp, E2, H2. reflexivity.
    + rewrite H1, H2. reflexivity.
Qed.

Lemma ordered_insert (m : side_map) (p : double) (v : Z) :
  ordered m = true -> isnan p = false -> ordered (insert m p v) = true.
Proof.
  destruct m as [|[k w] r]; simpl; intros H Hp.
  - rewrite Hp. reflexivity.
  - apply andb_true_iff in H as [H1 H2].
    destruct (flt k p) eqn:E1; [|destruct (flt p k) eqn:E2]; simpl.
    + rewrite H1, ascending_from_insert; auto.
    + rewrite Hp, E2, H2. reflexivity.
    + rewrite H1, H2. reflexivity.
Qed.

Lemma ascending_from_erase (m : side_map) (p : double) : forall lo,
  ascending_from lo m = true -> ascending_from lo (erase m p) = true.
Proof.
  induction m as [|[k w] r IH]; simpl; intros lo H; auto.
  apply andb_true_iff in H as [H1 H2].
  destruct (flt k p) eqn:E1; [|destruct (flt p k) eqn:E2]; simpl.
  - rewrite H1, IH; auto.
  - rewrite H1, H2. reflexivity.
  - eapply ascending_from_weaken; eauto.
Qed.

Lemma ordered_erase (m : side_map) (p : double) :
  ordered m = true -> ordered (erase m p) = true.
Proof.
  destruct m as [|[k w] r]; simpl; intros H; auto.
  apply andb_true_iff in H as [H1 H2].
  destruct (flt k p) eqn:E1; [|destruct (flt p k) eqn:E2]; simpl.
  - rewrite H1, ascending_from_erase; auto.
  - rewrite H1, H2. reflexivity.
  - eapply ascending_from_ordered; eauto.
Qed.

Lemma levels_ok_insert (m : side_map) (p : double) (v : Z) :
  levels_ok m = true -> level_ok v = true -> levels_ok (insert m p v) = true.
Proof.
  induction m as [|[k w] r IH]; simpl; intros H Hv.
  - rewrite Hv. reflexivity.
  - apply andb_true_iff in H as [H1 H2].
    split_flt; simpl; rewrite ?H1, ?H2, ?Hv, ?IH; auto.
Qed.

Lemma levels_ok_erase (m : side_map) (p : double) :
  levels_ok m = true -> levels_ok (erase m p) = true.
Proof.
  induction m as [|[k w] r IH]; simpl; intros H; auto.
  apply andb_true_iff in H as [H1 H2].
  split_flt; simpl; rewrite ?H1, ?H2, ?IH; auto.
Qed.

Lemma levels_ok_in (m : side_map) (k : double) (v : Z) :
  levels_ok m = true -> In (k, v) m -> level_ok v = true.
Proof.
  unfold levels_ok. rewrite forallb_forall. intros H Hin. apply (H _ Hin).
Qed.

(** Lookup after a store. *)
Lemma find_insert_same (m : side_map) (p : double) (v : Z) :
  find (insert m p v) p = Some v.
Proof.
  induction m as [|[k w] r IH]; simpl.
  - rewrite flt_irrefl. reflexivity.
  - destruct (flt k p) eqn:E1; [|destruct (flt p k) eqn:E2]; simpl.
    + rewrite E1. exact IH.
    + rewrite flt_irrefl. reflexivity.
    + rewrite E1, E2. reflexivity.
Qed.

Lemma find_insert_other (m : side_map) (p k : double) (v : Z) :
  ordered m = true -> isnan p = false -> isnan k = false ->
  ~ equiv k p ->
  find (insert m p v) k = find m k.
Proof.
  intros Ho Hp Hk Hne.
  assert (Hcmp : flt k p = true \/ flt p k = true).
  { destruct (flt k p) eqn:A, (flt p k) eqn:B; auto.
    exfalso. apply Hne. split; assumption. }
  clear Hne. induction m as [|[k0 w] r IH]; simpl.
  - destruct Hcmp as [C|C]; rewrite C; [rewrite (flt_asym _ _ C)|]; reflexivity.
  - assert (Hk0 : isnan k0 = false).
    { apply (ordered_keys_not_nan _ Ho). simpl. auto. }
    pose proof (ordered_tail _ _ Ho) as Hr.
    destruct (flt k0 p) eqn:E1; [|destruct (flt p k0) eqn:E2]; simpl.
    + destruct (flt k0 k); auto.
    + destruct (flt p k) eqn:E3; [reflexivity|].
      destruct Hcmp as [C|C]; [|congruence]. rewrite C.
      pose proof (flt_trans _ _ _ C E2) as C'.
      rewrite (flt_asym _ _ C'), C'. reflexivity.
    + destruct (flt k0 k) eqn:E3; [reflexivity|].
      destruct (flt k k0) eqn:E4; [reflexivity|]. exfalso.
      assert (He : equiv k0 p) by (split; assumption).
      rewrite (equiv_flt_r k0 p k Hk0 Hp He) in E4.
      rewrite (equiv_flt_l k0 p k Hk0 Hp He) in E3.
      destruct Hcmp; congruence.
Qed.




(** *** Consumption *)

Lemma wrap_small (z : Z) :
  Int32.INT_MIN <= z <= Int32.INT_MAX -> Int32.wrap z = z.
Proof.
  unfold Int32.INT_MIN, Int32.INT_MAX, Int32.wrap. intros H.
  rewrite Z.mod_small; lia.
Qed.

Lemma level_ok_bounds (v : Z) :
  level_ok v = true <-> 1 <= v <= Int32.INT_MAX.
Proof.
  unfold level_ok. rewrite andb_true_iff, !Z.leb_le. reflexivity.
Qed.

Lemma depth_nonneg (m : side_map) : levels_ok m = true -> 0 <= depth m.
Proof.
  induction m as [|[k v] r IH]; simpl; intros H; [lia|].
  apply andb_true_iff in H as [H1 H2]. apply level_ok_bounds in H1.
  specialize (IH H2). lia.
Qed.

Lemma consumed_refl (m : side_map) : consumed_best_first m m.
Proof. exists [], m. split; auto. Qed.

Lemma consumed_skip (x : double * Z) (m m' : side_map) :
  consumed_best_first m m' -> consumed_best_first (x :: m) m'.
Proof.
  intros (gone & rest & -> & H). exists (x :: gone), rest. split; auto.
Qed.

Lemma consume_spec (m : side_map) : forall q,
  levels_ok m = true -> 0 <= q <= Int32.INT_MAX ->
  consumed_best_first m (consume_best_first m q) /\
  depth (consume_best_first m q) = depth m - Z.min q (depth m) /\
  levels_ok (consume_best_first m q) = true.
Proof.
  induction m as [|[p av] rest IH]; intros q Hok Hq.
  - simpl. destruct (q <=? 0); repeat split; try apply consumed_refl;
      simpl; lia.
  - pose proof (depth_nonneg _ Hok) as Hd.
    simpl in Hok. apply andb_true_iff in Hok as [Hav Hrest].
    pose proof (depth_nonneg _ Hrest) as Hdr.
    pose proof Hav as Hav'. apply level_ok_bounds in Hav'.
    cbn [consume_best_first]. simpl depth in *.
    destruct (q <=? 0) eqn:E0.
    + apply Z.leb_le in E0. repeat split; try apply consumed_refl.
      * simpl. lia.
      * simpl. rewrite Hav, Hrest. reflexivity.
    + apply Z.leb_gt in E0. unfold Int32.sub.
      destruct (q <? av) eqn:E1.
      * apply Z.ltb_lt in E1.
        rewrite wrap_small by (unfold Int32.INT_MIN, Int32.INT_MAX in *; lia).
        repeat split.
        -- exists [], ((p, av) :: rest). split; [reflexivity|]. right.
           exists p, av, (av - q), rest. repeat split; lia.
        -- simpl. lia.
        -- simpl. rewrite Hrest, andb_true_r. apply level_ok_bounds. lia.
      * apply Z.ltb_ge in E1.
        rewrite wrap_small by (unfold Int32.INT_MIN, Int32.INT_MAX in *; lia).
        destruct (IH (q - av) Hrest ltac:(lia)) as (H1 & H2 & H3).
        repeat split; [apply consumed_skip; exact H1| |exact H3].
        rewrite H2. lia.
Qed.

Lemma consumed_keys (m m' : side_map) (k : double) :
  consumed_best_first m m' -> In k (keys m') -> In k (keys m).
Proof.
  intros (gone & rest & -> & [->|(p & v & v' & tl & -> & -> & _)]) H;
    unfold keys in *; rewrite map_app; apply in_or_app; right; auto.
Qed.

Lemma consumed_ordered (m m' : side_map) :
  consumed_best_first m m' -> ordered m = true -> ordered m' = true.
Proof.
  intros (gone & rest & -> & [->|(p & v & v' & tl & -> & -> & _)]) H;
    apply ordered_app_r in H; auto.
Qed.

Lemma keys_rev (m : side_map) : keys (rev m) = rev (keys m).
Proof. unfold keys. apply map_rev. Qed.

Lemma levels_ok_rev (m : side_map) : levels_ok (rev m) = levels_ok m.
Proof.
  unfold levels_ok. induction m as [|x r IH]; simpl; auto.
  rewrite forallb_app, IH. simpl. rewrite andb_true_r. apply andb_comm.
Qed.



(** The same walk from the back of an ascending map leaves an ascending
    map: a prefix, the last level possibly reduced. *)
Lemma consumed_ordered_back (m c : side_map) :
  consumed_best_first (rev m) c -> ordered m = true -> ordered (rev c) = true.
Proof.
  intros (gone & rest & E & Hc) H.
  assert (Em : m = rev rest ++ rev gone).
  { rewrite <- rev_app_distr, <- E, rev_involutive. reflexivity. }
  rewrite Em in H. apply ordered_app_l in H.
  destruct Hc as [->|(p & v & v' & tl & -> & -> & _)]; [assumption|].
  rewrite <- H. apply ordered_same_keys.
  simpl. unfold keys. rewrite !map_app. reflexivity.
Qed.

Lemma consumed_keys_back (m c : side_map) (k : double) :
  consumed_best_first (rev m) c -> In k (keys (rev c)) -> In k (keys m).
Proof.
  intros Hc H. rewrite keys_rev in H. apply in_rev in H.
  apply (consumed_keys _ _ _ Hc) in H. rewrite keys_rev in H.
  apply in_rev in H. exact H.
Qed.

(** *** [apply], branch by branch *)

Lemma fge_nan_guard (px pa : double) :
  negb (isnan pa) && fge px pa = fge px pa.
Proof.
  destruct pa as [[]|[]| |[] ? ?]; simpl; auto.
Qed.

Lemma fle_nan_guard (px pb : double) :
  negb (isnan pb) && fle px pb = fle px pb.
Proof.
  destruct pb as [[]|[]| |[] ? ?]; simpl; auto.
  destruct px as [[]|[]| |[] ? ?]; reflexivity.
Qed.

(** What [apply] does, by the precondition check and the kind of event. *)
Lemma apply_eq (b : OrderBook) (e : Event double) :
  apply b e =
  if fails_precondition e then (false, b)
  else
    (true,
     match type e, side e with
     | Add, Bid =>
         if marketable b e
         then with_asks b (consume_best_ask (asks_ b) (quantity e))
         else with_bids b (add_level (bids_ b) (snapped b e) (quantity e))
     | Add, Ask =>
         if marketable b e
         then with_bids b (consume_best_bid (bids_ b) (quantity e))
         else with_asks b (add_level (asks_ b) (snapped b e) (quantity e))
     | Cancel, Bid =>
         with_bids b (remove_level_qty (bids_ b) (snapped b e) (quantity e))
     | Cancel, Ask =>
         with_asks b (remove_level_qty (asks_ b) (snapped b e) (quantity e))
     | Market, Bid =>
         with_asks b (consume_best_ask (asks_ b) (quantity e))
     | Market, Ask =>
         with_bids b (consume_best_bid (bids_ b) (quantity e))
     end).
Proof.
  unfold apply, fails_precondition, marketable, snapped.
  destruct (negb (isfinite (t e)) || (quantity e <=? 0)); simpl; [reflexivity|].
  destruct (type e), (side e); simpl; try reflexivity;
    destruct (negb (isfinite (price e)) || fle (price e) zero); simpl;
    try reflexivity.
  - destruct (front (asks_ b)) as [[pa qa]|]; simpl; [|reflexivity].
    rewrite fge_nan_guard. destruct (fge _ pa); reflexivity.
  - destruct (back (bids_ b)) as [[pb qb]|]; simpl; [|reflexivity].
    rewrite fle_nan_guard. destruct (fle _ pb); reflexivity.
Qed.

Lemma accepted_facts (e : Event double) :
  fails_precondition e = false ->
  isfinite (t e) = true /\ 0 < quantity e /\
  (type e <> Market -> isfinite (price e) = true /\ fle (price e) zero = false).
Proof.
  unfold fails_precondition. intros H.
  apply orb_false_iff in H as [H H3]. apply orb_false_iff in H as [H1 H2].
  apply negb_false_iff in H1. apply Z.leb_gt in H2.
  repeat split; auto; destruct (type e); try congruence;
    apply orb_false_iff in H3 as [H3 H4];
    try (apply negb_false_iff in H3); assumption.
Qed.

Lemma add_level_ok (m : side_map) (px : double) (q : Z) :
  ordered m = true -> levels_ok m = true -> isnan px = false ->
  1 <= q ->
  match find m px with Some v => v | None => 0 end + q <= Int32.INT_MAX ->
  ordered (add_level m px q) = true /\
  levels_ok (add_level m px q) = true /\
  forall k, In k (keys (add_level m px q)) -> k = px \/ In k (keys m).
Proof.
  intros Ho Hl Hp Hq Hfit. unfold add_level.
  destruct (q <=? 0) eqn:E; [apply Z.leb_le in E; lia|].
  assert (Hold : 0 <= match find m px with Some v => v | None => 0 end).
  { destruct (find m px) as [v|] eqn:F; [|lia].
    destruct (find_in _ _ _ F) as (k & Hin & _).
    apply (levels_ok_in _ _ _ Hl), level_ok_bounds in Hin. lia. }
  unfold Int32.add.
  rewrite wrap_small by (unfold Int32.INT_MIN, Int32.INT_MAX in *; lia).
  repeat split.
  - apply ordered_insert; assumption.
  - apply levels_ok_insert; [assumption|]. apply level_ok_bounds. lia.
  - intros k. apply keys_insert.
Qed.

Lemma remove_level_ok (m : side_map) (px : double) (q : Z) :
  ordered m = true -> levels_ok m = true -> isnan px = false ->
  1 <= q <= Int32.INT_MAX ->
  ordered (remove_level_qty m px q) = true /\
  levels_ok (remove_level_qty m px q) = true /\
  forall k, In k (keys (remove_level_qty m px q)) -> In k (keys m).
Proof.
  intros Ho Hl Hp Hq. unfold remove_level_qty.
  destruct (q <=? 0) eqn:E; [apply Z.leb_le in E; lia|].
  destruct (find m px) as [v|] eqn:F; [|auto].
  destruct (find_in _ _ _ F) as (k0 & Hin & _).
  apply (levels_ok_in _ _ _ Hl), level_ok_bounds in Hin.
  unfold Int32.sub.
  rewrite wrap_small by (unfold Int32.INT_MIN, Int32.INT_MAX in *; lia).
  destruct (v - q <=? 0) eqn:E1.
  - repeat split.
    + apply ordered_erase; assumption.
    + apply levels_ok_erase; assumption.
    + intros k. apply keys_erase.
  - apply Z.leb_gt in E1. repeat split.
    + apply ordered_insert; assumption.
    + apply levels_ok_insert; [assumption|]. apply level_ok_bounds. lia.
    + intros k. rewrite (keys_insert_present _ _ _ _ F). auto.
Qed.

Lemma consume_ask_ok (m : side_map) (q : Z) :
  ordered m = true -> levels_ok m = true -> 0 <= q <= Int32.INT_MAX ->
  ordered (consume_best_ask m q) = true /\
  levels_ok (consume_best_ask m q) = true /\
  forall k, In k (keys (consume_best_ask m q)) -> In k (keys m).
Proof.
  intros Ho Hl Hq. unfold consume_best_ask.
  destruct (consume_spec m q Hl Hq) as (Hc & _ & Hl').
  repeat split; auto.
  - eapply consumed_ordered; eauto.
  - intros k. apply consumed_keys. exact Hc.
Qed.

Lemma consume_bid_ok (m : side_map) (q : Z) :
  ordered m = true -> levels_ok m = true -> 0 <= q <= Int32.INT_MAX ->
  ordered (consume_best_bid m q) = true /\
  levels_ok (consume_best_bid m q) = true /\
  forall k, In k (keys (consume_best_bid m q)) -> In k (keys m).
Proof.
  intros Ho Hl Hq. unfold consume_best_bid.
  assert (Hl0 : levels_ok (rev m) = true) by (rewrite levels_ok_rev; exact Hl).
  destruct (consume_spec (rev m) q Hl0 Hq) as (Hc & _ & Hl').
  repeat split.
  - eapply consumed_ordered_back; eauto.
  - rewrite levels_ok_rev. exact Hl'.
  - intros k. apply consumed_keys_back. exact Hc.
Qed.

(** A passive order stays on its own side of the opposite best. *)
Lemma passive_bid_below (b : OrderBook) (e : Event double) :
  ordered (asks_ b) = true -> isnan (snapped b e) = false ->
  side e = Bid -> marketable b e = false ->
  forall ka, In ka (keys (asks_ b)) -> flt (snapped b e) ka = true.
Proof.
  unfold marketable. intros Ho Hp -> Hm ka Hka. simpl in Hm.
  destruct (front (asks_ b)) as [[pa qa]|] eqn:F; simpl in Hm.
  - assert (Hpa : isnan pa = false).
    { apply (ordered_keys_not_nan _ Ho). eapply in_keys, front_in; eauto. }
    pose proof (fle_false_flt _ _ Hpa Hp Hm) as Hlt.
    destruct (front_least _ _ _ Ho F ka Hka) as [->|H]; [assumption|].
    eapply flt_trans; eauto.
  - destruct (asks_ b); [contradiction|discriminate].
Qed.

Lemma passive_ask_above (b : OrderBook) (e : Event double) :
  ordered (bids_ b) = true -> isnan (snapped b e) = false ->
  side e = Ask -> marketable b e = false ->
  forall kb, In kb (keys (bids_ b)) -> flt kb (snapped b e) = true.
Proof.
  unfold marketable. intros Ho Hp -> Hm kb Hkb. simpl in Hm.
  destruct (back (bids_ b)) as [[pb qb]|] eqn:F; simpl in Hm.
  - assert (Hpb : isnan pb = false).
    { apply (ordered_keys_not_nan _ Ho). eapply in_keys, back_in; eauto. }
    pose proof (fle_false_flt _ _ Hp Hpb Hm) as Hlt.
    destruct (back_greatest _ _ _ Ho F kb Hkb) as [->|H]; [assumption|].
    eapply flt_trans; eauto.
  - destruct (bids_ b) as [|x r]; [contradiction|].
    exfalso. clear -F. revert x F. induction r as [|y r IH]; intros x F.
    + discriminate.
    + apply (IH y). exact F.
Qed.

(** *** The book invariant *)

Lemma create_wf (tick_size : double) : wf_book (create tick_size).
Proof.
  unfold wf_book, create, tick_ok. simpl.
  repeat split; try (intros kb ka []).
  destruct (negb (fgt tick_size zero) || negb (isfinite tick_size)) eqn:E.
  - reflexivity.
  - apply orb_false_iff in E as [E1 E2].
    apply negb_false_iff in E1, E2. rewrite E1, E2. reflexivity.
Qed.

Lemma fits_int_quantity (b : OrderBook) (e : Event double) :
  fits_int b e = true -> fails_precondition e = false ->
  1 <= quantity e <= Int32.INT_MAX.
Proof.
  unfold fits_int, is_int. intros H Ha.
  apply andb_true_iff in H as [H _]. apply andb_true_iff in H as [_ H].
  apply Z.leb_le in H. destruct (accepted_facts e Ha) as (_ & Hq & _). lia.
Qed.

Lemma fits_int_resting (b : OrderBook) (e : Event double) :
  fits_int b e = true -> fails_precondition e = false ->
  type e = Add -> marketable b e = false ->
  resting_qty b e + quantity e <= Int32.INT_MAX.
Proof.
  unfold fits_int, rests, is_add. intros H Ha Ht Hm.
  apply andb_true_iff in H as [_ H]. rewrite Ha, Ht, Hm in H. simpl in H.
  apply Z.leb_le in H. exact H.
Qed.

Lemma apply_wf (b : OrderBook) (e : Event double) :
  wf_book b -> fits_int b e = true -> wf_book (snd (apply b e)).
Proof.
  intros Hwf Hfit. pose proof Hwf as (Ht & Hob & Hoa & Hlb & Hla & Hsep).
  rewrite apply_eq. destruct (fails_precondition e) eqn:Ha; [exact Hwf|].
  pose proof (fits_int_quantity _ _ Hfit Ha) as Hq.
  destruct (accepted_facts e Ha) as (_ & _ & Hprice).
  cbn [snd]. unfold wf_book, separated.
  destruct (type e) eqn:Ety.
  - (* Add *)
    destruct (Hprice ltac:(congruence)) as [Hpf _].
    pose proof (round_to_tick_not_nan b (price e) Ht Hpf) as Hpx.
    fold (snapped b e) in Hpx.
    destruct (marketable b e) eqn:Em.
    + destruct (side e).
      * destruct (consume_ask_ok _ (quantity e) Hoa Hla ltac:(lia))
          as (H1 & H2 & H3).
        simpl. repeat split; auto.
      * destruct (consume_bid_ok _ (quantity e) Hob Hlb ltac:(lia))
          as (H1 & H2 & H3).
        simpl. repeat split; auto.
    + pose proof (fits_int_resting _ _ Hfit Ha Ety Em) as Hrest.
      unfold resting_qty in Hrest.
      destruct (side e) eqn:Es; simpl in Hrest.
      * destruct (add_level_ok (bids_ b) (snapped b e) (quantity e) Hob Hlb Hpx
                    ltac:(lia) Hrest)
          as (H1 & H2 & H3).
        simpl. repeat split; auto.
        intros kb ka Hkb Hka. destruct (H3 _ Hkb) as [->|Hin]; auto.
        eapply passive_bid_below; eauto.
      * destruct (add_level_ok (asks_ b) (snapped b e) (quantity e) Hoa Hla Hpx
                    ltac:(lia) Hrest)
          as (H1 & H2 & H3).
        simpl. repeat split; auto.
        intros kb ka Hkb Hka. destruct (H3 _ Hka) as [->|Hin]; auto.
        eapply passive_ask_above; eauto.
  - (* Cancel *)
    destruct (Hprice ltac:(congruence)) as [Hpf _].
    pose proof (round_to_tick_not_nan b (price e) Ht Hpf) as Hpx.
    fold (snapped b e) in Hpx.
    destruct (side e).
    + destruct (remove_level_ok _ _ _ Hob Hlb Hpx Hq) as (H1 & H2 & H3).
      simpl. repeat split; auto.
    + destruct (remove_level_ok _ _ _ Hoa Hla Hpx Hq) as (H1 & H2 & H3).
      simpl. repeat split; auto.
  - (* Market *)
    destruct (side e).
    + destruct (consume_ask_ok _ (quantity e) Hoa Hla ltac:(lia))
        as (H1 & H2 & H3).
      simpl. repeat split; auto.
    + destruct (consume_bid_ok _ (quantity e) Hob Hlb ltac:(lia))
        as (H1 & H2 & H3).
      simpl. repeat split; auto.
Qed.

Lemma apply_all_wf (es : list (Event double)) : forall b,
  wf_book b -> run_fits_int b es = true -> wf_book (apply_all b es).
Proof.
  induction es as [|e r IH]; intros b Hwf Hfit; simpl in *; [exact Hwf|].
  apply andb_true_iff in Hfit as [H1 H2].
  apply IH; [apply apply_wf; assumption|exact H2].
Qed.

Lemma wf_uncrossed (b : OrderBook) : wf_book b -> uncrossed b = true.
Proof.
  intros (_ & _ & _ & _ & _ & Hsep). unfold uncrossed, top. simpl.
  destruct (back (bids_ b)) as [[pb qb]|] eqn:B; simpl; [|reflexivity].
  destruct (front (asks_ b)) as [[pa qa]|] eqn:A; simpl; [|reflexivity].
  apply Hsep; eapply in_keys; [eapply back_in|eapply front_in]; eauto.
Qed.

(** *** The order of the keys holds whatever the quantities do *)

Lemma consume_keys_suffix (m : side_map) : forall q,
  exists gone, keys m = gone ++ keys (consume_best_first m q).
Proof.
  induction m as [|[p av] rest IH]; intros q; cbn [consume_best_first].
  - exists []. destruct (q <=? 0); reflexivity.
  - destruct (q <=? 0); [exists []; reflexivity|].
    destruct (q <? av); [exists []; reflexivity|].
    destruct (IH (Int32.sub q av)) as [gone Hg].
    exists (p :: gone). simpl. rewrite <- Hg. reflexivity.
Qed.

Lemma ordered_by_keys (m : side_map) :
  ordered m = ordered (map (fun k => (k, 0)) (keys m)).
Proof.
  apply ordered_same_keys. unfold keys. rewrite map_map. simpl.
  symmetry. apply map_id.
Qed.

Lemma ordered_keys_suffix (m m' : side_map) (gone : list double) :
  keys m = gone ++ keys m' -> ordered m = true -> ordered m' = true.
Proof.
  intros E H. rewrite ordered_by_keys, E, map_app in H.
  apply ordered_app_r in H. rewrite <- ordered_by_keys in H. exact H.
Qed.

Lemma ordered_keys_prefix (m m' : side_map) (gone : list double) :
  keys m = keys m' ++ gone -> ordered m = true -> ordered m' = true.
Proof.
  intros E H. rewrite ordered_by_keys, E, map_app in H.
  apply ordered_app_l in H. rewrite <- ordered_by_keys in H. exact H.
Qed.

Lemma add_level_keys (m : side_map) (px : double) (q : Z) :
  ordered m = true -> isnan px = false ->
  ordered (add_level m px q) = true /\
  forall k, In k (keys (add_level m px q)) -> k = px \/ In k (keys m).
Proof.
  intros Ho Hp. unfold add_level. destruct (q <=? 0); [auto|].
  split; [apply ordered_insert; assumption|].
  intros k. apply keys_insert.
Qed.

Lemma remove_level_keys (m : side_map) (px : double) (q : Z) :
  ordered m = true -> isnan px = false ->
  ordered (remove_level_qty m px q) = true /\
  forall k, In k (keys (remove_level_qty m px q)) -> In k (keys m).
Proof.
  intros Ho Hp. unfold remove_level_qty. destruct (q <=? 0); [auto|].
  destruct (find m px) as [v|] eqn:F; [|auto].
  destruct (Int32.sub v q <=? 0).
  - split; [apply ordered_erase; assumption|]. intros k. apply keys_erase.
  - split; [apply ordered_insert; assumption|].
    intros k. rewrite (keys_insert_present _ _ _ _ F). auto.
Qed.

Lemma consume_ask_keys (m : side_map) (q : Z) :
  ordered m = true ->
  ordered (consume_best_ask m q) = true /\
  forall k, In k (keys (consume_best_ask m q)) -> In k (keys m).
Proof.
  intros Ho. unfold consume_best_ask.
  destruct (consume_keys_suffix m q) as [gone Hg]. split.
  - eapply ordered_keys_suffix; eauto.
  - intros k Hk. rewrite Hg. apply in_or_app. right. exact Hk.
Qed.

Lemma consume_bid_keys (m : side_map) (q : Z) :
  ordered m = true ->
  ordered (consume_best_bid m q) = true /\
  forall k, In k (keys (consume_best_bid m q)) -> In k (keys m).
Proof.
  intros Ho. unfold consume_best_bid.
  destruct (consume_keys_suffix (rev m) q) as [gone Hg].
  assert (E : keys m
              = keys (rev (consume_best_first (rev m) q)) ++ rev gone).
  { rewrite keys_rev, <- rev_app_distr, <- Hg, keys_rev, rev_involutive.
    reflexivity. }
  split.
  - eapply ordered_keys_prefix; eauto.
  - intros k Hk. rewrite E. apply in_or_app. left. exact Hk.
Qed.

Lemma create_wf_keys (tick_size : double) : wf_keys (create tick_size).
Proof.
  destruct (create_wf tick_size) as (H1 & H2 & H3 & _ & _ & H4).
  repeat split; assumption.
Qed.

Lemma apply_wf_keys (b : OrderBook) (e : Event double) :
  wf_keys b -> wf_keys (snd (apply b e)).
Proof.
  intros Hwf. pose proof Hwf as (Ht & Hob & Hoa & Hsep).
  rewrite apply_eq. destruct (fails_precondition e) eqn:Ha; [exact Hwf|].
  destruct (accepted_facts e Ha) as (_ & _ & Hprice).
  cbn [snd]. unfold wf_keys, separated.
  destruct (type e) eqn:Ety.
  - destruct (Hprice ltac:(congruence)) as [Hpf _].
    pose proof (round_to_tick_not_nan b (price e) Ht Hpf) as Hpx.
    fold (snapped b e) in Hpx.
    destruct (marketable b e) eqn:Em.
    + destruct (side e).
      * destruct (consume_ask_keys _ (quantity e) Hoa) as (H1 & H3).
        simpl. repeat split; auto.
      * destruct (consume_bid_keys _ (quantity e) Hob) as (H1 & H3).
        simpl. repeat split; auto.
    + destruct (side e) eqn:Es.
      * destruct (add_level_keys (bids_ b) (snapped b e) (quantity e) Hob Hpx)
          as (H1 & H3).
        simpl. repeat split; auto.
        intros kb ka Hkb Hka. destruct (H3 _ Hkb) as [->|Hin]; auto.
        eapply passive_bid_below; eauto.
      * destruct (add_level_keys (asks_ b) (snapped b e) (quantity e) Hoa Hpx)
          as (H1 & H3).
        simpl. repeat split; auto.
        intros kb ka Hkb Hka. destruct (H3 _ Hka) as [->|Hin]; auto.
        eapply passive_ask_above; eauto.
  - destruct (Hprice ltac:(congruence)) as [Hpf _].
    pose proof (round_to_tick_not_nan b (price e) Ht Hpf) as Hpx.
    fold (snapped b e) in Hpx.
    destruct (side e).
    + destruct (remove_level_keys (bids_ b) (snapped b e) (quantity e) Hob Hpx)
        as (H1 & H3).
      simpl. repeat split; auto.
    + destruct (remove_level_keys (asks_ b) (snapped b e) (quantity e) Hoa Hpx)
        as (H1 & H3).
      simpl. repeat split; auto.
  - destruct (side e).
    + destruct (consume_ask_keys _ (quantity e) Hoa) as (H1 & H3).
      simpl. repeat split; auto.
    + destruct (consume_bid_keys _ (quantity e) Hob) as (H1 & H3).
      simpl. repeat split; auto.
Qed.

Lemma apply_all_wf_keys (es : list (Event double)) : forall b,
  wf_keys b -> wf_keys (apply_all b es).
Proof.
  induction es as [|e r IH]; intros b Hwf; simpl; [exact Hwf|].
  apply IH, apply_wf_keys. exact Hwf.
Qed.

Lemma wf_keys_uncrossed (b : OrderBook) : wf_keys b -> uncrossed b = true.
Proof.
  intros (_ & _ & _ & Hsep). unfold uncrossed, top. simpl.
  destruct (back (bids_ b)) as [[pb qb]|] eqn:B; simpl; [|reflexivity].
  destruct (front (asks_ b)) as [[pa qa]|] eqn:A; simpl; [|reflexivity].
  apply Hsep; eapply in_keys; [eapply back_in|eapply front_in]; eauto.
Qed.

(* ================================================================== *)
(** * C1: the book invariant *)
(* ================================================================== *)

(** C1, with the quantities bounded by the absence of integer overflow.
    For every book state reached from a freshly constructed book by any
    finite sequence of [apply] calls with arbitrary events: the best bid
    is strictly below the best ask whenever both exist; and an accepted
    Add whose snapped price crosses or touches the opposite best leaves
    its own side as it was (it is not rested) and is executed against the
    opposite side by the best-first walk.  If moreover every quantity in
    the sequence is an [int] and no resting Add takes the level it joins
    above [INT_MAX], every level stored on either side has quantity at
    least 1. *)
Theorem C1_book_invariant (tick_size : double) (es : list (Event double)) :
  let b := apply_all (create tick_size) es in
  uncrossed b = true /\
  (run_fits_int (create tick_size) es = true ->
   forall k q, In (k, q) (bids_ b) \/ In (k, q) (asks_ b) -> 1 <= q) /\
  (forall e,
      type e = Add -> fails_precondition e = false ->
      marketable b e = true ->
      own_side (snd (apply b e)) (side e) = own_side b (side e) /\
      opposite_side (snd (apply b e)) (side e) =
        match side e with
        | Bid => consume_best_ask (asks_ b) (quantity e)
        | Ask => consume_best_bid (bids_ b) (quantity e)
        end).
Proof.
  intros b. split; [|split].
  - apply wf_keys_uncrossed, apply_all_wf_keys, create_wf_keys.
  - intros Hfit k q Hin.
    assert (Hwf : wf_book b)
      by (apply apply_all_wf; [apply create_wf|exact Hfit]).
    destruct Hwf as (_ & _ & _ & Hlb & Hla & _).
    destruct Hin as [Hin|Hin];
      [apply (levels_ok_in _ _ _ Hlb) in Hin
      |apply (levels_ok_in _ _ _ Hla) in Hin];
      apply level_ok_bounds in Hin; lia.
  - intros e Hty Ha Hm. rewrite apply_eq, Ha, Hty, Hm.
    destruct (side e); simpl; auto.
Qed.

Lemma C1_book_invariant_witness :
  run_fits_int (create Samples.tick01) Samples.crossed_add = true /\
  forall k q,
    In (k, q) (bids_ (apply_all (create Samples.tick01) Samples.crossed_add))
    \/ In (k, q) (asks_ (apply_all (create Samples.tick01) Samples.crossed_add))
    -> 1 <= q.
Proof.
  assert (Hfit : run_fits_int (create Samples.tick01) Samples.crossed_add
                 = true) by (vm_compute; reflexivity).
  split; [exact Hfit|].
  exact (proj1 (proj2 (C1_book_invariant Samples.tick01 Samples.crossed_add))
           Hfit).
Defined.

(** C1's bound on the quantities does not extend to arbitrary events: two
    resting adds at one price whose quantities sum to [INT_MAX + 1] wrap
    the stored level to [INT_MIN]. *)
Lemma C1_counterexample :
  exists k q,
    In (k, q)
       (bids_ (apply_all (create Samples.tick01) Samples.overflowing_adds))
    /\ q < 1.
Proof.
  exists (of_int 100), Int32.INT_MIN. split; [|reflexivity].
  vm_compute. left. reflexivity.
Qed.

(* ================================================================== *)
(** * C4: rejected events *)
(* ================================================================== *)

(** C4.  [apply] returns [false] exactly when the event fails a
    precondition ([t] not finite, or [quantity <= 0], or, for Add and
    Cancel, [price] not finite or [<= 0]), and then the book it returns is
    the book it was given; otherwise it returns [true].  The price of a
    Market event is never looked at: replacing it changes nothing. *)
Theorem C4_apply_rejects (b : OrderBook) (e : Event double) :
  apply b e =
    (negb (fails_precondition e),
     if fails_precondition e then b else snd (apply b e))
  /\
  (forall p : double,
      apply b (mkEvent (t e) Market (side e) p (quantity e)) =
      apply b (mkEvent (t e) Market (side e) (price e) (quantity e))).
Proof.
  split.
  - rewrite apply_eq. destruct (fails_precondition e); reflexivity.
  - intros p. rewrite !apply_eq. reflexivity.
Qed.

(* ================================================================== *)
(** * C10: what [apply] leaves alone *)
(* ================================================================== *)

(** C10.  [apply] never changes the tick size.  A Cancel leaves the map of
    the opposite side unchanged, and so does an Add that is not
    marketable.  If the opposite side's map did change, the event was
    accepted and is a Market event or a marketable Add. *)
Theorem C10_apply_frame (b : OrderBook) (e : Event double) :
  tick_size_ (snd (apply b e)) = tick_size_ b /\
  (type e = Cancel ->
   opposite_side (snd (apply b e)) (side e) = opposite_side b (side e)) /\
  (type e = Add -> marketable b e = false ->
   opposite_side (snd (apply b e)) (side e) = opposite_side b (side e)) /\
  (opposite_side (snd (apply b e)) (side e) <> opposite_side b (side e) ->
   fst (apply b e) = true /\
   (type e = Market \/ (type e = Add /\ marketable b e = true))).
Proof.
  rewrite apply_eq.
  destruct (fails_precondition e); cbn [fst snd].
  - repeat split; try reflexivity. congruence. congruence.
  - destruct (type e), (side e), (marketable b e); cbn;
      repeat split; auto; try discriminate; try congruence.
Qed.

Lemma C10_apply_frame_witness :
  let b := apply_all (create Samples.tick01) Samples.crossed_add in
  let e := Samples.ev Cancel Bid (of_int 100) 10 in
  type e = Cancel /\
  opposite_side (snd (apply b e)) (side e) = opposite_side b (side e).
Proof.
  intros b e. split; [reflexivity|].
  apply (proj1 (proj2 (C10_apply_frame b e))). reflexivity.
Defined.

(* ================================================================== *)
(** * C5: market orders *)
(* ================================================================== *)



(* ================================================================== *)
(** * C7: cancels *)
(* ================================================================== *)




(* ================================================================== *)
(** * C8: metrics *)
(* ================================================================== *)

(** The literal [0.5] is the power of two, so [0.5 * x] is [x / 2]
    rounded once. *)
Lemma half_is_exact : lit 5 1 = S754_finite false (2 ^ 52) (-53).
Proof. vm_compute. reflexivity. Qed.

Lemma back_none (m : side_map) : back m = None <-> m = [].
Proof.
  split; [|intros ->; reflexivity].
  induction m as [|x r IH]; [reflexivity|].
  destruct r as [|y r']; [discriminate|].
  intros H. apply IH in H. discriminate.
Qed.

Lemma front_none (m : side_map) : front m = None <-> m = [].
Proof. destruct m; split; intros H; try reflexivity; discriminate. Qed.

(** [metrics] on a book whose stored quantities are positive [int]s. *)
Lemma metrics_of_positive_levels (b : OrderBook) :
  levels_ok (bids_ b) = true -> levels_ok (asks_ b) = true ->
  match back (bids_ b), front (asks_ b) with
  | Some (pb, qb), Some (pa, qa) =>
      metrics b =
        mkMetrics
          (Some (fmul (lit 5 1) (fadd pb pa)))
          (Some (fsub pa pb))
          (Some (fdiv (fsub (of_int qb) (of_int qa))
                      (fadd (of_int qb) (of_int qa))))
  | _, _ => metrics b = mkMetrics None None None
  end.
Proof.
  intros Hlb Hla. unfold metrics, top. cbn.
  destruct (back (bids_ b)) as [[pb qb]|] eqn:B; cbn; [|reflexivity].
  destruct (front (asks_ b)) as [[pa qa]|] eqn:A; cbn; [|reflexivity].
  apply back_in in B. apply front_in in A.
  apply (levels_ok_in _ _ _ Hlb), level_ok_bounds in B.
  apply (levels_ok_in _ _ _ Hla), level_ok_bounds in A.
  assert (Hpos : fgt (fadd (of_int qb) (of_int qa)) zero = true).
  { apply strictly_positive_gt_zero, fadd_pos; apply of_int_pos; lia. }
  unfold fgt in Hpos. unfold fgt. rewrite Hpos. reflexivity.
Qed.

(** [mid] and [spread] on any book. *)
Lemma metrics_mid_spread (b : OrderBook) :
  match back (bids_ b), front (asks_ b) with
  | Some (pb, _), Some (pa, _) =>
      mid (metrics b) = Some (fmul (lit 5 1) (fadd pb pa)) /\
      spread (metrics b) = Some (fsub pa pb)
  | _, _ => metrics b = mkMetrics None None None
  end.
Proof.
  unfold metrics, top. cbn.
  destruct (back (bids_ b)) as [[pb qb]|]; cbn; [|reflexivity].
  destruct (front (asks_ b)) as [[pa qa]|]; cbn; [|reflexivity].
  split; reflexivity.
Qed.

(** C8, with the imbalance bounded by the absence of integer overflow.
    For every book state reached from a freshly constructed book by
    [apply] calls: when both sides are non-empty, with best bid [pb] of
    quantity [qb] and best ask [pa] of quantity [qa], [metrics] returns
    [mid = 0.5 * (pb + pa)] and [spread = pa - pb] in binary64
    arithmetic; when a side is empty all three fields are absent.  If
    moreover every quantity applied was an [int] and no resting Add took
    the level it joined above [INT_MAX], then with both sides non-empty
    [imbalance_top1 = (qb - qa) / (qb + qa)] is present too, so that the
    three fields are all present if and only if both sides are
    non-empty. *)
Theorem C8_metrics (tick_size : double) (es : list (Event double)) :
  let b := apply_all (create tick_size) es in
  match back (bids_ b), front (asks_ b) with
  | Some (pb, qb), Some (pa, qa) =>
      mid (metrics b) = Some (fmul (lit 5 1) (fadd pb pa)) /\
      spread (metrics b) = Some (fsub pa pb) /\
      (run_fits_int (create tick_size) es = true ->
       imbalance_top1 (metrics b)
       = Some (fdiv (fsub (of_int qb) (of_int qa))
                    (fadd (of_int qb) (of_int qa))))
  | _, _ => metrics b = mkMetrics None None None
  end /\
  (run_fits_int (create tick_size) es = true ->
   ((mid (metrics b) <> None /\ spread (metrics b) <> None /\
     imbalance_top1 (metrics b) <> None)
    <-> (bids_ b <> [] /\ asks_ b <> []))).
Proof.
  intros b.
  assert (Hpos : run_fits_int (create tick_size) es = true ->
                 levels_ok (bids_ b) = true /\ levels_ok (asks_ b) = true).
  { intros Hfit.
    assert (Hwf : wf_book b)
      by (apply apply_all_wf; [apply create_wf|exact Hfit]).
    destruct Hwf as (_ & _ & _ & Hlb & Hla & _). auto. }
  pose proof (metrics_mid_spread b) as Hms.
  pose proof (back_none (bids_ b)) as Hb.
  pose proof (front_none (asks_ b)) as Ha.
  split.
  - destruct (back (bids_ b)) as [[pb qb]|] eqn:B; [|exact Hms].
    destruct (front (asks_ b)) as [[pa qa]|] eqn:A; [|exact Hms].
    destruct Hms as [Hmid Hspread]. repeat split; try assumption.
    intros Hfit. destruct (Hpos Hfit) as [Hlb Hla].
    pose proof (metrics_of_positive_levels b Hlb Hla) as Hm.
    rewrite B, A in Hm. rewrite Hm. reflexivity.
  - intros Hfit. destruct (Hpos Hfit) as [Hlb Hla].
    pose proof (metrics_of_positive_levels b Hlb Hla) as Hm.
    destruct (back (bids_ b)) as [[pb qb]|];
      [destruct (front (asks_ b)) as [[pa qa]|]|]; rewrite Hm; cbn.
    + split; intros _; repeat split; try discriminate.
      * intros E. apply Hb in E. discriminate.
      * intros E. apply Ha in E. discriminate.
    + split; [intros (H & _); congruence|].
      intros (_ & H). exfalso. apply H, Ha. reflexivity.
    + split; [intros (H & _); congruence|].
      intros (H & _). exfalso. apply H, Hb. reflexivity.
Qed.

Lemma C8_metrics_witness :
  run_fits_int (create Samples.tick01) Samples.three_asks = true /\
  let b := apply_all (create Samples.tick01) Samples.three_asks in
  ((mid (metrics b) <> None /\ spread (metrics b) <> None /\
    imbalance_top1 (metrics b) <> None)
   <-> (bids_ b <> [] /\ asks_ b <> [])).
Proof.
  assert (Hfit : run_fits_int (create Samples.tick01) Samples.three_asks = true)
    by (vm_compute; reflexivity).
  split; [exact Hfit|].
  pose proof (C8_metrics Samples.tick01 Samples.three_asks) as H.
  cbv zeta in H. destruct H as [_ H]. cbv zeta. exact (H Hfit).
Defined.

(** C8's imbalance does not extend to every state that [apply] calls
    reach: after the overflowing adds and one ask both sides are
    non-empty, [mid] and [spread] are present and [imbalance_top1] is
    absent. *)
Lemma C8_counterexample :
  let b := apply_all (create Samples.tick01) Samples.overflow_then_ask in
  bids_ b <> [] /\ asks_ b <> [] /\
  mid (metrics b) <> None /\ spread (metrics b) <> None /\
  imbalance_top1 (metrics b) = None.
Proof.
  vm_compute. repeat split; discriminate.
Qed.

(* ================================================================== *)
(** * C3: the safety net of the simulator loop *)
(* ================================================================== *)

(** C3: the safety net can leave a side empty.  From the seeded book of
    [main], fifteen turns of the loop (engine events
    [Samples.draining_events], placement rolls [Samples.draining_rolls])
    run without error and leave the bid side empty with the best ask at
    the snapped 99.9.  In the next turn the safety net injects [Add Bid]
    at [price_center - tick], which snaps to the same 99.9: [apply] treats
    it as marketable and takes 50 from the asks, so the bid side is still
    empty after the liveness step and the read of [*tob.best_bid_price]
    that follows is on an empty optional. *)
Theorem C3_liveness_leaves_bids_empty :
  let rng2 := Samples.replay zero in
  let start := Sim.seed_book (create Sim.tick) in
  exists b obs,
    Sim.handle_all start Samples.draining_rolls Samples.draining_events
      = Ok (b, [], obs) /\
    bids_ b = [] /\
    option_map fst (front (asks_ b))
      = Some (round_to_tick b (fsub Sim.price_center Sim.tick)) /\
    bids_ (Sim.liveness b (of_int 16)) = [] /\
    forall ty sd q,
      Sim.handle b [] (Samples.engine_ev 16 ty sd q) = Raise EmptyOptional.
Proof.
  intros rng2 start.
  destruct (Sim.handle_all start Samples.draining_rolls Samples.draining_events)
    as [[[b g] obs]|] eqn:E; vm_compute in E; [|discriminate].
  injection E as <- <- <-.
  eexists. eexists. split; [reflexivity|].
  repeat split.
Qed.

(* ================================================================== *)
(** * The engine over the reals *)
(* ================================================================== *)

Import RealModel.

Section RealEngine.

Import Hawkes.

Context {G : Type} {rng : Rng R G}.

Local Open Scope R_scope.

Lemma Rltb_true (x y : R) : x < y -> Rltb x y = true.
Proof. intros H. unfold Rltb. destruct (Rlt_dec x y); [reflexivity|lra]. Qed.

Lemma Rltb_false (x y : R) : y <= x -> Rltb x y = false.
Proof. intros H. unfold Rltb. destruct (Rlt_dec x y); [lra|reflexivity]. Qed.

Lemma Rleb_true (x y : R) : x <= y -> Rleb x y = true.
Proof. intros H. unfold Rleb. destruct (Rle_dec x y); [reflexivity|lra]. Qed.

Lemma Rleb_false (x y : R) : y < x -> Rleb x y = false.
Proof. intros H. unfold Rleb. destruct (Rle_dec x y); [lra|reflexivity]. Qed.

Lemma Rltb_spec (x y : R) : Rltb x y = true <-> x < y.
Proof.
  unfold Rltb. destruct (Rlt_dec x y); split; intros; try lra; congruence.
Qed.

Lemma Rleb_spec (x y : R) : Rleb x y = true <-> x <= y.
Proof.
  unfold Rleb. destruct (Rle_dec x y); split; intros; try lra; congruence.
Qed.

Lemma nth_map_seq {A : Type} (f : nat -> A) (d : A) (n i : nat) :
  (i < n)%nat -> nth i (map f (seq 0 n)) d = f i.
Proof.
  intros H. rewrite nth_indep with (d' := f 0%nat)
    by (rewrite length_map, length_seq; exact H).
  rewrite map_nth, seq_nth by exact H. reflexivity.
Qed.

Lemma total_as_sum_from (p : HawkesMultivariateProcess R G) (l : list nat) :
  forall acc,
  fold_left
    (fun sum i =>
       if nlt n0 (at_ (lambda_ p) i)
       then nadd sum (nmul (at_ (w_ p) i) (at_ (lambda_ p) i))
       else sum) l acc
  = fold_left (fun sum i => sum + term p i) l acc.
Proof.
  induction l as [|i l IH]; intros acc; simpl; [reflexivity|].
  rewrite IH. f_equal. unfold term.
  destruct (Rltb 0 (at_ (lambda_ p) i)); lra.
Qed.

Lemma total_as_sum (p : HawkesMultivariateProcess R G) :
  total_weighted_intensity p
  = fold_left (fun sum i => sum + term p i) (seq 0 (dim_ p)) 0.
Proof. apply total_as_sum_from. Qed.

Lemma sum_le (f g : nat -> R) (l : list nat) : forall a b,
  a <= b -> (forall i, In i l -> f i <= g i) ->
  fold_left (fun sum i => sum + f i) l a
  <= fold_left (fun sum i => sum + g i) l b.
Proof.
  induction l as [|i l IH]; intros a b Hab H; simpl; [exact Hab|].
  apply IH.
  - pose proof (H i (or_introl eq_refl)). lra.
  - intros j Hj. apply H. right. exact Hj.
Qed.

Lemma exp_decay_le_1 (b dt : R) : 0 < b -> 0 < dt -> 0 < exp (- b * dt) <= 1.
Proof.
  intros Hb Hdt. split; [apply exp_pos|].
  rewrite <- exp_0. left. apply exp_increasing.
  assert (0 < b * dt) by (apply Rmult_lt_0_compat; assumption). lra.
Qed.

(** After a real decay step, dimension by dimension. *)
Lemma decay_to_fields (p : HawkesMultivariateProcess R G) (t : R) (i : nat) :
  last_time_ p < t -> (i < dim_ p)%nat ->
  let p' := decay_to p t in
  dim_ p' = dim_ p /\ w_ p' = w_ p /\ mu_ p' = mu_ p /\ beta_ p' = beta_ p /\
  at_ (s_ p') i
    = at_ (s_ p) i * exp (- at2 (beta_ p) i i * (t - last_time_ p)) /\
  at_ (lambda_ p') i = clamp0 (at_ (mu_ p) i + at_ (s_ p') i).
Proof.
  intros Ht Hi. unfold decay_to. cbn [nle R_num].
  rewrite Rleb_false by exact Ht. cbn.
  repeat split; unfold at_ at 1; rewrite nth_map_seq by exact Hi; reflexivity.
Qed.

Lemma decay_to_noop (p : HawkesMultivariateProcess R G) (t : R) :
  t <= last_time_ p -> decay_to p t = p.
Proof.
  intros Ht. unfold decay_to. cbn [nle R_num].
  rewrite Rleb_true by exact Ht. reflexivity.
Qed.

Lemma clamp0_pos (x : R) : 0 <= x -> clamp0 x = x.
Proof.
  intros H. unfold clamp0. cbn [nlt n0 R_num].
  rewrite Rltb_false by exact H. reflexivity.
Qed.

Lemma decay_to_valid (p : HawkesMultivariateProcess R G) (t : R) :
  valid_state p -> valid_state (decay_to p t).
Proof.
  intros Hv. destruct (Rle_dec t (last_time_ p)) as [Hle|Hgt].
  - rewrite decay_to_noop by exact Hle. exact Hv.
  - apply Rnot_le_lt in Hgt. intros i Hi.
    assert (Hi' : (i < dim_ p)%nat).
    { destruct (decay_to_fields p t i Hgt) as (Hd & _);
        [|rewrite <- Hd; exact Hi].
      unfold decay_to in Hi. cbn [nle R_num] in Hi.
      rewrite Rleb_false in Hi by exact Hgt. exact Hi. }
    destruct (decay_to_fields p t i Hgt Hi') as (Hd & Hw & Hmu & Hb & Hs & Hl).
    destruct (Hv i Hi') as (H1 & H2 & H3 & H4 & H5).
    pose proof (exp_decay_le_1 (at2 (beta_ p) i i) (t - last_time_ p) H4
                  ltac:(lra)) as [He1 He2].
    assert (Hs' : 0 <= at_ (s_ (decay_to p t)) i).
    { rewrite Hs. apply Rmult_le_pos; lra. }
    rewrite Hw, Hmu, Hb. repeat split; try assumption.
    rewrite Hl. apply clamp0_pos. lra.
Qed.

Lemma decay_to_term_le (p : HawkesMultivariateProcess R G) (t : R) (i : nat) :
  valid_state p -> (i < dim_ p)%nat ->
  term (decay_to p t) i <= term p i.
Proof.
  intros Hv Hi. destruct (Rle_dec t (last_time_ p)) as [Hle|Hgt].
  - rewrite decay_to_noop by exact Hle. lra.
  - apply Rnot_le_lt in Hgt.
    destruct (decay_to_fields p t i Hgt Hi) as (Hd & Hw & Hmu & Hb & Hs & Hl).
    destruct (Hv i Hi) as (H1 & H2 & H3 & H4 & H5).
    pose proof (exp_decay_le_1 (at2 (beta_ p) i i) (t - last_time_ p) H4
                  ltac:(lra)) as [He1 He2].
    assert (Hs' : 0 <= at_ (s_ (decay_to p t)) i <= at_ (s_ p) i).
    { rewrite Hs. split; [apply Rmult_le_pos; lra|].
      rewrite <- (Rmult_1_r (at_ (s_ p) i)) at 2.
      apply Rmult_le_compat_l; lra. }
    unfold term. rewrite Hl, Hw, H5, clamp0_pos by lra.
    rewrite !Rltb_true by lra.
    apply Rmult_le_compat_l; lra.
Qed.

Lemma decay_to_dim (p : HawkesMultivariateProcess R G) (t : R) :
  dim_ (decay_to p t) = dim_ p.
Proof.
  unfold decay_to. destruct (nle t (last_time_ p)); reflexivity.
Qed.

(** Between events the total weighted intensity does not increase. *)
Lemma decay_to_total_le (p : HawkesMultivariateProcess R G) (t : R) :
  valid_state p ->
  total_weighted_intensity (decay_to p t) <= total_weighted_intensity p.
Proof.
  intros Hv. rewrite !total_as_sum, decay_to_dim.
  apply sum_le; [lra|]. intros i Hi. apply in_seq in Hi.
  apply decay_to_term_le; [exact Hv|lia].
Qed.

Lemma term_pos (p : HawkesMultivariateProcess R G) (i : nat) :
  valid_state p -> (i < dim_ p)%nat -> 0 < term p i.
Proof.
  intros Hv Hi. destruct (Hv i Hi) as (H1 & H2 & H3 & H4 & H5).
  unfold term. rewrite H5, Rltb_true by lra.
  apply Rmult_lt_0_compat; lra.
Qed.

Lemma sum_ge_acc (f : nat -> R) (l : list nat) : forall a,
  (forall i, In i l -> 0 <= f i) ->
  a <= fold_left (fun sum i => sum + f i) l a.
Proof.
  induction l as [|i l IH]; intros a H; simpl; [lra|].
  pose proof (H i (or_introl eq_refl)).
  pose proof (IH (a + f i) (fun j Hj => H j (or_intror Hj))). lra.
Qed.

Lemma total_pos (p : HawkesMultivariateProcess R G) :
  valid_state p -> dim_ p <> 0%nat -> 0 < total_weighted_intensity p.
Proof.
  intros Hv Hd. rewrite total_as_sum.
  destruct (dim_ p) as [|n] eqn:E; [congruence|].
  change (seq 0 (S n)) with (0%nat :: seq 1 n). simpl.
  assert (H0 : 0 < term p 0) by (apply term_pos; [exact Hv|lia]).
  assert (Hge : 0 + term p 0
                <= fold_left (fun sum i => sum + term p i) (seq 1 n)
                     (0 + term p 0)).
  { apply sum_ge_acc. intros i Hi. apply in_seq in Hi.
    left. apply term_pos; [exact Hv|lia]. }
  lra.
Qed.

Lemma with_rng_valid (p : HawkesMultivariateProcess R G) (g : G) :
  valid_state p -> valid_state (with_rng p g).
Proof. intros Hv i Hi. exact (Hv i Hi). Qed.

Lemma with_rng_total (p : HawkesMultivariateProcess R G) (g : G) :
  total_weighted_intensity (with_rng p g) = total_weighted_intensity p.
Proof. reflexivity. Qed.


Lemma propose_spec (p : HawkesMultivariateProcess R G) (ct : R) :
  valid_state p ->
  lambda_bar (propose p ct) = total_weighted_intensity p /\
  lambda_cand (propose p ct) <= lambda_bar (propose p ct) /\
  valid_state (at_cand (propose p ct)) /\
  cand_time (propose p ct)
    = ct + - ln (fst (uniform_real01 (rng_ p))) / total_weighted_intensity p.
Proof.
  intros Hv. unfold propose.
  destruct (uniform_real01 (rng_ p)) as [u1 g1]. cbn [fst].
  set (cand := nadd ct _).
  destruct (uniform_real01 (rng_ (decay_to (with_rng p g1) cand)))
    as [u g2].
  cbn [lambda_bar lambda_cand at_cand cand_time].
  split; [reflexivity|]. split; [|split; [|reflexivity]].
  - rewrite <- (with_rng_total p g1). apply decay_to_total_le.
    apply with_rng_valid. exact Hv.
  - apply with_rng_valid, decay_to_valid, with_rng_valid. exact Hv.
Qed.

Lemma div_le_1 (a b : R) : 0 < b -> a <= b -> a / b <= 1.
Proof.
  intros Hb Hab. apply (Rmult_le_reg_r b); [exact Hb|].
  unfold Rdiv. rewrite Rmult_assoc, Rinv_l by lra. lra.
Qed.


End RealEngine.

(* ================================================================== *)
(** * The states the engine reaches are valid *)
(* ================================================================== *)

Section RealReachable.

Import Hawkes.

Context {G : Type} {rng : Rng R G}.

Local Open Scope R_scope.

Lemma at_repeat (x : R) (n i : nat) : (i < n)%nat -> at_ (repeat x n) i = x.
Proof.
  intros H. unfold at_. rewrite nth_indep with (d' := x)
    by (rewrite repeat_length; exact H).
  apply nth_repeat.
Qed.

Lemma nth_map_lt {A B : Type} (f : A -> B) (l : list A) (d : B) (d' : A)
    (i : nat) :
  (i < length l)%nat -> nth i (map f l) d = f (nth i l d').
Proof.
  intros H. rewrite nth_indep with (d' := f d')
    by (rewrite length_map; exact H).
  apply map_nth.
Qed.

Lemma existsb_false {A : Type} (f : A -> bool) (l : list A) :
  existsb f l = false -> forall x, In x l -> f x = false.
Proof.
  induction l as [|a l IH]; simpl; intros H x Hx; [contradiction|].
  apply orb_false_iff in H as [H1 H2].
  destruct Hx as [<-|Hx]; auto.
Qed.

(** A freshly constructed engine is valid as soon as its diagonal decays
    are positive. *)
Lemma create_valid (mu : list R) (alpha beta : list (list R))
    (qty_min qty_max seed : Z) (p : HawkesMultivariateProcess R G) :
  create mu alpha beta qty_min qty_max seed = Ok p ->
  (forall i, (i < 6)%nat -> 0 < at2 beta i i) ->
  valid_state p /\ dim_ p = 6%nat /\ alpha_ p = alpha /\ beta_ p = beta.
Proof.
  unfold create. intros H Hb.
  destruct (negb (length mu =? 6)%nat) eqn:E1; [discriminate|].
  destruct (negb (length alpha =? length mu)%nat
            || negb (length beta =? length mu)%nat); [discriminate|].
  destruct (existsb _ (seq 0 (length mu))); [discriminate|].
  destruct (existsb _ (seq 0 (length mu))) eqn:E4; [discriminate|].
  injection H as <-. cbn [dim_ alpha_ beta_].
  apply negb_false_iff, Nat.eqb_eq in E1.
  split; [|auto].
  intros i Hi. cbn [dim_ s_ w_ mu_ beta_ lambda_] in *.
  rewrite E1 in *.
  assert (Hmu : 0 < at_ mu i).
  { pose proof (existsb_false _ _ E4 i ltac:(apply in_seq; lia)) as E5.
    clear E4. rename E5 into E4. cbv beta in E4.
    apply orb_false_iff in E4 as [_ E4]. cbn [nle n0 R_num] in E4.
    destruct (Rle_dec (at_ mu i) 0) as [Hle|Hgt];
      [rewrite (Rleb_true _ _ Hle) in E4; discriminate|lra]. }
  rewrite !at_repeat by exact Hi.
  repeat split; try lra; auto.
  unfold at_ at 1. rewrite nth_map_seq by exact Hi. cbn. lra.
Qed.

Lemma set_weights_valid (p p' : HawkesMultivariateProcess R G) (w : list R) :
  valid_state p -> set_weights p w = Ok p' ->
  valid_state p' /\ dim_ p' = dim_ p /\
  alpha_ p' = alpha_ p /\ beta_ p' = beta_ p.
Proof.
  unfold set_weights. intros Hv H.
  destruct (negb (length w =? dim_ p)%nat) eqn:E; [discriminate|].
  apply negb_false_iff, Nat.eqb_eq in E.
  injection H as <-. cbn [dim_ alpha_ beta_]. split; [|auto].
  intros i Hi. cbn [dim_ s_ w_ mu_ beta_ lambda_] in *.
  destruct (Hv i Hi) as (H1 & H2 & H3 & H4 & H5).
  repeat split; try assumption.
  unfold at_. rewrite (nth_map_lt _ w _ 0) by lia.
  cbn [nfinite nle n0 n1 R_num negb orb].
  destruct (Rle_dec (nth i w 0) 0) as [Hle|Hgt].
  - rewrite (Rleb_true _ _ Hle). lra.
  - rewrite Rleb_false by lra. lra.
Qed.






End RealReachable.

(* ================================================================== *)
(** * C2: the thinning bound *)
(* ================================================================== *)


Lemma unit_rates_valid : valid_state Samples.unit_rates.
Proof.
  intros i Hi. simpl in Hi.
  do 6 (destruct i as [|i]; [cbn; repeat split; lra|]). lia.
Qed.


(* ================================================================== *)
(** * C6: event times *)
(* ================================================================== *)

Section EventTimes.

Import Hawkes.

Context {G : Type} {rng : Rng R G}.

Local Open Scope R_scope.

Lemma ln_le_0 (u : R) : u <= 1 -> ln u <= 0.
Proof.
  intros Hu. destruct (Rlt_dec 0 u) as [Hpos|Hneg].
  - destruct (Req_dec u 1) as [->|Hne]; [rewrite ln_1; lra|].
    rewrite <- ln_1. left. apply ln_increasing; lra.
  - unfold ln. destruct (Rlt_dec 0 u); [contradiction|lra].
Qed.

Lemma propose_cand_time (p : HawkesMultivariateProcess R G) (ct : R) :
  cand_time (propose p ct)
  = ct + - ln (fst (uniform_real01 (rng_ p))) / total_weighted_intensity p.
Proof.
  unfold propose. destruct (uniform_real01 (rng_ p)) as [u1 g1]. cbn [fst].
  destruct (uniform_real01 (rng_ (decay_to (with_rng p g1) _))) as [u g2].
  reflexivity.
Qed.

Lemma propose_later (p : HawkesMultivariateProcess R G) (ct : R) :
  unit_interval_draws rng -> 0 < total_weighted_intensity p ->
  ct <= cand_time (propose p ct).
Proof.
  intros Hu Hpos. rewrite propose_cand_time.
  pose proof (Hu (rng_ p)) as [_ Hu1].
  pose proof (ln_le_0 _ (Rlt_le _ _ Hu1)) as Hln.
  assert (0 <= - ln (fst (uniform_real01 (rng_ p)))
               / total_weighted_intensity p).
  { unfold Rdiv. apply Rmult_le_pos; [lra|].
    left. apply Rinv_0_lt_compat. exact Hpos. }
  lra.
Qed.

Lemma accept_time (c : Candidate R G) : t (fst (accept c)) = cand_time c.
Proof.
  unfold accept. destruct (sample_dimension_weighted (at_cand c)) as [k g].
  destruct (uniform_int _ _ _) as [q g']. destruct (category k). reflexivity.
Qed.

Lemma thinning_later (fuel : nat) :
  unit_interval_draws rng ->
  forall (p : HawkesMultivariateProcess R G) ct e p',
  thinning fuel p ct = Ok (e, p') -> ct <= t e.
Proof.
  intros Hu. induction fuel as [|fuel IH]; intros p ct e p' H; simpl in H;
    [discriminate|].
  destruct (Rltb 0 (total_weighted_intensity p)) eqn:E; simpl in H.
  - apply Rltb_spec in E. pose proof (propose_later p ct Hu E) as Hc.
    destruct (Rleb _ _).
    + injection H as H. rewrite <- (accept_time (propose p ct)) in Hc.
      rewrite H in Hc. exact Hc.
    + apply IH in H. lra.
  - eapply IH; eauto.
Qed.

Lemma drive_non_decreasing (fuel : nat) (weights : list (list R)) :
  unit_interval_draws rng ->
  forall (p : HawkesMultivariateProcess R G) clock es,
  drive fuel weights p clock = Ok es -> non_decreasing clock (map t es).
Proof.
  intros Hu. induction weights as [|w rest IH]; intros p clock es H; simpl in H.
  - injection H as <-. exact I.
  - destruct (set_weights p w) as [p1|]; simpl in H; [|discriminate].
    destruct (next fuel p1 clock) as [[e p2]|] eqn:En; simpl in H;
      [|discriminate].
    destruct (drive fuel rest p2 (t e)) as [es'|] eqn:Ed; simpl in H;
      [|discriminate].
    injection H as <-. simpl. split.
    + unfold next in En. eapply thinning_later; eauto.
    + eapply IH; eauto.
Qed.

Lemma thinning_accepts (fuel : nat) (p : HawkesMultivariateProcess R G)
    (ct : R) :
  0 < total_weighted_intensity p ->
  u2 (propose p ct) <= lambda_cand (propose p ct) / lambda_bar (propose p ct) ->
  thinning (S fuel) p ct = Ok (accept (propose p ct)).
Proof.
  intros Hpos Hacc. simpl.
  rewrite (Rltb_true _ _ Hpos). simpl. rewrite (Rleb_true _ _ Hacc).
  reflexivity.
Qed.

Lemma propose_spec_dim (p : HawkesMultivariateProcess R G) (ct : R) :
  dim_ (at_cand (propose p ct)) = dim_ p.
Proof.
  unfold propose. destruct (uniform_real01 (rng_ p)) as [u1 g1].
  destruct (uniform_real01 (rng_ (decay_to (with_rng p g1) _))) as [u g2].
  cbn [at_cand]. unfold with_rng at 1. cbn [dim_].
  rewrite decay_to_dim. reflexivity.
Qed.

Lemma propose_lambda_cand (p : HawkesMultivariateProcess R G) (ct : R) :
  lambda_cand (propose p ct)
  = total_weighted_intensity (at_cand (propose p ct)).
Proof.
  unfold propose. destruct (uniform_real01 (rng_ p)) as [u1 g1].
  destruct (uniform_real01 (rng_ (decay_to (with_rng p g1) _))) as [u g2].
  reflexivity.
Qed.

End EventTimes.

(** C6.  Over the reals, with the draws of the unit-interval distribution
    in [0, 1): whenever [next] called with clock [now] returns an event,
    the event's time is at least [now]; and when the loop drives the
    engine (weights installed before each call, the clock set to the time
    of the event just returned), the times of the events it emits, in
    order, never decrease. *)
Theorem C6_event_times {G : Type} {rng : Rng R G} (fuel : nat)
    (p : Hawkes.HawkesMultivariateProcess R G) (now : R)
    (weights : list (list R)) :
  unit_interval_draws rng ->
  (forall e p', Hawkes.next fuel p now = Ok (e, p') -> (now <= t e)%R) /\
  (forall es, Hawkes.drive fuel weights p now = Ok es ->
              non_decreasing now (map t es)).
Proof.
  intros Hu. split.
  - intros e p' H. unfold Hawkes.next in H. eapply thinning_later; eauto.
  - intros es H. eapply drive_non_decreasing; eauto.
Qed.

Lemma zero_draws_unit_interval : unit_interval_draws Samples.zero_draws.
Proof. intros g. simpl. lra. Qed.

Lemma unit_rates_next :
  Hawkes.next (rng := Samples.zero_draws) 1 Samples.unit_rates 0%R
  = Ok (Hawkes.accept (rng := Samples.zero_draws)
          (Hawkes.propose (rng := Samples.zero_draws) Samples.unit_rates 0%R)).
Proof.
  unfold Hawkes.next.
  rewrite (decay_to_noop Samples.unit_rates 0%R)
    by (simpl; lra).
  apply (thinning_accepts (rng := Samples.zero_draws)).
  - apply total_pos.
    + exact unit_rates_valid.
    + discriminate.
  - destruct (propose_spec (rng := Samples.zero_draws) Samples.unit_rates 0%R
                unit_rates_valid) as (Hbar & _ & Hv & _).
    rewrite Hbar.
    assert (Hpos : (0 < Hawkes.total_weighted_intensity Samples.unit_rates)%R).
    { apply total_pos;
        [exact unit_rates_valid|discriminate]. }
    assert (Hc : (0 < Hawkes.lambda_cand
                        (Hawkes.propose (rng := Samples.zero_draws)
                           Samples.unit_rates 0%R))%R).
    { rewrite propose_lambda_cand.
      apply (total_pos _ Hv).
      rewrite propose_spec_dim. discriminate. }
    change (Hawkes.u2 _) with 0%R.
    left. apply Rdiv_lt_0_compat; assumption.
Qed.

Lemma C6_event_times_witness :
  let rng := Samples.zero_draws in
  let p := Samples.unit_rates in
  unit_interval_draws rng /\
  exists e p', Hawkes.next 1 p 0%R = Ok (e, p') /\ (0 <= t e)%R.
Proof.
  intros rng p. split; [exact zero_draws_unit_interval|].
  exists (fst (Hawkes.accept (Hawkes.propose p 0%R))),
         (snd (Hawkes.accept (Hawkes.propose p 0%R))).
  assert (E : Hawkes.next 1 p 0%R
              = Ok (fst (Hawkes.accept (Hawkes.propose p 0%R)),
                    snd (Hawkes.accept (Hawkes.propose p 0%R)))).
  { rewrite <- surjective_pairing. exact unit_rates_next. }
  split; [exact E|].
  exact (proj1 (C6_event_times 1 p 0%R [] zero_draws_unit_interval) _ _ E).
Defined.

(* ================================================================== *)
(** * C9: determinism *)
(* ================================================================== *)

Section Determinism.

Import Hawkes Sim Main.

Context {G1 G2 : Type}.
Context {num : Num double}.
Context {rng1 : Rng double G1}.
Context {rng2 : Rng double G2}.







End Determinism.



(* ================================================================== *)
(** * The boundary scenarios of the specification, run on the model *)
(* ================================================================== *)

(** Scenario 1: the crossing bid takes 20 from the ask at 100.5 and does
    not rest. *)
Example scenario_crossed_add :
  let b := apply_all (create Samples.tick01) Samples.crossed_add in
  bids_ b = [(of_int 100, 50)] /\
  asks_ b = [(fmul (of_int 1005) Samples.tick01, 30)].
Proof. vm_compute. split; reflexivity. Qed.

(** Scenario 2: a market buy of 22 sweeps the first level and leaves 3 at
    the second. *)
Example scenario_market_sweep :
  let b := apply_all (create Samples.tick01) Samples.three_asks in
  map snd (asks_ b) = [10; 15; 20] /\
  map snd (asks_ (snd (apply b Samples.market_buy_22))) = [3; 20].
Proof. vm_compute. split; reflexivity. Qed.

(** Scenario 3: cancelling a level that does not exist changes nothing and
    still reports [true]. *)
Example scenario_cancel_absent :
  let b := apply_all (create Samples.tick01) Samples.lone_bid in
  apply b Samples.cancel_absent_ask = (true, b).
Proof. vm_compute. reflexivity. Qed.

(** Scenario 4: 100.04 rests at 1000 ticks and 100.06 at 1001 ticks. *)
Example scenario_tick_snapping :
  map fst (bids_ (apply_all (create Samples.tick01) Samples.off_grid_adds))
  = [fmul (of_int 1000) Samples.tick01; fmul (of_int 1001) Samples.tick01].
Proof. vm_compute. reflexivity. Qed.

(** The book that [main] seeds satisfies the invariant. *)
Example seeded_book_wf : wf_book (Sim.seed_book (create Sim.tick)).
Proof.
  unfold wf_book. repeat split; try (vm_compute; reflexivity).
  intros kb ka Hb Ha. vm_compute in Hb, Ha.
  repeat (destruct Hb as [<-|Hb]; [
    repeat (destruct Ha as [<-|Ha]; [vm_compute; reflexivity|]);
    contradiction|]).
  contradiction.
Qed.

(* ================================================================== *)
(** * The simulator loop drives the engine as [drive] does *)
(* ================================================================== *)

Section LoopDrives.

Import Hawkes Sim Main.

Context {G1 G2 : Type}.
Context {num : Num double}.
Context {rng1 : Rng double G1}.
Context {rng2 : Rng double G2}.

(** The loop body changes the price of the engine's event and nothing
    else. *)
Lemma handle_event (b b' : OrderBook) (g g' : G2) (e : Event double)
    (ob : Observation) :
  handle b g e = Ok (b', g', ob) ->
  t (obs_event ob) = t e /\ type (obs_event ob) = type e /\
  side (obs_event ob) = side e /\ quantity (obs_event ob) = quantity e.
Proof.
  unfold handle. intros H.
  set (tob := top (liveness b (t e))) in H.
  destruct (best_bid_price tob) as [bb|]; cbn [deref bind] in H;
    [|discriminate].
  destruct (best_ask_price tob) as [ba|]; cbn [deref bind] in H;
    [|discriminate].
  destruct (place e bb ba g) as [px g1]. injection H as _ _ <-.
  cbn. auto.
Qed.

(** The events logged by [n] turns of the loop carry the times of the
    events that the engine returns when driven with the weights the book
    induced. *)
Lemma loop_drives (fuel n : nat) : forall (st : State G1 G2) obs,
  loop (rng1 := rng1) (rng2 := rng2) fuel n st = Ok obs ->
  exists weights es,
    length weights = n /\
    drive fuel weights (process st) (clock st) = Ok es /\
    map t es = map (fun ob => t (obs_event ob)) obs.
Proof.
  induction n as [|n IH]; intros st obs H; simpl in H.
  - injection H as <-. exists [], []. auto.
  - destruct (step fuel st) as [[st' ob]|] eqn:Es; simpl in H; [|discriminate].
    destruct (loop fuel n st') as [obs'|] eqn:El; simpl in H; [|discriminate].
    injection H as <-. unfold step in Es.
    destruct (set_weights (process st) (compute_weights (book st)))
      as [p1|] eqn:Ew; simpl in Es; [|discriminate].
    destruct (next fuel p1 (clock st)) as [[e p2]|] eqn:En; simpl in Es;
      [|discriminate].
    destruct (handle (book st) (place_rng st) e) as [[[b' g'] ob']|] eqn:Eh;
      simpl in Es; [|discriminate].
    injection Es as <- <-.
    destruct (IH _ _ El) as (ws & es & Hlen & Hd & Ht). cbn in Hd.
    exists (compute_weights (book st) :: ws), (e :: es).
    split; [simpl; congruence|]. split.
    + simpl. rewrite Ew. simpl. rewrite En. simpl. rewrite Hd. reflexivity.
    + simpl. rewrite Ht. f_equal.
      symmetry. apply (handle_event _ _ _ _ _ _ Eh).
Qed.

End LoopDrives.

Import BookProps.

Lemma finite_not_nan (x : double) : isfinite x = true -> isnan x = false.
Proof. destruct x; simpl; congruence. Qed.

(** *** Signs through the snapping arithmetic *)

Lemma binary_round_aux_sign_clear (mx ex : Z) (lx : location) :
  0 <= mx -> sign_clear (binary_round_aux prec emax false mx ex lx) = true.
Proof.
  intros Hm.
  pose proof (binary_round_aux_not_nan false mx ex lx Hm) as Hn.
  revert Hn. unfold binary_round_aux.
  destruct (shr_fexp _ _ _ _ _) as [mrs1 e1].
  destruct (shr_fexp _ _ _ _ _) as [mrs2 e2].
  destruct (shr_m mrs2) as [|p|p]; try reflexivity; try discriminate.
  destruct (Z.leb _ _); reflexivity.
Qed.

Lemma fdiv_sign_clear (x y : double) :
  isfinite x = true -> fle x zero = false ->
  isfinite y = true -> fgt y zero = true ->
  sign_clear (fdiv x y) = true.
Proof.
  destruct x as [sx|sx| |[] mx ex], y as [sy|sy| |[] my ey];
    simpl; try discriminate; try reflexivity.
  intros _ _ _ _. unfold SFdiv_core_binary.
  set (m' := match _ with Z.pos _ => _ | Z0 => _ | Z.neg _ => _ end).
  assert (Hm' : 0 <= m').
  { subst m'. destruct (ex - ey - _) as [|s|s]; try lia.
    apply Z.shiftl_nonneg. lia. }
  pose proof (Z.div_pos m' (Z.pos my) Hm' ltac:(lia)) as Hq.
  unfold Z.div in Hq. destruct (Z.div_eucl m' (Z.pos my)) as [q r].
  apply binary_round_aux_sign_clear. exact Hq.
Qed.

Lemma binary_round_sign_clear (m : positive) (e : Z) :
  sign_clear (binary_round prec emax false m e) = true.
Proof.
  unfold binary_round. destruct (shl_align m e _) as [mz ez].
  apply binary_round_aux_sign_clear. lia.
Qed.

Lemma round_sign_clear (x : double) :
  sign_clear x = true -> sign_clear (round x) = true.
Proof.
  destruct x as [[]|[]| |[] mx ex]; simpl; try discriminate; auto.
  intros _. destruct (0 <=? ex); [reflexivity|].
  destruct (if _ <=? _ then _ else _); try reflexivity.
  apply binary_round_sign_clear.
Qed.

Lemma fmul_sign_clear (x y : double) :
  sign_clear x = true -> isfinite y = true -> fgt y zero = true ->
  sign_clear (fmul x y) = true.
Proof.
  destruct x as [[]|[]| |[] mx ex], y as [sy|sy| |[] my ey];
    simpl; try discriminate; try reflexivity.
  intros _ _ _. apply binary_round_aux_sign_clear. lia.
Qed.

Lemma sign_clear_ge_zero (x : double) : sign_clear x = true -> fge x zero = true.
Proof. destruct x as [[]|[]| |[] mx ex]; simpl; try discriminate; reflexivity. Qed.

Lemma round_to_tick_sign_clear (b : OrderBook) (p : double) :
  tick_ok b = true -> isfinite p = true -> fle p zero = false ->
  sign_clear (round_to_tick b p) = true.
Proof.
  unfold tick_ok, round_to_tick. intros Ht Hp Hpos.
  apply andb_true_iff in Ht as [Hf Hgt].
  apply fmul_sign_clear; try assumption.
  apply round_sign_clear. apply fdiv_sign_clear; assumption.
Qed.

(** *** No negative price ever enters the book *)

Lemma apply_keys_sign_clear (b : OrderBook) (e : Event double) :
  wf_keys b ->
  (forall k, In k (keys (bids_ b)) \/ In k (keys (asks_ b)) ->
             sign_clear k = true) ->
  forall k, In k (keys (bids_ (snd (apply b e))))
            \/ In k (keys (asks_ (snd (apply b e)))) ->
            sign_clear k = true.
Proof.
  intros (Ht & Hob & Hoa & _) Hs.
  rewrite apply_eq. destruct (fails_precondition e) eqn:Ha; [exact Hs|].
  destruct (accepted_facts e Ha) as (_ & _ & Hprice).
  cbn [snd].
  assert (Hsnap : type e <> Market ->
          isnan (snapped b e) = false /\ sign_clear (snapped b e) = true).
  { intros Hty. destruct (Hprice Hty) as [Hpf Hpos]. split.
    - apply round_to_tick_not_nan; assumption.
    - apply round_to_tick_sign_clear; assumption. }
  destruct (type e) eqn:Ety.
  - destruct (Hsnap ltac:(congruence)) as [Hpx Hsx].
    destruct (marketable b e), (side e); simpl; intros k [Hk|Hk]; auto.
    + apply consume_ask_keys in Hk; auto.
    + apply consume_bid_keys in Hk; auto.
    + apply (add_level_keys _ _ _ Hob Hpx) in Hk as [->|Hk]; auto.
    + apply (add_level_keys _ _ _ Hoa Hpx) in Hk as [->|Hk]; auto.
  - destruct (Hsnap ltac:(congruence)) as [Hpx Hsx].
    destruct (side e); simpl; intros k [Hk|Hk]; auto.
    + apply (remove_level_keys _ _ _ Hob Hpx) in Hk; auto.
    + apply (remove_level_keys _ _ _ Hoa Hpx) in Hk; auto.
  - destruct (side e); simpl; intros k [Hk|Hk]; auto.
    + apply consume_ask_keys in Hk; auto.
    + apply consume_bid_keys in Hk; auto.
Qed.

Lemma apply_all_keys_sign_clear (es : list (Event double)) : forall b,
  wf_keys b ->
  (forall k, In k (keys (bids_ b)) \/ In k (keys (asks_ b)) ->
             sign_clear k = true) ->
  forall k, In k (keys (bids_ (apply_all b es)))
            \/ In k (keys (asks_ (apply_all b es))) ->
            sign_clear k = true.
Proof.
  induction es as [|e r IH]; intros b Hwf Hs; simpl; [exact Hs|].
  apply IH.
  - apply apply_wf_keys, Hwf.
  - apply apply_keys_sign_clear; assumption.
Qed.

(** X1 (order_book.cpp, [round_to_tick] and [apply]): however a book was
    constructed and whatever events were applied to it, every price level
    it holds, on either side, has a price [>= 0.0]; in particular no level
    is ever keyed by NaN or by a negative price. *)
Theorem book_prices_nonnegative (tick_size : double)
    (es : list (Event double)) :
  let b := apply_all (create tick_size) es in
  Forall (fun kv => fge (fst kv) zero = true /\ isnan (fst kv) = false)
         (bids_ b ++ asks_ b).
Proof.
  intros b. apply Forall_forall. intros [k q] Hin. cbn [fst].
  assert (Hs : sign_clear k = true).
  { apply (apply_all_keys_sign_clear es (create tick_size)).
    - apply create_wf_keys.
    - simpl. intros k' [[]|[]].
    - apply in_app_or in Hin as [Hin|Hin]; [left|right];
        eapply in_keys; exact Hin. }
  split.
  - apply sign_clear_ge_zero, Hs.
  - destruct k as [[]|[]| |[] mx ex]; simpl in *; congruence.
Qed.

(** *** What [top] reports *)

Lemma in_find (m : side_map) : forall k v,
  ordered m = true -> In (k, v) m -> find m k = Some v.
Proof.
  induction m as [|[k0 v0] r IH]; intros k v Ho Hin; [destruct Hin|].
  pose proof (ordered_tail _ _ Ho) as Hr.
  simpl in Ho. apply andb_true_iff in Ho as [Hn Ha].
  destruct Hin as [E|Hin].
  - inversion E; subst. simpl. rewrite flt_irrefl. reflexivity.
  - pose proof (ascending_from_keys r k0 Ha k (in_keys _ _ _ Hin)) as Hlt.
    simpl. rewrite Hlt. apply IH; assumption.
Qed.

Lemma lt_or_eq_fle (k p : double) :
  isnan p = false -> k = p \/ flt k p = true -> fle k p = true.
Proof.
  intros Hn [->|H].
  - apply fle_spec. right. destruct p as [[]|[]| |[] m e]; simpl in *;
      try discriminate; try reflexivity;
      rewrite Z.compare_refl; try rewrite Pos.compare_cont_refl; reflexivity.
  - apply fle_spec. left. apply flt_spec. exact H.
Qed.

(** X2 (order_book.cpp, [top]): on a book reached from the constructor by
    any events, [top] reports a side as absent exactly when that side holds
    no level; otherwise the best bid is a level of the bid side whose price
    no other bid exceeds, the best ask a level of the ask side that no other
    ask undercuts, each with the quantity stored at that price; and the
    best bid is strictly below the best ask. *)
Theorem top_reports_extremes (tick_size : double) (es : list (Event double)) :
  let b := apply_all (create tick_size) es in
  match best_bid_price (top b), best_bid_qty (top b) with
  | Some p, Some q =>
      find (bids_ b) p = Some q /\
      Forall (fun kv => fle (fst kv) p = true) (bids_ b)
  | None, None => bids_ b = []
  | _, _ => False
  end /\
  match best_ask_price (top b), best_ask_qty (top b) with
  | Some p, Some q =>
      find (asks_ b) p = Some q /\
      Forall (fun kv => fle p (fst kv) = true) (asks_ b)
  | None, None => asks_ b = []
  | _, _ => False
  end /\
  match best_bid_price (top b), best_ask_price (top b) with
  | Some pb, Some pa => flt pb pa = true
  | _, _ => True
  end.
Proof.
  intros b.
  pose proof (apply_all_wf_keys es (create tick_size)
                (create_wf_keys tick_size)) as Hwf.
  fold b in Hwf. pose proof Hwf as (_ & Hob & Hoa & Hsep).
  unfold top. cbn [best_bid_price best_bid_qty best_ask_price best_ask_qty].
  repeat split.
  - destruct (back (bids_ b)) as [[p q]|] eqn:B; cbn [option_map fst snd].
    + split.
      * apply in_find; [exact Hob|]. apply back_in, B.
      * apply Forall_forall. intros [k v] Hin. cbn [fst].
        apply lt_or_eq_fle.
        -- exact (ordered_keys_not_nan _ Hob p
                    (in_keys _ _ _ (back_in _ _ _ B))).
        -- exact (back_greatest _ _ _ Hob B k (in_keys _ _ _ Hin)).
    + apply back_none, B.
  - destruct (front (asks_ b)) as [[p q]|] eqn:A; cbn [option_map fst snd].
    + split.
      * apply in_find; [exact Hoa|]. apply front_in, A.
      * apply Forall_forall. intros [k v] Hin. cbn [fst].
        pose proof (ordered_keys_not_nan _ Hoa k (in_keys _ _ _ Hin)) as Hk.
        destruct (front_least _ _ _ Hoa A k (in_keys _ _ _ Hin)) as [->|H].
        -- apply lt_or_eq_fle; auto.
        -- apply lt_or_eq_fle; auto.
    + apply front_none, A.
  - pose proof (wf_keys_uncrossed b Hwf) as Hu. unfold uncrossed, top in Hu.
    cbn [best_bid_price best_ask_price] in Hu.
    destruct (option_map fst (back (bids_ b))); [|exact I].
    destruct (option_map fst (front (asks_ b))); [exact Hu|exact I].
Qed.

(** *** A resting add, and taking it back *)

Lemma apply_resting_add (b : OrderBook) (e : Event double) :
  type e = Add -> fails_precondition e = false -> marketable b e = false ->
  snd (apply b e) =
    match side e with
    | Bid => with_bids b (add_level (bids_ b) (snapped b e) (quantity e))
    | Ask => with_asks b (add_level (asks_ b) (snapped b e) (quantity e))
    end.
Proof.
  intros Hty Ha Hm. rewrite apply_eq, Ha, Hty, Hm. cbn [snd].
  destruct (side e); reflexivity.
Qed.

Lemma add_level_find (m : side_map) (px : double) (q : Z) :
  0 < q ->
  add_level m px q =
    insert m px (Int32.add (match find m px with Some v => v | None => 0 end) q).
Proof.
  intros Hq. unfold add_level.
  destruct (q <=? 0) eqn:E; [apply Z.leb_le in E; lia|reflexivity].
Qed.

(** X3 (order_book.cpp, [add_level] through [apply]): an accepted add that
    does not cross the opposite best leaves at its snapped price the sum,
    in 32-bit [int] arithmetic, of what rested there and its own quantity;
    the levels at all other prices of its side keep their quantities, and
    the opposite side is untouched. *)
Theorem resting_add_lookup (b : OrderBook) (e : Event double) :
  type e = Add -> fails_precondition e = false -> marketable b e = false ->
  tick_ok b = true -> ordered (own_side b (side e)) = true ->
  let b' := snd (apply b e) in
  let px := snapped b e in
  fst (apply b e) = true /\
  find (own_side b' (side e)) px
    = Some (Int32.add (resting_qty b e) (quantity e)) /\
  (forall k, isnan k = false -> ~ equiv k px ->
             find (own_side b' (side e)) k = find (own_side b (side e)) k) /\
  opposite_side b' (side e) = opposite_side b (side e).
Proof.
  intros Hty Ha Hm Ht Ho b' px.
  destruct (accepted_facts e Ha) as (_ & Hq & Hprice).
  destruct (Hprice ltac:(congruence)) as [Hpf _].
  pose proof (round_to_tick_not_nan b (price e) Ht Hpf) as Hpx.
  fold (snapped b e) in Hpx. fold px in Hpx.
  split; [rewrite apply_eq, Ha; reflexivity|].
  subst b'. rewrite (apply_resting_add b e Hty Ha Hm).
  unfold resting_qty. fold px.
  destruct (side e); cbn [own_side opposite_side with_bids with_asks
                          bids_ asks_] in *;
    rewrite (add_level_find _ px _ Hq); repeat split;
    try apply find_insert_same;
    intros k Hk Hne; apply find_insert_other; assumption.
Qed.

Lemma erase_insert_absent (m : side_map) (p : double) (v : Z) :
  find m p = None -> erase (insert m p v) p = m.
Proof.
  induction m as [|[k w] r IH]; simpl; intros Hf.
  - rewrite flt_irrefl. reflexivity.
  - destruct (flt k p) eqn:E1; simpl.
    + rewrite E1. f_equal. apply IH, Hf.
    + destruct (flt p k) eqn:E2; [|discriminate].
      simpl. rewrite flt_irrefl. reflexivity.
Qed.

Lemma insert_insert_present (m : side_map) (p : double) (v v' : Z) :
  find m p = Some v -> insert (insert m p v') p v = m.
Proof.
  induction m as [|[k w] r IH]; simpl; intros Hf; [discriminate|].
  destruct (flt k p) eqn:E1; simpl.
  - rewrite E1. f_equal. apply IH, Hf.
  - destruct (flt p k) eqn:E2; [discriminate|].
    simpl. rewrite E1, E2. congruence.
Qed.

Lemma remove_after_add (m : side_map) (px : double) (q : Z) :
  levels_ok m = true -> 0 < q ->
  match find m px with Some v => v | None => 0 end + q <= Int32.INT_MAX ->
  remove_level_qty (add_level m px q) px q = m.
Proof.
  intros Hl Hq Hfit. rewrite (add_level_find _ _ _ Hq).
  unfold remove_level_qty.
  destruct (q <=? 0) eqn:E; [apply Z.leb_le in E; lia|].
  rewrite find_insert_same. unfold Int32.add, Int32.sub.
  destruct (find m px) as [v|] eqn:F.
  - destruct (find_in _ _ _ F) as (k & Hin & _).
    apply (levels_ok_in _ _ _ Hl), level_ok_bounds in Hin.
    rewrite (wrap_small (v + q)) by (unfold Int32.INT_MIN, Int32.INT_MAX in *; lia).
    replace (v + q - q) with v by lia.
    rewrite (wrap_small v) by (unfold Int32.INT_MIN, Int32.INT_MAX in *; lia).
    destruct (v <=? 0) eqn:E0; [apply Z.leb_le in E0; lia|].
    apply insert_insert_present, F.
  - rewrite (wrap_small (0 + q)) by (unfold Int32.INT_MIN, Int32.INT_MAX in *; lia).
    replace (0 + q - q) with 0 by lia.
    rewrite (wrap_small 0) by (unfold Int32.INT_MIN, Int32.INT_MAX; lia).
    simpl. apply erase_insert_absent, F.
Qed.

Lemma with_bids_same (b : OrderBook) : with_bids b (bids_ b) = b.
Proof. destruct b; reflexivity. Qed.

Lemma with_asks_same (b : OrderBook) : with_asks b (asks_ b) = b.
Proof. destruct b; reflexivity. Qed.

(** X4 (order_book.cpp, [add_level] then [remove_level_qty]): an accepted
    add that rests (its level staying within [INT_MAX]) followed by a
    cancel of the same side, price and quantity gives back exactly the book
    there was before the add: the level it joined has its old quantity, a
    level it created is gone. *)
Theorem add_then_cancel_restores (b : OrderBook) (e : Event double) :
  type e = Add -> fails_precondition e = false -> marketable b e = false ->
  levels_ok (own_side b (side e)) = true ->
  resting_qty b e + quantity e <= Int32.INT_MAX ->
  apply_all b [e; cancel_of e] = b /\
  fst (apply (snd (apply b e)) (cancel_of e)) = true.
Proof.
  intros Hty Ha Hm Hl Hfit.
  destruct (accepted_facts e Ha) as (Hfin & Hq & Hprice).
  destruct (Hprice ltac:(congruence)) as [Hpf Hpos].
  assert (Hc : fails_precondition (cancel_of e) = false).
  { unfold fails_precondition, cancel_of. cbn [t quantity type price].
    rewrite Hfin, Hpf, Hpos.
    destruct (quantity e <=? 0) eqn:E; [apply Z.leb_le in E; lia|reflexivity]. }
  split; [|rewrite apply_eq, Hc; reflexivity].
  unfold apply_all. cbn [fold_left].
  rewrite (apply_resting_add b e Hty Ha Hm).
  rewrite apply_eq, Hc. cbn [snd].
  change (type (cancel_of e)) with Cancel.
  change (side (cancel_of e)) with (side e).
  change (quantity (cancel_of e)) with (quantity e).
  unfold resting_qty in Hfit.
  destruct (side e); cbn [own_side] in *.
  - change (snapped (with_bids b (add_level (bids_ b) (snapped b e)
                                    (quantity e))) (cancel_of e))
      with (snapped b e).
    cbn [with_bids bids_ asks_ tick_size_].
    rewrite remove_after_add by assumption. destruct b; reflexivity.
  - change (snapped (with_asks b (add_level (asks_ b) (snapped b e)
                                    (quantity e))) (cancel_of e))
      with (snapped b e).
    cbn [with_asks bids_ asks_ tick_size_].
    rewrite remove_after_add by assumption. destruct b; reflexivity.
Qed.

(** *** How many levels an event can add *)

Lemma insert_length (m : side_map) (p : double) (v : Z) :
  (length (insert m p v) <= length m + 1)%nat.
Proof.
  induction m as [|[k w] r IH]; simpl; [lia|].
  destruct (flt k p); simpl; [lia|].
  destruct (flt p k); simpl; lia.
Qed.

Lemma erase_length (m : side_map) (p : double) :
  (length (erase m p) <= length m)%nat.
Proof.
  induction m as [|[k w] r IH]; simpl; [lia|].
  destruct (flt k p); simpl; [lia|].
  destruct (flt p k); simpl; lia.
Qed.

Lemma insert_length_present (m : side_map) (p : double) (v v' : Z) :
  find m p = Some v -> length (insert m p v') = length m.
Proof.
  intros H. rewrite <- (length_map fst (insert m p v')).
  fold (keys (insert m p v')). rewrite (keys_insert_present _ _ _ _ H).
  apply length_map.
Qed.

Lemma add_level_length (m : side_map) (px : double) (q : Z) :
  (length (add_level m px q) <= length m + 1)%nat.
Proof.
  unfold add_level. destruct (q <=? 0); [lia|apply insert_length].
Qed.

Lemma remove_level_length (m : side_map) (px : double) (q : Z) :
  (length (remove_level_qty m px q) <= length m)%nat.
Proof.
  unfold remove_level_qty. destruct (q <=? 0); [lia|].
  destruct (find m px) as [v|] eqn:F; [|lia].
  destruct (Int32.sub v q <=? 0); [apply erase_length|].
  rewrite (insert_length_present _ _ _ _ F). lia.
Qed.

Lemma consume_length (m : side_map) : forall q,
  (length (consume_best_first m q) <= length m)%nat.
Proof.
  induction m as [|[p a] r IH]; intros q; simpl.
  - destruct (q <=? 0); simpl; lia.
  - destruct (q <=? 0); simpl; [lia|].
    destruct (q <? a); simpl; [lia|].
    specialize (IH (Int32.sub q a)). lia.
Qed.

Lemma consume_bid_length (m : side_map) (q : Z) :
  (length (consume_best_bid m q) <= length m)%nat.
Proof.
  unfold consume_best_bid. rewrite length_rev.
  pose proof (consume_length (rev m) q) as H. rewrite length_rev in H. exact H.
Qed.

(** X5 (order_book.h, [bid_levels] and [ask_levels]; order_book.cpp,
    [apply]): one event raises the number of price levels of the book by at
    most one, and only a resting add can raise it: a cancel, a market
    order, a crossing add or a rejected event never adds a level to either
    side, and no event adds a level to the side opposite to its own. *)
Theorem apply_level_counts (b : OrderBook) (e : Event double) :
  let b' := snd (apply b e) in
  (bid_levels b' + ask_levels b' <= bid_levels b + ask_levels b + 1)%nat /\
  (rests b e = false ->
   (bid_levels b' <= bid_levels b)%nat /\
   (ask_levels b' <= ask_levels b)%nat) /\
  (length (opposite_side b' (side e))
   <= length (opposite_side b (side e)))%nat.
Proof.
  intros b'. subst b'. unfold bid_levels, ask_levels, rests, is_add.
  rewrite apply_eq.
  destruct (fails_precondition e) eqn:Ha; cbn [snd negb andb].
  { repeat split; intros; lia. }
  pose proof (add_level_length (bids_ b) (snapped b e) (quantity e)).
  pose proof (add_level_length (asks_ b) (snapped b e) (quantity e)).
  pose proof (remove_level_length (bids_ b) (snapped b e) (quantity e)).
  pose proof (remove_level_length (asks_ b) (snapped b e) (quantity e)).
  pose proof (consume_length (asks_ b) (quantity e)).
  pose proof (consume_bid_length (bids_ b) (quantity e)).
  unfold consume_best_ask.
  destruct (type e), (side e); try destruct (marketable b e);
    cbn [negb andb opposite_side with_bids with_asks bids_ asks_];
    repeat split; intros; try discriminate; lia.
Qed.

(** *** Market orders in a row *)

Lemma consume_add (m : side_map) : forall q1 q2,
  levels_ok m = true -> 0 <= q1 -> 0 <= q2 -> q1 + q2 <= Int32.INT_MAX ->
  consume_best_first (consume_best_first m q1) q2
  = consume_best_first m (q1 + q2).
Proof.
  induction m as [|[p a] r IH]; intros q1 q2 Hl H1 H2 Hs.
  - simpl. destruct (q1 <=? 0), (q1 + q2 <=? 0); simpl;
      destruct (q2 <=? 0); reflexivity.
  - simpl in Hl. apply andb_true_iff in Hl as [Ha Hr].
    apply level_ok_bounds in Ha. cbn [snd] in Ha.
    cbn [consume_best_first].
    destruct (q1 <=? 0) eqn:E1.
    { apply Z.leb_le in E1. replace q1 with 0 by lia. reflexivity. }
    apply Z.leb_gt in E1.
    destruct (q1 + q2 <=? 0) eqn:E3; [apply Z.leb_le in E3; lia|].
    unfold Int32.sub.
    destruct (q1 <? a) eqn:E4.
    + apply Z.ltb_lt in E4.
      rewrite (wrap_small (a - q1))
        by (unfold Int32.INT_MIN, Int32.INT_MAX in *; lia).
      cbn [consume_best_first].
      destruct (q2 <=? 0) eqn:E2.
      { apply Z.leb_le in E2. replace q2 with 0 by lia.
        rewrite Z.add_0_r.
        destruct (q1 <? a) eqn:E5; [|apply Z.ltb_ge in E5; lia].
        rewrite (wrap_small (a - q1))
          by (unfold Int32.INT_MIN, Int32.INT_MAX in *; lia).
        reflexivity. }
      apply Z.leb_gt in E2. unfold Int32.sub.
      destruct (q2 <? a - q1) eqn:E5.
      * apply Z.ltb_lt in E5.
        destruct (q1 + q2 <? a) eqn:E6; [|apply Z.ltb_ge in E6; lia].
        rewrite (wrap_small (a - q1 - q2)), (wrap_small (a - (q1 + q2)))
          by (unfold Int32.INT_MIN, Int32.INT_MAX in *; lia).
        f_equal. f_equal. lia.
      * apply Z.ltb_ge in E5.
        destruct (q1 + q2 <? a) eqn:E6; [apply Z.ltb_lt in E6; lia|].
        rewrite (wrap_small (q2 - (a - q1))), (wrap_small (q1 + q2 - a))
          by (unfold Int32.INT_MIN, Int32.INT_MAX in *; lia).
        f_equal. lia.
    + apply Z.ltb_ge in E4.
      destruct (q1 + q2 <? a) eqn:E6; [apply Z.ltb_lt in E6; lia|].
      rewrite (wrap_small (q1 - a)), (wrap_small (q1 + q2 - a))
        by (unfold Int32.INT_MIN, Int32.INT_MAX in *; lia).
      rewrite IH by (try assumption; lia). f_equal. lia.
Qed.


Lemma apply_market (b : OrderBook) (now : double) (sd : Side) (q : Z) :
  isfinite now = true -> 0 < q ->
  apply b (market now sd q) =
    (true,
     match sd with
     | Bid => with_asks b (consume_best_ask (asks_ b) q)
     | Ask => with_bids b (consume_best_bid (bids_ b) q)
     end).
Proof.
  intros Hn Hq. rewrite apply_eq. unfold fails_precondition, market.
  cbn [t type side quantity price]. rewrite Hn.
  destruct (q <=? 0) eqn:E; [apply Z.leb_le in E; lia|].
  destruct sd; reflexivity.
Qed.

(** X6 (order_book.cpp, [consume_best_ask], [consume_best_bid]): two market
    orders of the same side in a row leave the book that one market order
    of the summed quantity leaves, as long as the sum is an [int] and the
    side they take from holds positive quantities. *)
Theorem market_orders_add_up (b : OrderBook) (sd : Side)
    (t1 t2 t3 : double) (q1 q2 : Z) :
  isfinite t1 = true -> isfinite t2 = true -> isfinite t3 = true ->
  0 < q1 -> 0 < q2 -> q1 + q2 <= Int32.INT_MAX ->
  levels_ok (opposite_side b sd) = true ->
  apply_all b [market t1 sd q1; market t2 sd q2]
  = apply_all b [market t3 sd (q1 + q2)].
Proof.
  intros H1 H2 H3 Hq1 Hq2 Hs Hl. unfold apply_all. cbn [fold_left].
  rewrite !apply_market by (assumption || lia). cbn [snd].
  destruct sd; cbn [opposite_side] in Hl.
  - unfold with_asks, consume_best_ask. cbn [tick_size_ bids_ asks_].
    rewrite consume_add by (assumption || lia). reflexivity.
  - unfold with_bids, consume_best_bid. cbn [tick_size_ bids_ asks_].
    rewrite rev_involutive, consume_add
      by (try rewrite levels_ok_rev; assumption || lia).
    reflexivity.
Qed.


(** *** The constructor of the book *)

Lemma apply_tick_size (b : OrderBook) (e : Event double) :
  tick_size_ (snd (apply b e)) = tick_size_ b.
Proof.
  rewrite apply_eq. destruct (fails_precondition e); [reflexivity|].
  cbn [snd]. destruct (type e), (side e); try destruct (marketable b e);
    reflexivity.
Qed.

Lemma apply_all_tick_size (es : list (Event double)) : forall b,
  tick_size_ (apply_all b es) = tick_size_ b.
Proof.
  induction es as [|e r IH]; intros b; [reflexivity|].
  change (apply_all b (e :: r)) with (apply_all (snd (apply b e)) r).
  rewrite IH. apply apply_tick_size.
Qed.

(** X8 (order_book.cpp, the constructor; order_book.h, [tick_size],
    [bid_levels], [ask_levels]): a book starts with no level on either
    side; its tick is the constructor's argument when that is finite and
    above zero and 0.1 otherwise (zero, negative, infinite or NaN), and
    that tick, always finite and positive, is what [tick_size] returns
    after any events. *)
Theorem constructor_tick (ts : double) (es : list (Event double)) :
  bid_levels (create ts) = 0%nat /\ ask_levels (create ts) = 0%nat /\
  top (create ts) = mkTopOfBook None None None None /\
  let b := apply_all (create ts) es in
  tick_size b = (if isfinite ts && fgt ts zero then ts else lit 1 1) /\
  isfinite (tick_size b) = true /\ fgt (tick_size b) zero = true.
Proof.
  split; [reflexivity|]. split; [reflexivity|]. split; [reflexivity|].
  cbv zeta. unfold tick_size. rewrite apply_all_tick_size.
  unfold create. cbn [tick_size_].
  destruct (fgt ts zero) eqn:E1, (isfinite ts) eqn:E2; cbn [negb orb andb];
    repeat split; try assumption; reflexivity.
Qed.
Import EngineProps.

(* ================================================================== *)
(** * The engine, whatever the arithmetic *)
(* ================================================================== *)

Section EngineFrame.

Import Hawkes.

Context {F G : Type} {num : Num F} {rng : Rng F G}.

Lemma existsb_nth {A : Type} (f : A -> bool) (d : A) (l : list A) :
  existsb (fun i => f (nth i l d)) (seq 0 (length l)) = existsb f l.
Proof.
  induction l as [|x r IH]; [reflexivity|].
  cbn [length]. rewrite <- cons_seq, <- seq_shift. cbn [existsb nth].
  f_equal. rewrite <- IH. clear IH.
  induction (seq 0 (length r)) as [|i s IHs]; [reflexivity|].
  cbn [map existsb nth]. rewrite IHs. reflexivity.
Qed.

Lemma existsb_false_Forall {A : Type} (f : A -> bool) (l : list A) :
  existsb f l = false <-> Forall (fun x => f x = false) l.
Proof.
  induction l as [|x r IH]; simpl.
  - split; [constructor|reflexivity].
  - rewrite orb_false_iff, IH. split.
    + intros [H1 H2]. constructor; assumption.
    + intros H. inversion H; subst. split; assumption.
Qed.

Lemma map_nth_seq {A : Type} (l : list A) (d : A) :
  map (fun i => nth i l d) (seq 0 (length l)) = l.
Proof.
  induction l as [|x r IH]; [reflexivity|].
  cbn [length]. rewrite <- cons_seq, <- seq_shift. cbn [map nth].
  f_equal. rewrite map_map. exact IH.
Qed.

Lemma existsb_nth2 (f g : list F -> bool) (a b : list (list F)) :
  length b = length a ->
  existsb (fun i => f (nth i a []) || g (nth i b [])) (seq 0 (length a))
  = existsb f a || existsb g b.
Proof.
  intros Hl.
  rewrite <- (existsb_nth f [] a), <- (existsb_nth g [] b), Hl.
  induction (seq 0 (length a)) as [|i s IH]; [reflexivity|].
  cbn [existsb]. rewrite IH.
  destruct (f (nth i a [])), (g (nth i b [])),
    (existsb (fun i => f (nth i a [])) s),
    (existsb (fun i => g (nth i b [])) s); reflexivity.
Qed.

(** X9 (hawkes_multivariate_process.cpp, the constructor): the
    constructor succeeds exactly when [mu] has six entries, all finite and
    above zero, and [alpha] and [beta] are six rows of six entries; it then
    starts with no excitation, intensities equal to the baselines, unit
    weights and the clock at zero.  Any other argument is refused with
    [std::invalid_argument]; the entries of [alpha] and [beta] themselves
    are not looked at. *)
Theorem constructor_validates (mu : list F) (alpha beta : list (list F))
    (qty_min qty_max seed : Z) :
  match create mu alpha beta qty_min qty_max seed with
  | Ok p =>
      valid_arguments mu alpha beta /\
      p = mkProcess 6 mu alpha beta (repeat n0 6) mu (repeat n1 6) n0
            (mt19937 seed) qty_min qty_max
  | Raise err =>
      err = InvalidArgument /\ ~ valid_arguments mu alpha beta
  end.
Proof.
  unfold create, valid_arguments. cbv zeta.
  destruct (Nat.eqb (length mu) 6) eqn:E1; cbn [negb].
  2:{ apply Nat.eqb_neq in E1. split; [reflexivity|]. tauto. }
  apply Nat.eqb_eq in E1. rewrite E1.
  destruct (Nat.eqb (length alpha) 6) eqn:E2; cbn [negb orb].
  2:{ apply Nat.eqb_neq in E2. split; [reflexivity|]. tauto. }
  destruct (Nat.eqb (length beta) 6) eqn:E3; cbn [negb orb].
  2:{ apply Nat.eqb_neq in E3. split; [reflexivity|]. tauto. }
  apply Nat.eqb_eq in E2, E3.
  pose proof (existsb_nth2 (fun r => negb (Nat.eqb (length r) 6))
                (fun r => negb (Nat.eqb (length r) 6)) alpha beta
                ltac:(congruence)) as Hrows.
  rewrite E2 in Hrows. cbv beta in Hrows. rewrite Hrows. clear Hrows.
  destruct (existsb _ alpha || existsb _ beta) eqn:E4.
  { split; [reflexivity|]. intros (_ & _ & _ & Ha & Hb & _).
    apply orb_true_iff in E4 as [E4|E4];
      apply existsb_exists in E4 as (r & Hin & Hr);
      apply negb_true_iff, Nat.eqb_neq in Hr; apply Hr;
      [exact (proj1 (Forall_forall _ _) Ha r Hin)
      |exact (proj1 (Forall_forall _ _) Hb r Hin)]. }
  apply orb_false_iff in E4 as [E4 E5].
  apply existsb_false_Forall in E4, E5.
  pose proof (existsb_nth (fun m => negb (nfinite m) || nle m n0) n0 mu)
    as Hmu.
  rewrite E1 in Hmu. cbv beta in Hmu. unfold at_. rewrite Hmu. clear Hmu.
  destruct (existsb _ mu) eqn:E6.
  { split; [reflexivity|]. intros (_ & _ & _ & _ & _ & Hm).
    apply existsb_exists in E6 as (m & Hin & Hr).
    destruct (proj1 (Forall_forall _ _) Hm m Hin) as [H1 H2].
    rewrite H1, H2 in Hr. discriminate. }
  apply existsb_false_Forall in E6.
  split.
  - repeat split; try assumption.
    + eapply Forall_impl; [|exact E4]. cbv beta. intros r Hr.
      apply negb_false_iff, Nat.eqb_eq in Hr. exact Hr.
    + eapply Forall_impl; [|exact E5]. cbv beta. intros r Hr.
      apply negb_false_iff, Nat.eqb_eq in Hr. exact Hr.
    + eapply Forall_impl; [|exact E6]. cbv beta. intros m Hr.
      apply orb_false_iff in Hr as [H1 H2].
      apply negb_false_iff in H1. split; assumption.
  - f_equal. f_equal. rewrite <- E1. apply map_nth_seq.
Qed.

Lemma same_parameters_refl (p : HawkesMultivariateProcess F G) :
  same_parameters p p.
Proof. repeat split. Qed.

Lemma same_parameters_trans (p q r : HawkesMultivariateProcess F G) :
  same_parameters p q -> same_parameters q r -> same_parameters p r.
Proof.
  unfold same_parameters. intros (A1 & A2 & A3 & A4 & A5 & A6)
    (B1 & B2 & B3 & B4 & B5 & B6).
  repeat split; congruence.
Qed.

Lemma decay_to_same (p : HawkesMultivariateProcess F G) (now : F) :
  same_parameters p (decay_to p now) /\
  w_ (decay_to p now) = w_ p /\ rng_ (decay_to p now) = rng_ p.
Proof.
  unfold decay_to. destruct (nle now (last_time_ p)); repeat split.
Qed.

Lemma propose_same (p : HawkesMultivariateProcess F G) (ct : F) :
  same_parameters p (at_cand (propose p ct)) /\
  w_ (at_cand (propose p ct)) = w_ p.
Proof.
  unfold propose.
  destruct (uniform_real01 (rng_ p)) as [u1 g1].
  set (p1 := decay_to (with_rng p g1) _).
  destruct (uniform_real01 (rng_ p1)) as [u g2]. cbn [at_cand].
  destruct (decay_to_same (with_rng p g1)
              (nadd ct (ndiv (nneg (nlog u1)) (total_weighted_intensity p))))
    as (Hs & Hw & _).
  fold p1 in Hs, Hw. unfold same_parameters in *. cbn in *.
  intuition congruence.
Qed.

Lemma accept_shape (c : Candidate F G) :
  let p := at_cand c in
  let e := fst (accept c) in
  let p' := snd (accept c) in
  same_parameters p p' /\
  length (s_ p') = dim_ p /\ length (lambda_ p') = dim_ p /\
  w_ p' = w_ p /\
  t e = cand_time c /\ price e = n0 /\
  (exists g, quantity e = fst (uniform_int (qty_min_ p) (qty_max_ p) g)) /\
  (type e, side e) = category (fst (sample_dimension_weighted p)).
Proof.
  cbv zeta. unfold accept.
  destruct (sample_dimension_weighted (at_cand c)) as [k g].
  set (p1 := excite _ k).
  destruct (uniform_int (qty_min_ p1) (qty_max_ p1) (rng_ p1)) as [q g'] eqn:E.
  destruct (category k) as [ty sd] eqn:Ec.
  cbn [fst snd t price quantity type side].
  subst p1. cbn -[category] in *.
  repeat split; try (rewrite length_map, length_seq; reflexivity);
    try (symmetry; exact Ec).
  exists g. rewrite E. reflexivity.
Qed.

Lemma thinning_shape (fuel : nat) :
  forall (p p' : HawkesMultivariateProcess F G) (ct : F) (e : Event F),
  thinning fuel p ct = Ok (e, p') ->
  same_parameters p p' /\
  length (s_ p') = dim_ p /\ length (lambda_ p') = dim_ p /\
  length (w_ p') = length (w_ p) /\
  price e = n0 /\
  exists g, quantity e = fst (uniform_int (qty_min_ p) (qty_max_ p) g).
Proof.
  induction fuel as [|fuel IH]; intros p p' ct e H; [discriminate|].
  cbn [thinning] in H.
  destruct (negb (nlt n0 (total_weighted_intensity p))).
  - apply IH in H. cbn in H. unfold same_parameters in *. cbn in H.
    rewrite length_map in H. exact H.
  - destruct (propose_same p ct) as (Hs & Hw).
    destruct (nle _ _).
    + inversion H as [E]. clear H.
      destruct (accept_shape (propose p ct))
        as (As & A1 & A2 & A3 & _ & A5 & A6 & _).
      rewrite E in *. cbn [fst snd] in *.
      destruct Hs as (D & M & Al & Be & Q1 & Q2).
      rewrite D, Q1, Q2 in *.
      repeat split; try congruence;
        try (destruct As as (? & ? & ? & ? & ? & ?); congruence).
    + apply IH in H.
      destruct Hs as (D & M & Al & Be & Q1 & Q2).
      rewrite D, Q1, Q2, Hw in H.
      destruct H as (Hs' & H).
      split; [|exact H].
      eapply same_parameters_trans; [|exact Hs'].
      repeat split; assumption.
Qed.

(** X10 (hawkes_multivariate_process.cpp, [next]): a call of [next] that
    returns leaves the dimension, [mu], [alpha], [beta] and the quantity
    range as they were and the state vectors at the size of the dimension;
    the event it returns has price 0.0 and a quantity drawn from the
    quantity range, so a quantity within [qty_min, qty_max] when these
    are in order. *)
Theorem next_frame (fuel : nat) (p p' : HawkesMultivariateProcess F G)
    (now : F) (e : Event F) :
  next fuel p now = Ok (e, p') ->
  same_parameters p p' /\
  length (s_ p') = dim_ p /\ length (lambda_ p') = dim_ p /\
  length (w_ p') = length (w_ p) /\
  price e = n0 /\
  (int_draws_in_range rng -> qty_min_ p <= qty_max_ p ->
   qty_min_ p <= quantity e <= qty_max_ p).
Proof.
  unfold next. intros H. apply thinning_shape in H.
  destruct (decay_to_same p now) as (Hs & Hw & _).
  destruct Hs as (D & M & Al & Be & Q1 & Q2).
  rewrite D, Q1, Q2, Hw in H.
  destruct H as (Hs' & H1 & H2 & H3 & H4 & g & H5).
  split; [|split; [|split; [|split; [|split]]]]; try assumption.
  - eapply same_parameters_trans; [|exact Hs']. repeat split; assumption.
  - intros Hr Hq. rewrite H5. apply Hr, Hq.
Qed.

End EngineFrame.

(* ================================================================== *)
(** * The engine on binary64 *)
(* ================================================================== *)

Section EngineBinary64.

Import Hawkes.

Variables exp log : double -> double.

Context {G : Type} {rng : Rng double G}.

Lemma positive_or_replaced (x : double) :
  (if negb (isfinite x) || fle x zero then of_int 1 else x)
  = (if isfinite x && fgt x zero then x else of_int 1) /\
  isfinite (if negb (isfinite x) || fle x zero then of_int 1 else x) = true /\
  fgt (if negb (isfinite x) || fle x zero then of_int 1 else x) zero = true.
Proof.
  destruct (isfinite x) eqn:Ef; cbn [negb orb andb].
  - pose proof (finite_not_nan x Ef) as Hn.
    destruct (fle x zero) eqn:El.
    + assert (Hg : fgt x zero = false).
      { unfold fgt. destruct (SFltb zero x) eqn:E; [|reflexivity].
        pose proof (fle_flt_trans x zero x El E) as C.
        rewrite flt_irrefl in C. discriminate. }
      rewrite Hg. repeat split; reflexivity.
    + assert (Hg : fgt x zero = true).
      { apply fle_false_flt; [exact Hn|reflexivity|exact El]. }
      rewrite Hg. repeat split; assumption.
  - repeat split; reflexivity.
Qed.

(** X11 (hawkes_multivariate_process.cpp, [set_weights]): a weight
    vector whose size is not the dimension is refused with
    [std::invalid_argument]; otherwise each entry is stored as given when
    it is finite and above zero and as 1.0 when it is not (zero, negative,
    infinite, NaN), so every stored weight is finite and positive, and
    nothing else of the engine changes. *)
Theorem set_weights_sanitises (p : HawkesMultivariateProcess double G)
    (w : list double) :
  match set_weights (num := F64_num exp log) p w with
  | Raise err => err = InvalidArgument /\ length w <> dim_ p
  | Ok p' =>
      length w = dim_ p /\
      w_ p' = map (fun x => if isfinite x && fgt x zero then x else of_int 1)
                  w /\
      Forall (fun x => isfinite x = true /\ fgt x zero = true) (w_ p') /\
      same_parameters p p' /\
      s_ p' = s_ p /\ lambda_ p' = lambda_ p /\
      last_time_ p' = last_time_ p /\ rng_ p' = rng_ p
  end.
Proof.
  unfold set_weights.
  destruct (Nat.eqb (length w) (dim_ p)) eqn:E; cbn [negb].
  - apply Nat.eqb_eq in E. cbn [w_ s_ lambda_ last_time_ rng_].
    split; [exact E|]. split.
    + apply map_ext. intros x. apply (positive_or_replaced x).
    + split; [|repeat split].
      apply Forall_forall. intros y Hy. apply in_map_iff in Hy as (x & <- & _).
      apply (positive_or_replaced x).
  - apply Nat.eqb_neq in E. split; [reflexivity|exact E].
Qed.

Lemma total_without_intensity (p : HawkesMultivariateProcess double G) :
  (forall i, (i < dim_ p)%nat ->
             fgt (at_ (num := F64_num exp log) (lambda_ p) i) zero = false) ->
  total_weighted_intensity (num := F64_num exp log) p = zero.
Proof.
  intros H. unfold total_weighted_intensity.
  assert (Hin : forall i, In i (seq 0 (dim_ p)) -> (i < dim_ p)%nat).
  { intros i Hi. apply in_seq in Hi. lia. }
  revert Hin. generalize (seq 0 (dim_ p)).
  intros l. change (@n0 double (F64_num exp log)) with zero.
  induction l as [|i l IH]; intros Hin; [reflexivity|].
  cbn [fold_left].
  change (nlt zero (at_ (num := F64_num exp log) (lambda_ p) i))
    with (fgt (at_ (num := F64_num exp log) (lambda_ p) i) zero).
  rewrite (H i) by (apply Hin; left; reflexivity).
  apply IH. intros j Hj. apply Hin. right. exact Hj.
Qed.

Lemma thinning_without_intensity (fuel : nat) :
  forall (p : HawkesMultivariateProcess double G) (ct : double),
  (forall i, (i < dim_ p)%nat ->
             fgt (at_ (num := F64_num exp log) (lambda_ p) i) zero = false) ->
  thinning (num := F64_num exp log) fuel p ct = Raise NoAcceptance.
Proof.
  induction fuel as [|fuel IH]; intros p ct H; [reflexivity|].
  cbn [thinning]. rewrite (total_without_intensity p H).
  change (nlt n0 zero) with (flt zero zero). rewrite flt_irrefl.
  cbn [negb]. apply IH. exact H.
Qed.

(** X12 (hawkes_multivariate_process.cpp, [next]): when, at the time
    asked for, no dimension has an intensity above zero, [next] does not
    return: each turn of its loop resets the weights and starts over
    without drawing a candidate, whatever the number of turns. *)
Theorem next_spins_without_intensity
    (p : HawkesMultivariateProcess double G) (now : double) :
  (forall i, (i < dim_ p)%nat ->
     fgt (at_ (num := F64_num exp log)
              (lambda_ (decay_to (num := F64_num exp log) p now)) i) zero
     = false) ->
  forall fuel,
    next (num := F64_num exp log) fuel p now = Raise NoAcceptance.
Proof.
  intros H fuel. unfold next. apply thinning_without_intensity.
  intros i Hi. apply H.
  destruct (decay_to_same (num := F64_num exp log) p now) as ((D & _) & _).
  rewrite <- D. exact Hi.
Qed.

End EngineBinary64.

(* ================================================================== *)
(** * More on the engine over the reals *)
(* ================================================================== *)

Section RealClock.

Import Hawkes.

Context {G : Type} {rng : Rng R G}.

Local Open Scope R_scope.

Lemma decay_to_last_time (p : HawkesMultivariateProcess R G) (now : R) :
  last_time_ (decay_to p now) = Rmax (last_time_ p) now.
Proof.
  unfold decay_to. cbn [nle R_num]. unfold Rleb.
  destruct (Rle_dec now (last_time_ p)) as [H|H]; cbn [last_time_].
  - rewrite Rmax_left by exact H. reflexivity.
  - rewrite Rmax_right by lra. reflexivity.
Qed.


Lemma propose_last_time (p : HawkesMultivariateProcess R G) (ct : R) :
  last_time_ (at_cand (propose p ct))
  = Rmax (last_time_ p) (cand_time (propose p ct)).
Proof.
  unfold propose. destruct (uniform_real01 (rng_ p)) as [u1 g1].
  set (cand := nadd ct _).
  destruct (uniform_real01 (rng_ (decay_to (with_rng p g1) cand))) as [u g2].
  cbn [at_cand cand_time]. unfold with_rng at 1. cbn [last_time_].
  rewrite decay_to_last_time. reflexivity.
Qed.

Lemma accept_last_time (c : Candidate R G) :
  last_time_ (snd (accept c)) = last_time_ (at_cand c).
Proof.
  unfold accept. destruct (sample_dimension_weighted (at_cand c)) as [k g].
  destruct (uniform_int _ _ _) as [q g']. destruct (category k). reflexivity.
Qed.

Lemma thinning_clock (fuel : nat) :
  unit_interval_draws rng ->
  forall (p : HawkesMultivariateProcess R G) ct e p',
  last_time_ p <= ct ->
  thinning fuel p ct = Ok (e, p') -> last_time_ p' = t e.
Proof.
  intros Hu. induction fuel as [|fuel IH]; intros p ct e p' Hl H; simpl in H;
    [discriminate|].
  destruct (Rltb 0 (total_weighted_intensity p)) eqn:E; simpl in H.
  - apply Rltb_spec in E. pose proof (propose_later p ct Hu E) as Hc.
    pose proof (propose_last_time p ct) as Hp.
    rewrite Rmax_right in Hp by lra.
    destruct (Rleb _ _).
    + injection H as H.
      pose proof (accept_time (propose p ct)) as Ht.
      pose proof (accept_last_time (propose p ct)) as Ha.
      rewrite H in Ht, Ha. cbn [fst snd] in Ht, Ha. congruence.
    + apply IH in H; [exact H|]. lra.
  - apply IH in H; [exact H|]. exact Hl.
Qed.

(** X14 (hawkes_multivariate_process.cpp, [next]): over the reals, with
    unit-interval draws in [0, 1), a call of [next] at a time that is not
    before the engine's clock leaves the clock at the time of the event it
    returns.  The simulator passes that time to the following call, so
    this is the state in which every call of the loop finds the engine. *)
Theorem next_sets_clock (fuel : nat) (p p' : HawkesMultivariateProcess R G)
    (now : R) (e : Event R) :
  unit_interval_draws rng ->
  last_time_ p <= now ->
  next fuel p now = Ok (e, p') ->
  last_time_ p' = t e /\ last_time_ p <= last_time_ p'.
Proof.
  intros Hu Hl H. unfold next in H.
  assert (Hd : last_time_ (decay_to p now) <= now).
  { rewrite decay_to_last_time, Rmax_right by exact Hl. lra. }
  pose proof (thinning_clock fuel Hu _ _ _ _ Hd H) as Hc.
  pose proof (thinning_later fuel Hu _ _ _ _ H) as Ht.
  split; [exact Hc|]. lra.
Qed.

End RealClock.

Section RealIntensity.

Import Hawkes.

Context {G : Type} {rng : Rng R G}.

Local Open Scope R_scope.










End RealIntensity.

Section RealSampler.

Import Hawkes.

Context {G : Type} {rng : Rng R G}.

Local Open Scope R_scope.

Lemma cumulative_S (p : HawkesMultivariateProcess R G) (k : nat) :
  cumulative p (S k) = cumulative p k + term p k.
Proof.
  unfold cumulative. rewrite seq_S, fold_left_app. reflexivity.
Qed.

Lemma cumulative_total (p : HawkesMultivariateProcess R G) :
  cumulative p (dim_ p) = total_weighted_intensity p.
Proof. symmetry. apply total_as_sum. Qed.

Lemma sample_walk_spec (p : HawkesMultivariateProcess R G) (u : R) :
  valid_state p -> dim_ p <> 0%nat -> u < cumulative p (dim_ p) ->
  forall n i, (i + n = dim_ p)%nat ->
  (forall j, (j < i)%nat -> cumulative p (S j) < u) ->
  let k := sample_walk p u (cumulative p i) (seq i n) in
  (k < dim_ p)%nat /\ u <= cumulative p (S k) /\
  forall j, (j < k)%nat -> cumulative p (S j) < u.
Proof.
  intros Hv Hd Hu. induction n as [|n IH]; intros i Hn Hbelow.
  - exfalso. rewrite Nat.add_0_r in Hn. subst i.
    destruct (dim_ p) as [|d] eqn:E; [congruence|].
    pose proof (Hbelow d ltac:(lia)). lra.
  - cbn [seq sample_walk].
    assert (Hi : (i < dim_ p)%nat) by lia.
    destruct (Hv i Hi) as (H1 & H2 & H3 & H4 & H5).
    cbn [nle n0 nadd nmul R_num].
    rewrite Rleb_false by lra.
    assert (Hacc : cumulative p i + at_ (w_ p) i * at_ (lambda_ p) i
                   = cumulative p (S i)).
    { rewrite cumulative_S. unfold term. rewrite Rltb_true by lra.
      reflexivity. }
    rewrite Hacc.
    destruct (Rle_dec u (cumulative p (S i))) as [Hle|Hgt].
    + rewrite Rleb_true by exact Hle. repeat split; assumption.
    + rewrite Rleb_false by lra. apply IH; [lia|].
      intros j Hj. destruct (Nat.eq_dec j i) as [->|Hne]; [lra|].
      apply Hbelow. lia.
Qed.

(** X17 (hawkes_multivariate_process.cpp, [sample_dimension_weighted]):
    over the reals, on a state with positive weights and intensities and a
    unit-interval draw [u01] in [0, 1), the sampler returns the first
    dimension [k] at which the running sum of the weighted intensities
    reaches [u01 * total]: it is a dimension of the engine, the sum up to
    and including [k] is at least the scaled draw, and the sum up to any
    earlier dimension is below it.  One draw is taken from the
    generator. *)
Theorem sampler_inverts_cumulative (p : HawkesMultivariateProcess R G) :
  unit_interval_draws rng -> valid_state p -> dim_ p <> 0%nat ->
  let k := fst (sample_dimension_weighted p) in
  let u := fst (uniform_real01 (rng_ p)) * total_weighted_intensity p in
  (k < dim_ p)%nat /\
  u <= cumulative p (S k) /\
  (forall j, (j < k)%nat -> cumulative p (S j) < u) /\
  snd (sample_dimension_weighted p) = snd (uniform_real01 (rng_ p)).
Proof.
  intros Hu Hv Hd k u. subst k u. unfold sample_dimension_weighted.
  pose proof (total_pos p Hv Hd) as Hpos.
  cbn [nlt n0 nmul R_num]. rewrite (Rltb_true _ _ Hpos). cbn [negb].
  pose proof (Hu (rng_ p)) as [Hu0 Hu1].
  destruct (uniform_real01 (rng_ p)) as [u01 g]. cbn [fst snd] in *.
  assert (Hlt : u01 * total_weighted_intensity p < cumulative p (dim_ p)).
  { rewrite cumulative_total.
    rewrite <- (Rmult_1_l (total_weighted_intensity p)) at 2.
    apply Rmult_lt_compat_r; assumption. }
  pose proof (sample_walk_spec p _ Hv Hd Hlt (dim_ p) 0%nat
                ltac:(lia) ltac:(intros j Hj; lia)) as H.
  change (cumulative p 0) with 0 in H. cbv zeta in H.
  destruct H as (H1 & H2 & H3). repeat split; assumption.
Qed.

End RealSampler.
Import SimProps.

(* ================================================================== *)
(** * The simulator: weights, safety net, loop *)
(* ================================================================== *)

Lemma clamp_weight_range (x : double) :
  weight_in_range (Sim.clamp_weight x) = true.
Proof.
  unfold Sim.clamp_weight, weight_in_range.
  assert (Hlo : weight_in_range (lit 5 2) = true) by (vm_compute; reflexivity).
  assert (Hhi : weight_in_range (of_int 50) = true) by (vm_compute; reflexivity).
  assert (Hlh : fgt (lit 5 2) (of_int 50) = false) by (vm_compute; reflexivity).
  assert (Hnl : isnan (lit 5 2) = false) by (vm_compute; reflexivity).
  assert (Hnh : isnan (of_int 50) = false) by (vm_compute; reflexivity).
  unfold weight_in_range in Hlo, Hhi.
  destruct (isfinite x) eqn:Ef; cbn [negb orb].
  - pose proof (finite_not_nan x Ef) as Hn.
    destruct (flt x (lit 5 2)) eqn:El.
    + rewrite Hlh. exact Hlo.
    + destruct (fgt x (of_int 50)) eqn:Eh; [exact Hhi|].
      rewrite Ef. cbn [andb].
      rewrite (flt_false_fle x (lit 5 2) Hn Hnl El).
      unfold fgt in Eh.
      rewrite (flt_false_fle (of_int 50) x Hnh Hn Eh). reflexivity.
  - rewrite Hlh. exact Hlo.
Qed.

(** X18 (simulate_hawkes_multivariate.cpp, [compute_weights]): whatever
    the book holds, [compute_weights] returns six weights, each finite and
    within [0.05, 50]; they are all 1.0 when a side of the book is
    empty.  The engine's [set_weights] therefore stores them as they are:
    its replacement of non-positive or non-finite entries never applies. *)
Theorem compute_weights_range (b : OrderBook) :
  length (Sim.compute_weights b) = 6%nat /\
  forallb weight_in_range (Sim.compute_weights b) = true /\
  (bids_ b = [] \/ asks_ b = [] ->
   Sim.compute_weights b = repeat (of_int 1) 6) /\
  forall (exp log : double -> double) (G : Type)
         (p : Hawkes.HawkesMultivariateProcess double G),
    Hawkes.dim_ p = 6%nat ->
    exists p',
      Hawkes.set_weights (num := F64_num exp log) p (Sim.compute_weights b)
        = Ok p' /\
      Hawkes.w_ p' = Sim.compute_weights b.
Proof.
  assert (Hlen : length (Sim.compute_weights b) = 6%nat).
  { unfold Sim.compute_weights.
    destruct (best_bid_price (top b)), (best_ask_price (top b)); reflexivity. }
  assert (Hr : forallb weight_in_range (Sim.compute_weights b) = true).
  { unfold Sim.compute_weights.
    assert (H1 : forallb weight_in_range (repeat (of_int 1) 6) = true)
      by (vm_compute; reflexivity).
    destruct (best_bid_price (top b)); [|exact H1].
    destruct (best_ask_price (top b)); [|exact H1].
    cbn [map forallb]. rewrite !clamp_weight_range. reflexivity. }
  split; [exact Hlen|]. split; [exact Hr|]. split.
  - intros H. unfold Sim.compute_weights, top.
    cbn [best_bid_price best_ask_price].
    destruct H as [-> | ->]; cbn [back front option_map];
      [reflexivity|].
    destruct (option_map fst (back (bids_ b))); reflexivity.
  - intros exp log G p Hd. unfold Hawkes.set_weights.
    rewrite Hlen, Hd. cbn [Nat.eqb negb]. eexists. split; [reflexivity|].
    cbn [Hawkes.w_].
    rewrite <- (map_id (Sim.compute_weights b)) at 2.
    apply map_ext_in. intros w Hin.
    pose proof (proj1 (forallb_forall _ _) Hr w Hin) as Hwr.
    unfold weight_in_range in Hwr.
    apply andb_true_iff in Hwr as [Hwr _].
    apply andb_true_iff in Hwr as [Hf Hlo].
    assert (Hpos : fgt w zero = true).
    { unfold fgt.
      apply (flt_fle_trans zero (lit 5 2) w); [|exact Hlo].
      vm_compute. reflexivity. }
    change (nfinite w) with (isfinite w). change (nle w n0) with (fle w zero).
    change (@n1 double (F64_num exp log)) with (of_int 1).
    rewrite (proj1 (positive_or_replaced w)), Hf, Hpos. reflexivity.
Qed.

(** *** The safety net *)

Lemma safety_bid_event (now : double) :
  isfinite now = true ->
  fails_precondition
    (mkEvent now Add Bid (fsub Sim.price_center Sim.tick) 50) = false.
Proof.
  intros H. unfold fails_precondition. cbn [t quantity type price].
  rewrite H. vm_compute. reflexivity.
Qed.

Lemma safety_ask_event (now : double) :
  isfinite now = true ->
  fails_precondition
    (mkEvent now Add Ask (fadd Sim.price_center Sim.tick) 50) = false.
Proof.
  intros H. unfold fails_precondition. cbn [t quantity type price].
  rewrite H. vm_compute. reflexivity.
Qed.

Lemma snapped_safety_ask (bids asks : side_map) (now : double) (q : Z) :
  snapped (mkOrderBook Sim.tick bids asks)
    (mkEvent now Add Ask (fadd Sim.price_center Sim.tick) q) = safety_ask.
Proof.
  unfold snapped, safety_ask, round_to_tick. cbn [price tick_size_].
  replace (tick_size_ (create Sim.tick)) with Sim.tick
    by (vm_compute; reflexivity).
  reflexivity.
Qed.

Lemma snapped_safety_bid (bids asks : side_map) (now : double) (q : Z) :
  snapped (mkOrderBook Sim.tick bids asks)
    (mkEvent now Add Bid (fsub Sim.price_center Sim.tick) q) = safety_bid.
Proof.
  unfold snapped, safety_bid, round_to_tick. cbn [price tick_size_].
  replace (tick_size_ (create Sim.tick)) with Sim.tick
    by (vm_compute; reflexivity).
  reflexivity.
Qed.

Lemma safety_prices_apart : fle safety_ask safety_bid = false.
Proof. vm_compute. reflexivity. Qed.

(** X19 (simulate_hawkes_multivariate.cpp, the safety net of [main]'s
    loop): on a book with the simulator's tick, at a finite time, the
    safety net leaves a book with both sides alone and fills a wholly
    empty book with one bid and one ask of 50.  When only the bid side is
    empty, the injected bid rests, and the side is restored, exactly when
    its snapped price (99.9) is below the best ask; otherwise it executes
    against the asks and the bid side stays empty.  The same holds for an
    empty ask side and the injected ask (100.1) against the best bid. *)
Theorem safety_net_outcome (b : OrderBook) (now : double) :
  tick_size_ b = Sim.tick -> isfinite now = true ->
  let b' := Sim.liveness b now in
  match back (bids_ b), front (asks_ b) with
  | Some _, Some _ => b' = b
  | None, None =>
      bids_ b' = [(safety_bid, 50)] /\ asks_ b' = [(safety_ask, 50)]
  | None, Some (pa, _) =>
      if fge safety_bid pa
      then bids_ b' = [] /\ asks_ b' = consume_best_ask (asks_ b) 50
      else bids_ b' = [(safety_bid, 50)] /\ asks_ b' = asks_ b
  | Some (pb, _), None =>
      if fle safety_ask pb
      then asks_ b' = [] /\ bids_ b' = consume_best_bid (bids_ b) 50
      else asks_ b' = [(safety_ask, 50)] /\ bids_ b' = bids_ b
  end.
Proof.
  intros Ht Hn. destruct b as [tk bids asks]. cbn [tick_size_] in Ht. subst tk.
  cbv zeta. unfold Sim.liveness, top.
  cbn [best_bid_price best_ask_price bids_ asks_].
  destruct (back bids) as [[pb qb]|] eqn:B;
    destruct (front asks) as [[pa qa]|] eqn:A; cbn [option_map].
  - reflexivity.
  - (* the ask side is empty *)
    apply front_none in A. subst asks.
    rewrite apply_eq, (safety_ask_event now Hn).
    cbn [snd type side quantity]. unfold marketable, top.
    cbn [side best_bid_price bids_ asks_]. rewrite B. cbn [option_map fst].
    rewrite snapped_safety_ask.
    destruct (fle safety_ask pb); cbn [with_bids with_asks bids_ asks_].
    + split; reflexivity.
    + split; reflexivity.
  - (* the bid side is empty *)
    apply back_none in B. subst bids.
    rewrite apply_eq, (safety_bid_event now Hn).
    cbn [snd type side quantity]. unfold marketable, top.
    cbn [side best_ask_price bids_ asks_]. rewrite A. cbn [option_map fst].
    rewrite snapped_safety_bid.
    destruct (fge safety_bid pa); cbn [with_bids with_asks bids_ asks_].
    + split; reflexivity.
    + split; reflexivity.
  - (* both sides are empty *)
    apply back_none in B. apply front_none in A. subst bids asks.
    assert (E1 : snd (apply (mkOrderBook Sim.tick [] [])
                        (mkEvent now Add Bid
                           (fsub Sim.price_center Sim.tick) 50))
                 = mkOrderBook Sim.tick [(safety_bid, 50)] []).
    { rewrite apply_eq, (safety_bid_event now Hn).
      cbn [snd type side quantity]. unfold marketable, top.
      cbn [side best_ask_price bids_ asks_ front option_map].
      rewrite snapped_safety_bid. reflexivity. }
    rewrite E1.
    assert (E2 : snd (apply (mkOrderBook Sim.tick [(safety_bid, 50)] [])
                        (mkEvent now Add Ask
                           (fadd Sim.price_center Sim.tick) 50))
                 = mkOrderBook Sim.tick [(safety_bid, 50)] [(safety_ask, 50)]).
    { rewrite apply_eq, (safety_ask_event now Hn).
      cbn [snd type side quantity]. unfold marketable, top.
      cbn [side best_bid_price bids_ asks_ back option_map fst].
      rewrite snapped_safety_ask, safety_prices_apart. reflexivity. }
    rewrite E2. split; reflexivity.
Qed.

(** *** The loop body and the rows it logs *)

Section LoopRows.

Import Hawkes Sim Main.

Context {G1 G2 : Type}.
Context {num : Num double}.
Context {rng1 : Rng double G1}.
Context {rng2 : Rng double G2}.

Lemma liveness_wf_keys (b : OrderBook) (now : double) :
  wf_keys b -> wf_keys (liveness b now).
Proof.
  intros H. unfold liveness.
  destruct (best_bid_price (top b)), (best_ask_price (top b));
    repeat apply apply_wf_keys; exact H.
Qed.

Lemma row_of_book (b : OrderBook) (e : Event double) :
  wf_keys b -> row_ok (mkObservation e (top b) (metrics b)).
Proof.
  intros H. unfold row_ok. cbn [obs_top obs_metrics].
  pose proof (wf_keys_uncrossed b H) as Hu. unfold uncrossed in Hu.
  pose proof (metrics_mid_spread b) as Hm. unfold top in *.
  cbn [best_bid_price best_ask_price] in *.
  destruct (back (bids_ b)) as [[pb qb]|]; cbn [option_map fst] in *.
  - destruct (front (asks_ b)) as [[pa qa]|]; cbn [option_map fst] in *.
    + destruct Hm as [Hm1 Hm2]. repeat split; assumption.
    + exact Hm.
  - exact Hm.
Qed.

(** X20 (simulate_hawkes_multivariate.cpp, the body of [main]'s loop):
    the loop body fails only by reading an empty optional, and does so
    exactly when a side of the book is still empty after the safety net.
    Otherwise it applies to the book left by the safety net the engine's
    event with a new price, and logs that event with the top and the
    metrics of the book after it.  A cancel is priced at the best price of
    its own side and a market order at 0.0, neither drawing from the
    placement generator; an add is priced one tick inside the spread (only
    when that price is still strictly on its own side of the opposite
    best), at its own best, or one to five drawn ticks behind it. *)
Theorem loop_body_outcome (b : OrderBook) (g : G2) (e : Event double) :
  let b1 := liveness b (t e) in
  match handle b g e with
  | Raise err =>
      err = EmptyOptional /\ (bids_ b1 = [] \/ asks_ b1 = [])
  | Ok (b', g', ob) =>
      exists pb pa,
        best_bid_price (top b1) = Some pb /\
        best_ask_price (top b1) = Some pa /\
        obs_event ob
          = mkEvent (t e) (type e) (side e) (price (obs_event ob))
              (quantity e) /\
        b' = snd (apply b1 (obs_event ob)) /\
        obs_top ob = top b' /\ obs_metrics ob = metrics b' /\
        match type e with
        | Add =>
            match side e with
            | Bid =>
                (price (obs_event ob) = fadd pb tick /\
                 flt (fadd pb tick) pa = true) \/
                price (obs_event ob) = pb \/
                exists g0,
                  price (obs_event ob)
                  = fsub pb (fmul (of_int (fst (uniform_int 1 5 g0))) tick)
            | Ask =>
                (price (obs_event ob) = fsub pa tick /\
                 fgt (fsub pa tick) pb = true) \/
                price (obs_event ob) = pa \/
                exists g0,
                  price (obs_event ob)
                  = fadd pa (fmul (of_int (fst (uniform_int 1 5 g0))) tick)
            end
        | Cancel =>
            price (obs_event ob)
              = (match side e with Bid => pb | Ask => pa end) /\ g' = g
        | Market => price (obs_event ob) = zero /\ g' = g
        end
  end.
Proof.
  cbv zeta. unfold handle. set (b1 := liveness b (t e)).
  unfold top at 1 2. cbn [best_bid_price best_ask_price].
  destruct (back (bids_ b1)) as [[pb qb]|] eqn:B; cbn [option_map deref bind].
  2:{ split; [reflexivity|]. left. apply back_none, B. }
  destruct (front (asks_ b1)) as [[pa qa]|] eqn:A; cbn [option_map deref bind].
  2:{ split; [reflexivity|]. right. apply front_none, A. }
  cbn [fst].
  destruct (place e pb pa g) as [px g'] eqn:P.
  exists pb, pa. unfold top at 1 2. cbn [best_bid_price best_ask_price].
  rewrite B, A. cbn [option_map fst obs_event obs_top obs_metrics price].
  repeat split.
  unfold place in P. destruct (type e).
  - destruct (uniform_int 0 99 g) as [roll g1].
    destruct (side e);
      repeat match type of P with
        | context [if ?c then _ else _] => destruct c eqn:?
        | context [uniform_int 1 5 ?x] =>
            let E := fresh "E" in
            destruct (uniform_int 1 5 x) as [d g2] eqn:E
        end;
      injection P as <- _;
      try (left; split; [reflexivity|]);
      try (right; left; reflexivity);
      try (right; right; exists g1;
           match goal with E : uniform_int 1 5 g1 = _ |- _ => rewrite E end;
           reflexivity).
    + match goal with
      | H : _ && ?x = true |- ?x = true => apply andb_true_iff in H; apply H
      end.
    + match goal with
      | H : _ && ?x = true |- ?x = true => apply andb_true_iff in H; apply H
      end.
  - injection P as <- <-; split; reflexivity.
  - injection P as <- <-; split; reflexivity.
Qed.

Lemma handle_wf_keys (b b' : OrderBook) (g g' : G2) (e : Event double)
    (ob : Observation) :
  wf_keys b -> handle b g e = Ok (b', g', ob) ->
  wf_keys b' /\ row_ok ob.
Proof.
  intros Hwf H. unfold handle in H.
  set (b1 := liveness b (t e)) in H.
  destruct (best_bid_price (top b1)) as [bb|]; cbn [deref bind] in H;
    [|discriminate].
  destruct (best_ask_price (top b1)) as [ba|]; cbn [deref bind] in H;
    [|discriminate].
  destruct (place e bb ba g) as [px g1]. injection H as <- _ <-.
  assert (Hwf' : wf_keys (snd (apply b1 (mkEvent (t e) (type e) (side e) px
                                            (quantity e))))).
  { apply apply_wf_keys, liveness_wf_keys, Hwf. }
  split; [exact Hwf'|]. apply row_of_book, Hwf'.
Qed.

Lemma loop_rows (fuel n : nat) : forall (st : State G1 G2) obs,
  wf_keys (book st) ->
  loop (rng1 := rng1) (rng2 := rng2) fuel n st = Ok obs ->
  length obs = n /\ Forall row_ok obs.
Proof.
  induction n as [|n IH]; intros st obs Hwf H; simpl in H.
  - injection H as <-. split; [reflexivity|constructor].
  - destruct (step fuel st) as [[st' ob]|] eqn:Es; simpl in H; [|discriminate].
    destruct (loop fuel n st') as [obs'|] eqn:El; simpl in H; [|discriminate].
    injection H as <-. unfold step in Es.
    destruct (set_weights (process st) (compute_weights (book st)))
      as [p1|] eqn:Ew; simpl in Es; [|discriminate].
    destruct (next fuel p1 (clock st)) as [[e p2]|] eqn:En; simpl in Es;
      [|discriminate].
    destruct (handle (book st) (place_rng st) e) as [[[b' g'] ob']|] eqn:Eh;
      simpl in Es; [|discriminate].
    injection Es as <- <-.
    destruct (handle_wf_keys _ _ _ _ _ _ Hwf Eh) as [Hwf' Hrow].
    apply IH in El; [|exact Hwf']. destruct El as [Hlen Hrows].
    split; [simpl; congruence|]. constructor; assumption.
Qed.

Lemma seed_book_wf_keys : wf_keys (seed_book (Book.create tick)).
Proof.
  destruct seeded_book_wf as (H1 & H2 & H3 & _ & _ & H4).
  repeat split; assumption.
Qed.

(** X21 (simulate_hawkes_multivariate.cpp, [main]): a run of the
    simulator that completes logs exactly one row per requested event,
    and in every row the best bid is strictly below the best ask when the
    book has both; the mid and the spread of the row are then
    [0.5 * (bid + ask)] and [ask - bid] of those two prices, and all three
    metrics are absent when a side is empty.  This holds for every
    parameter set, seed and generator. *)
Theorem simulate_rows (mu : list double) (alpha beta : list (list double))
    (qty_min qty_max seed place_seed : Z) (N fuel : nat)
    (obs : list Observation) :
  simulate (rng1 := rng1) (rng2 := rng2)
    mu alpha beta qty_min qty_max seed place_seed N fuel = Ok obs ->
  length obs = N /\ Forall row_ok obs.
Proof.
  unfold simulate. intros H.
  destruct (create mu alpha beta qty_min qty_max seed) as [p|];
    cbn [bind] in H; [|discriminate].
  apply loop_rows in H; [exact H|]. apply seed_book_wf_keys.
Qed.

End LoopRows.
Import BindingsProps.

(* ================================================================== *)
(** * The Python entry point *)
(* ================================================================== *)













Section BindingsRun.

Context {G : Type}.
Context {num : Num double}.
Context {rng : Rng double G}.



End BindingsRun.

Lemma seed_book_wf_keys_any (pc ts : double) (b : OrderBook) :
  wf_keys b -> wf_keys (Bindings.seed_book pc ts b).
Proof.
  unfold Bindings.seed_book. generalize (map Z.of_nat (seq 1 10)).
  intros l. revert b. induction l as [|k r IH]; intros b H; [exact H|].
  cbn [fold_left]. apply IH. repeat apply apply_wf_keys. exact H.
Qed.

Lemma bindings_liveness_wf_keys (pc ts now : double) (b : OrderBook) :
  wf_keys b -> wf_keys (Bindings.liveness pc ts b now).
Proof.
  intros H. unfold Bindings.liveness.
  destruct (best_bid_price (top b)), (best_ask_price (top b));
    repeat apply apply_wf_keys; exact H.
Qed.

Lemma quotes_of_book (b : OrderBook) :
  wf_keys b ->
  quotes_ok (Bindings.or_nan (best_bid_price (top b)))
            (Bindings.or_nan (best_ask_price (top b))) = true.
Proof.
  intros H. pose proof (wf_keys_uncrossed b H) as Hu.
  unfold uncrossed in Hu. unfold quotes_ok.
  destruct (best_bid_price (top b)) as [pb|]; [|reflexivity].
  destruct (best_ask_price (top b)) as [pa|]; cbn [Bindings.or_nan].
  - rewrite Hu. apply orb_true_r.
  - cbn [isnan quiet_NaN]. rewrite orb_true_r. reflexivity.
Qed.

Lemma push_back_ok (c : Bindings.Columns) (n : nat) (now : double)
    (e : Event double) (b : OrderBook) :
  columns_ok c n -> wf_keys b ->
  columns_ok (Bindings.push_back c now e (top b) (metrics b)) (S n).
Proof.
  intros (H1 & H2 & H3 & H4 & H5 & H6 & H7 & H8 & H9 & H10) Hwf.
  unfold columns_ok, Bindings.push_back.
  cbn [Bindings.times Bindings.event_types Bindings.sides
       Bindings.quantities Bindings.prices Bindings.best_bids
       Bindings.best_asks Bindings.mids Bindings.spreads].
  rewrite !length_app. cbn [length].
  repeat (split; [lia|]).
  apply Forall2_app; [exact H10|].
  constructor; [|constructor]. apply quotes_of_book, Hwf.
Qed.

Section BindingsRows.

Context {G : Type}.
Context {num : Num double}.
Context {rng : Rng double G}.

Lemma bindings_handle_ok (pc ts : double) (n : Z) (b b' : OrderBook)
    (c c' : Bindings.Columns) (e : Event double) (k : nat) :
  wf_keys b -> columns_ok c k ->
  Bindings.handle pc ts n b c e = Ok (b', c') ->
  wf_keys b' /\ columns_ok c' (S k).
Proof.
  intros Hwf Hc H. unfold Bindings.handle in H.
  set (b1 := Bindings.liveness pc ts b (t e)) in H.
  destruct (best_bid_price (top b1)) as [bb|]; cbn [Sim.deref bind] in H;
    [|discriminate].
  destruct (best_ask_price (top b1)) as [ba|]; cbn [Sim.deref bind] in H;
    [|discriminate].
  injection H as <- <-.
  set (e' := mkEvent (t e) (type e) (side e) _ (quantity e)).
  assert (Hwf' : wf_keys (snd (apply b1 e'))).
  { apply apply_wf_keys, bindings_liveness_wf_keys, Hwf. }
  split; [exact Hwf'|]. apply push_back_ok; assumption.
Qed.

Lemma bindings_loop_ok (fuel : nat) (pc ts : double) (todo : nat) :
  forall (n : Z) (b : OrderBook)
         (p : Hawkes.HawkesMultivariateProcess double G) (now : double)
         (c c' : Bindings.Columns) (k : nat),
  wf_keys b -> columns_ok c k ->
  Bindings.loop fuel pc ts todo n b p now c = Ok c' ->
  columns_ok c' (k + todo).
Proof.
  induction todo as [|todo IH]; intros n b p now c c' k Hwf Hc H;
    cbn [Bindings.loop] in H.
  - injection H as <-. rewrite Nat.add_0_r. exact Hc.
  - destruct (Hawkes.set_weights p _) as [p1|]; cbn [bind] in H;
      [|discriminate].
    destruct (Hawkes.next fuel p1 now) as [[e p2]|]; cbn [bind] in H;
      [|discriminate].
    destruct (Bindings.handle pc ts n b c e) as [[b' c1]|] eqn:Eh;
      cbn [bind] in H; [|discriminate].
    destruct (bindings_handle_ok _ _ _ _ _ _ _ _ _ Hwf Hc Eh) as [Hwf' Hc1].
    apply (IH _ _ _ _ _ _ _ Hwf' Hc1) in H.
    replace (k + S todo)%nat with (S k + todo)%nat by lia. exact H.
Qed.

(** X23 (lob_bindings.cpp, [run_simulation]): when [run_simulation]
    returns, each of the nine columns of its result has one entry per
    requested event (none when [num_events] is not positive), and in every
    row the best bid is strictly below the best ask unless one of the two
    is the NaN that stands for an empty side.  This holds for every
    centre, tick, parameter set, seed and generator. *)
Theorem run_simulation_columns (fuel : nat) (mu : list double)
    (alpha beta : list (list double)) (num_events : Z)
    (price_center tick_size : double) (qty_min qty_max seed : Z)
    (c : Bindings.Columns) :
  Bindings.run_simulation fuel mu alpha beta num_events
    price_center tick_size qty_min qty_max seed = Ok c ->
  columns_ok c (Z.to_nat num_events).
Proof.
  unfold Bindings.run_simulation. intros H.
  destruct (Hawkes.create mu alpha beta qty_min qty_max seed) as [p|];
    cbn [bind] in H; [|discriminate].
  apply (bindings_loop_ok _ _ _ _ _ _ _ _ _ _ 0%nat) in H.
  - exact H.
  - apply seed_book_wf_keys_any, create_wf_keys.
  - unfold columns_ok, Bindings.no_columns. cbn. repeat split; constructor.
Qed.

End BindingsRows.
Import SimpleProps.

(* ================================================================== *)
(** * The two simple processes *)
(* ================================================================== *)

Section SimpleShape.

Import Simple.

Context {F G : Type}.
Context {num : Num F} {conv : FromInt F}.
Context {rng : Rng F G} {dists : Dists F G}.

Lemma tick_offset_range (d : Z) : 0 <= d -> 1 <= tick_offset d <= 5.
Proof.
  intros H. unfold tick_offset.
  pose proof (Z.rem_bound_pos d 5 H ltac:(lia)). lia.
Qed.

(** X24 (poisson_process.cpp, [PoissonProcess::next]): with a quantity
    range [0 <= qty_min <= qty_max] that the distribution honours, the
    event returned by the Poisson process is an add or a cancel, never a
    market order; its quantity lies in the range and its price is the
    centre moved by one to five ticks, down for a bid and up for an ask;
    its time is the time passed in plus the exponential draw.  The
    process keeps its rate, range, centre and tick. *)
Theorem poisson_event (p : PoissonProcess F G) (now : F) :
  int_draws_in_range rng -> 0 <= p_qty_min_ p <= p_qty_max_ p ->
  let e := fst (poisson_next p now) in
  let p' := snd (poisson_next p now) in
  simple_event (p_price_center_ p) (p_tick_size_ p) e /\
  p_qty_min_ p <= quantity e <= p_qty_max_ p /\
  t e = nadd now (fst (exponential (p_lambda_ p) (p_rng_ p))) /\
  p_lambda_ p' = p_lambda_ p /\
  p_qty_min_ p' = p_qty_min_ p /\ p_qty_max_ p' = p_qty_max_ p /\
  p_price_center_ p' = p_price_center_ p /\
  p_tick_size_ p' = p_tick_size_ p.
Proof.
  intros Hr Hq. cbv zeta. unfold poisson_next.
  destruct (exponential (p_lambda_ p) (p_rng_ p)) as [gap g1].
  destruct (bernoulli side_prob g1) as [sb g2].
  destruct (bernoulli type_prob g2) as [tb g3].
  pose proof (Hr (p_qty_min_ p) (p_qty_max_ p) g3 ltac:(lia)) as Hq1.
  destruct (uniform_int (p_qty_min_ p) (p_qty_max_ p) g3) as [q g4].
  pose proof (Hr (p_qty_min_ p) (p_qty_max_ p) g4 ltac:(lia)) as Hq2.
  destruct (uniform_int (p_qty_min_ p) (p_qty_max_ p) g4) as [d g5].
  cbn [fst snd t quantity p_lambda_ p_qty_min_ p_qty_max_
       p_price_center_ p_tick_size_] in *.
  split; [|repeat split; try reflexivity; lia].
  unfold simple_event. cbn [type side price]. split.
  - destruct tb; discriminate.
  - exists (tick_offset d). split; [|reflexivity].
    apply tick_offset_range. lia.
Qed.

Lemma accept_event (c : Candidate F G) :
  int_draws_in_range rng ->
  0 <= qty_min_ (before_test c) <= qty_max_ (before_test c) ->
  let e := fst (accept c) in
  simple_event (price_center_ (before_test c)) (tick_size_ (before_test c)) e
  /\ qty_min_ (before_test c) <= quantity e <= qty_max_ (before_test c)
  /\ t e = cand_time c.
Proof.
  intros Hr Hq. cbv zeta. unfold accept.
  set (p1 := decay_to (before_test c) (cand_time c)).
  assert (Hp1 : qty_min_ p1 = qty_min_ (before_test c) /\
                qty_max_ p1 = qty_max_ (before_test c) /\
                price_center_ p1 = price_center_ (before_test c) /\
                tick_size_ p1 = tick_size_ (before_test c)).
  { subst p1. unfold decay_to.
    destruct (nlt _ _); [repeat split|]. destruct (nlt _ _); repeat split. }
  destruct Hp1 as (E1 & E2 & E3 & E4).
  set (p2 := with_state p1 _ _).
  change (qty_min_ p2) with (qty_min_ p1).
  change (qty_max_ p2) with (qty_max_ p1).
  change (price_center_ p2) with (price_center_ p1).
  change (tick_size_ p2) with (tick_size_ p1).
  rewrite E1, E2, E3, E4.
  destruct (bernoulli side_prob (rng_ p2)) as [sb g1].
  destruct (bernoulli type_prob g1) as [tb g2].
  pose proof (Hr (qty_min_ (before_test c)) (qty_max_ (before_test c)) g2
                ltac:(lia)) as Hq1.
  destruct (uniform_int _ _ g2) as [q g3].
  pose proof (Hr (qty_min_ (before_test c)) (qty_max_ (before_test c)) g3
                ltac:(lia)) as Hq2.
  destruct (uniform_int _ _ g3) as [d g4].
  cbn [fst snd t quantity] in *.
  split; [|split; [lia|reflexivity]].
  unfold simple_event. cbn [type side price]. split.
  - destruct tb; discriminate.
  - exists (tick_offset d). split; [|reflexivity].
    apply tick_offset_range. lia.
Qed.

Lemma univariate_frame (p : HawkesUnivariateProcess F G) :
  (forall now,
     qty_min_ (decay_to p now) = qty_min_ p /\
     qty_max_ (decay_to p now) = qty_max_ p /\
     price_center_ (decay_to p now) = price_center_ p /\
     tick_size_ (decay_to p now) = tick_size_ p) /\
  (forall ct,
     qty_min_ (before_test (propose p ct)) = qty_min_ p /\
     qty_max_ (before_test (propose p ct)) = qty_max_ p /\
     price_center_ (before_test (propose p ct)) = price_center_ p /\
     tick_size_ (before_test (propose p ct)) = tick_size_ p).
Proof.
  split.
  - intros now. unfold decay_to.
    destruct (nlt _ _); [repeat split|]. destruct (nlt _ _); repeat split.
  - intros ct. unfold propose.
    set (p0 := if _ || _ then with_state p ct n0 else p).
    assert (H0 : qty_min_ p0 = qty_min_ p /\ qty_max_ p0 = qty_max_ p /\
                 price_center_ p0 = price_center_ p /\
                 tick_size_ p0 = tick_size_ p).
    { subst p0. destruct (_ || _); repeat split. }
    destruct (uniform_real01 (rng_ p0)) as [u1 g1].
    destruct (uniform_real01 g1) as [u g2].
    cbn [before_test]. exact H0.
Qed.

Lemma thinning_event (fuel : nat) :
  int_draws_in_range rng ->
  forall (p p' : HawkesUnivariateProcess F G) (ct : F) (e : Event F),
  0 <= qty_min_ p <= qty_max_ p ->
  thinning fuel p ct = Ok (e, p') ->
  simple_event (price_center_ p) (tick_size_ p) e /\
  qty_min_ p <= quantity e <= qty_max_ p.
Proof.
  intros Hr. induction fuel as [|fuel IH]; intros p p' ct e Hq H;
    [discriminate|].
  cbn [thinning] in H.
  destruct (proj2 (univariate_frame p) ct) as (E1 & E2 & E3 & E4).
  destruct (nle _ _).
  - injection H as H.
    pose proof (accept_event (propose p ct) Hr) as Ha.
    rewrite E1, E2, E3, E4 in Ha. specialize (Ha Hq). cbv zeta in Ha.
    rewrite H in Ha. cbn [fst] in Ha.
    destruct Ha as (A1 & A2 & _). split; assumption.
  - unfold reject in H.
    destruct (proj1 (univariate_frame (before_test (propose p ct)))
                (cand_time (propose p ct))) as (D1 & D2 & D3 & D4).
    apply IH in H; [|rewrite D1, D2, E1, E2; exact Hq].
    rewrite D1, D2, D3, D4, E1, E2, E3, E4 in H. exact H.
Qed.

(** X25 (hawkes_univariate_process.cpp, [HawkesUnivariateProcess::next]):
    with a quantity range [0 <= qty_min <= qty_max] that the distribution
    honours, an event returned by the univariate Hawkes process is an add
    or a cancel, never a market order; its quantity lies in the range and
    its price is the centre moved by one to five ticks, down for a bid and
    up for an ask. *)
Theorem univariate_event (fuel : nat) (p p' : HawkesUnivariateProcess F G)
    (now : F) (e : Event F) :
  int_draws_in_range rng -> 0 <= qty_min_ p <= qty_max_ p ->
  next fuel p now = Ok (e, p') ->
  simple_event (price_center_ p) (tick_size_ p) e /\
  qty_min_ p <= quantity e <= qty_max_ p.
Proof.
  intros Hr Hq H. unfold next in H.
  destruct (proj1 (univariate_frame p) now) as (D1 & D2 & D3 & D4).
  apply (thinning_event fuel Hr) in H; [|rewrite D1, D2; exact Hq].
  rewrite D1, D2, D3, D4 in H. exact H.
Qed.

End SimpleShape.

Section UnivariateBinary64.

Import Simple.

Variables exp log : double -> double.

Context {G : Type} {conv : FromInt double}.
Context {rng : Rng double G} {dists : Dists double G}.

(** X26 (hawkes_univariate_process.cpp, the constructor): the
    constructor succeeds exactly when [mu > 0], [alpha < 0] does not hold
    and [beta > 0], and then starts with no excitation and the clock at
    zero; anything else raises [std::invalid_argument].  A NaN [mu] or
    [beta] is refused, but a NaN [alpha] and an infinite [mu] or [beta]
    pass, and the centre, the tick and the quantity range are not
    checked. *)
Theorem univariate_constructor (mu alpha beta price_center tick_size : double)
    (qty_min qty_max seed : Z) :
  match create (num := F64_num exp log) mu alpha beta price_center tick_size
          qty_min qty_max seed with
  | Ok p =>
      accepted_arguments mu alpha beta = true /\
      p = mkUnivariate mu alpha beta zero zero (mt19937 seed)
            qty_min qty_max price_center tick_size
  | Raise err =>
      err = InvalidArgument /\ accepted_arguments mu alpha beta = false
  end /\
  (isnan mu = true \/ isnan beta = true ->
   accepted_arguments mu alpha beta = false) /\
  accepted_arguments (S754_infinity false) quiet_NaN (S754_infinity false)
  = true.
Proof.
  split; [|split; [|reflexivity]].
  - unfold create, accepted_arguments.
    change (nlt n0 mu) with (fgt mu zero).
    change (nlt alpha n0) with (flt alpha zero).
    change (nlt n0 beta) with (fgt beta zero).
    destruct (fgt mu zero); cbn [negb andb]; [|split; reflexivity].
    destruct (flt alpha zero); cbn [negb andb]; [split; reflexivity|].
    destruct (fgt beta zero); cbn [negb andb]; split; reflexivity.
  - unfold accepted_arguments. intros [H|H].
    + destruct mu; try discriminate. reflexivity.
    + destruct beta; try discriminate.
      rewrite andb_false_r. reflexivity.
Qed.

Lemma plus_infinity_sum (x : double) :
  isfinite (fadd (S754_infinity false) x) = false.
Proof. destruct x as [s|[]| |s m e]; reflexivity. Qed.

Lemma not_finite_ratio (x y : double) :
  isfinite x = false -> isfinite y = false -> isnan (fdiv x y) = true.
Proof.
  destruct x as [sx|sx| |sx mx ex], y as [sy|sy| |sy my ey];
    try discriminate; reflexivity.
Qed.

Lemma fle_nan_r (x y : double) : isnan y = true -> fle x y = false.
Proof.
  destruct y; try discriminate. intros _.
  destruct x as [s|s| |s m e]; reflexivity.
Qed.

Lemma propose_unbounded (p : HawkesUnivariateProcess double G) (ct : double) :
  mu_ p = S754_infinity false ->
  let c := propose (num := F64_num exp log) p ct in
  fle (u2 c) (fdiv (lambda_cand c) (lambda_bar c)) = false /\
  mu_ (reject (num := F64_num exp log) c) = S754_infinity false.
Proof.
  intros Hmu. cbv zeta. unfold propose.
  set (lb := intensity (num := F64_num exp log) p).
  assert (Hlb : isfinite lb = false).
  { subst lb. unfold intensity. rewrite Hmu. apply plus_infinity_sum. }
  change (nfinite lb) with (isfinite lb). rewrite Hlb.
  rewrite orb_true_r.
  set (p0 := with_state p ct n0).
  destruct (uniform_real01 (rng_ p0)) as [u1 g1].
  destruct (uniform_real01 g1) as [u g2].
  cbn [u2 lambda_cand lambda_bar before_test cand_time].
  split.
  - apply fle_nan_r, not_finite_ratio; [|exact Hlb].
    change (mu_ p0) with (mu_ p). rewrite Hmu. apply plus_infinity_sum.
  - unfold reject. cbn [before_test cand_time].
    unfold decay_to. destruct (nlt _ _); [exact Hmu|].
    destruct (nlt _ _); exact Hmu.
Qed.

Lemma thinning_unbounded (fuel : nat) :
  forall (p : HawkesUnivariateProcess double G) (ct : double),
  mu_ p = S754_infinity false ->
  thinning (num := F64_num exp log) fuel p ct = Raise NoAcceptance.
Proof.
  induction fuel as [|fuel IH]; intros p ct Hmu; [reflexivity|].
  cbn [thinning].
  destruct (propose_unbounded p ct Hmu) as [Hrej Hmu'].
  change (nle (u2 (propose (num := F64_num exp log) p ct))
              (ndiv (lambda_cand (propose (num := F64_num exp log) p ct))
                    (lambda_bar (propose (num := F64_num exp log) p ct))))
    with (fle (u2 (propose (num := F64_num exp log) p ct))
              (fdiv (lambda_cand (propose (num := F64_num exp log) p ct))
                    (lambda_bar (propose (num := F64_num exp log) p ct)))).
  rewrite Hrej. apply IH. exact Hmu'.
Qed.

(** X27 (hawkes_univariate_process.cpp, the constructor and [next]): a
    univariate process may be constructed with an infinite baseline
    [mu = +inf] (with any [alpha] that is not negative and any positive
    [beta]), and on such a process [next] never returns: the bound is
    infinite or NaN in every turn, the "reset" branch does not recompute
    it, the acceptance ratio is NaN, and every candidate is rejected. *)
Theorem univariate_unbounded_baseline (alpha beta price_center tick_size
    : double) (qty_min qty_max seed : Z) :
  flt alpha zero = false -> fgt beta zero = true ->
  exists p,
    create (num := F64_num exp log) (S754_infinity false) alpha beta
      price_center tick_size qty_min qty_max seed = Ok p /\
    forall fuel now,
      next (num := F64_num exp log) fuel p now = Raise NoAcceptance.
Proof.
  intros Ha Hb. eexists. split.
  - unfold create.
    change (nlt alpha n0) with (flt alpha zero).
    change (nlt n0 beta) with (fgt beta zero).
    rewrite Ha, Hb. reflexivity.
  - intros fuel now. unfold next. apply thinning_unbounded.
    unfold decay_to. destruct (nlt _ _); [reflexivity|].
    destruct (nlt _ _); reflexivity.
Qed.

End UnivariateBinary64.

Section UnivariateReal.

Import Simple.

Context {G : Type} {rng : Rng R G} {dists : Dists R G}.

Local Open Scope R_scope.

Lemma univariate_decay (p : HawkesUnivariateProcess R G) (now : R) :
  sound p -> last_time_ p <= now ->
  sound (decay_to p now) /\ last_time_ (decay_to p now) = now /\
  s_ (decay_to p now) <= s_ p /\
  s_ (decay_to p now)
    = s_ p * exp (- beta_ p * (now - last_time_ p)).
Proof.
  intros (Hmu & Ha & Hb & Hs) Hl. unfold decay_to.
  cbn [nlt nsub nmul nneg nexp n0 R_num].
  rewrite (Rltb_false now (last_time_ p)) by exact Hl.
  destruct (Rlt_dec 0 (now - last_time_ p)) as [Hdt|Hdt].
  - rewrite (Rltb_true _ _ Hdt). cbn [last_time_ s_ with_state].
    pose proof (exp_decay_le_1 (beta_ p) (now - last_time_ p) Hb Hdt)
      as [He1 He2].
    repeat split; try assumption.
    + apply Rmult_le_pos; lra.
    + rewrite <- (Rmult_1_r (s_ p)) at 2. apply Rmult_le_compat_l; lra.
  - rewrite (Rltb_false 0 (now - last_time_ p)) by lra.
    assert (E : now = last_time_ p) by lra.
    repeat split; try assumption; try lra.
    rewrite E, Rminus_diag, Rmult_0_r, exp_0. lra.
Qed.

Lemma intensity_positive (p : HawkesUnivariateProcess R G) :
  sound p -> 0 < intensity p.
Proof.
  intros (Hmu & Ha & Hb & Hs). unfold intensity.
  cbn [nadd nmul R_num].
  pose proof (Rmult_le_pos _ _ Ha Hs). lra.
Qed.

(** One turn of the thinning loop on a sound process whose clock is not
    after the current time. *)
Lemma univariate_turn (p : HawkesUnivariateProcess R G) (ct : R) :
  unit_interval_draws rng -> sound p -> last_time_ p <= ct ->
  let c := propose p ct in
  lambda_bar c = intensity p /\ 0 < lambda_bar c /\
  0 < lambda_cand c <= lambda_bar c /\ lambda_cand c / lambda_bar c <= 1 /\
  ct <= cand_time c /\
  sound (reject c) /\ last_time_ (reject c) = cand_time c /\
  sound (snd (accept c)) /\ last_time_ (snd (accept c)) = cand_time c /\
  1 <= s_ (snd (accept c)) /\ t (fst (accept c)) = cand_time c.
Proof.
  intros Hu Hsound Hl. pose proof Hsound as (Hmu & Ha & Hb & Hs).
  pose proof (intensity_positive p Hsound) as Hpos.
  cbv zeta. unfold propose. set (lb := intensity p) in *.
  cbn [nlt nfinite n0 R_num]. rewrite (Rltb_true _ _ Hpos).
  cbn [negb orb].
  pose proof (Hu (rng_ p)) as [_ Hu1].
  destruct (uniform_real01 (rng_ p)) as [u1 g1]. cbn [fst] in Hu1.
  destruct (uniform_real01 g1) as [u g2].
  cbn [lambda_bar lambda_cand cand_time before_test u2].
  cbn [nadd nsub nmul ndiv nneg nexp nlog R_num].
  set (cand := ct + - ln u1 / lb).
  assert (Hc : ct <= cand).
  { subst cand. pose proof (ln_le_0 u1 (Rlt_le _ _ Hu1)) as Hln.
    assert (0 <= - ln u1 / lb).
    { unfold Rdiv. apply Rmult_le_pos; [lra|].
      left. apply Rinv_0_lt_compat. exact Hpos. }
    lra. }
  assert (Hsound' : sound (with_rng p g2)) by exact Hsound.
  destruct (univariate_decay (with_rng p g2) cand Hsound'
              ltac:(cbn [last_time_ with_rng]; lra))
    as (Hd1 & Hd2 & Hd3 & Hd4).
  assert (Hle : mu_ p + alpha_ p * (s_ p * exp (- beta_ p * (cand - last_time_ p)))
                <= lb).
  { cbn [s_ with_rng beta_ last_time_] in Hd3, Hd4. rewrite <- Hd4.
    subst lb. unfold intensity. cbn [nadd nmul R_num].
    apply Rplus_le_compat_l, Rmult_le_compat_l; assumption. }
  assert (Hlc : 0 < mu_ p + alpha_ p
                         * (s_ p * exp (- beta_ p * (cand - last_time_ p)))).
  { cbn [s_ with_rng beta_ last_time_] in Hd4. rewrite <- Hd4.
    destruct Hd1 as (_ & _ & _ & Hs1).
    pose proof (Rmult_le_pos _ _ Ha Hs1). lra. }
  split; [reflexivity|]. split; [exact Hpos|].
  split; [split; [exact Hlc|exact Hle]|].
  split; [apply div_le_1; assumption|]. split; [exact Hc|].
  unfold reject. cbn [before_test cand_time].
  split; [exact Hd1|]. split; [exact Hd2|].
  unfold accept. cbn [before_test cand_time].
  set (p1 := decay_to (with_rng p g2) cand) in *.
  set (p2 := with_state p1 (last_time_ p1) (nadd (s_ p1) n1)).
  destruct (bernoulli side_prob (rng_ p2)) as [sb h1].
  destruct (bernoulli type_prob h1) as [tb h2].
  destruct (uniform_int (qty_min_ p2) (qty_max_ p2) h2) as [q h3].
  destruct (uniform_int (qty_min_ p2) (qty_max_ p2) h3) as [d h4].
  cbn [fst snd t]. subst p2.
  destruct Hd1 as (S1 & S2 & S3 & S4).
  unfold sound, with_rng, with_state.
  cbn [mu_ alpha_ beta_ s_ last_time_ nadd n1 R_num].
  repeat split; try assumption; try lra.
Qed.


Lemma univariate_thinning_time (fuel : nat) :
  unit_interval_draws rng ->
  forall (p p' : HawkesUnivariateProcess R G) (ct : R) (e : Event R),
  sound p -> last_time_ p <= ct ->
  thinning fuel p ct = Ok (e, p') ->
  ct <= t e /\ last_time_ p' = t e /\ sound p' /\ 1 <= s_ p'.
Proof.
  intros Hu. induction fuel as [|fuel IH]; intros p p' ct e Hs Hl H;
    [discriminate|].
  cbn [thinning] in H.
  destruct (univariate_turn p ct Hu Hs Hl)
    as (_ & _ & _ & _ & Hc & Hr1 & Hr2 & Ha1 & Ha2 & Ha3 & Ha4).
  destruct (nle _ _).
  - injection H as H. rewrite H in Ha1, Ha2, Ha3, Ha4.
    cbn [fst snd] in *.
    split; [lra|]. split; [lra|]. split; assumption.
  - apply IH in H; [|exact Hr1|lra].
    destruct H as (H1 & H2 & H3 & H4).
    split; [lra|]. split; [exact H2|]. split; assumption.
Qed.

(** X29 (hawkes_univariate_process.cpp, [next]): over the reals, with
    unit-interval draws in [0, 1), on a process with positive baseline and
    decay and no negative excitation, a call of [next] at a time that is
    not before the clock returns an event at or after that time, leaves
    the clock at the event's time and the excitation at 1 or more, and the
    process fit for the following call. *)
Theorem univariate_event_time (fuel : nat)
    (p p' : HawkesUnivariateProcess R G) (now : R) (e : Event R) :
  unit_interval_draws rng -> sound p -> last_time_ p <= now ->
  next fuel p now = Ok (e, p') ->
  now <= t e /\ last_time_ p' = t e /\ sound p' /\ 1 <= s_ p'.
Proof.
  intros Hu Hs Hl H. unfold next in H.
  destruct (univariate_decay p now Hs Hl) as (Hd1 & Hd2 & _).
  apply (univariate_thinning_time fuel Hu) in H; [exact H|exact Hd1|lra].
Qed.

End UnivariateReal.

(* ================================================================== *)
(** * The statements above at concrete inputs *)
(* ================================================================== *)

Lemma resting_add_lookup_witness :
  let b := Cases.small_book in
  let e := Cases.joining_bid in
  resting_qty b e = 10 /\
  find (bids_ (snd (apply b e))) (snapped b e) = Some 15.
Proof.
  intros b e.
  assert (Hr : resting_qty b e = 10) by (vm_compute; reflexivity).
  split; [exact Hr|].
  assert (H1 : type e = Add) by reflexivity.
  assert (H2 : fails_precondition e = false) by (vm_compute; reflexivity).
  assert (H3 : marketable b e = false) by (vm_compute; reflexivity).
  assert (H4 : tick_ok b = true) by (vm_compute; reflexivity).
  assert (H5 : ordered (own_side b (side e)) = true)
    by (vm_compute; reflexivity).
  pose proof (resting_add_lookup b e H1 H2 H3 H4 H5) as H. cbv zeta in H.
  destruct H as (_ & H & _). rewrite Hr in H. exact H.
Defined.

Lemma add_then_cancel_restores_witness :
  let b := Cases.small_book in
  let e := Cases.new_bid in
  apply_all b [e; cancel_of e] = b /\
  fst (apply (snd (apply b e)) (cancel_of e)) = true.
Proof.
  intros b e. apply (add_then_cancel_restores b e);
    try (vm_compute; reflexivity).
  vm_compute. discriminate.
Defined.

Lemma market_orders_add_up_witness :
  let b := Cases.small_book in
  apply_all b [market zero Bid 12; market zero Bid 10]
  = apply_all b [market zero Bid (12 + 10)].
Proof.
  intros b. apply (market_orders_add_up b Bid zero zero zero 12 10);
    try (vm_compute; reflexivity).
  vm_compute. discriminate.
Defined.


Lemma next_frame_witness :
  let num := Samples.stub_num in
  let rng := Samples.replay (lit 5 1) in
  match Hawkes.next 1 Cases.main_process zero with
  | Ok (e, p') =>
      same_parameters Cases.main_process p' /\ price e = zero
  | Raise _ => False
  end.
Proof.
  intros num rng.
  destruct (Hawkes.next 1 Cases.main_process zero) as [[e p']|err] eqn:E.
  - destruct (next_frame 1 Cases.main_process p' zero e E)
      as (H1 & _ & _ & _ & H5 & _).
    split; [exact H1|exact H5].
  - vm_compute in E. discriminate E.
Defined.

Lemma next_spins_without_intensity_witness :
  let num := Samples.stub_num in
  let rng := Samples.replay (lit 5 1) in
  Hawkes.create (repeat (of_int 1) 6) Cases.inhibiting_alpha
    (repeat (repeat (of_int 1) 6) 6) 5 50 42
  = Ok Cases.inhibited_start /\
  match Hawkes.next 1 Cases.inhibited_start zero with
  | Ok (e, p) => Hawkes.next 1000 p (t e) = Raise NoAcceptance
  | Raise _ => False
  end.
Proof.
  intros num rng. split; [vm_compute; reflexivity|].
  destruct (Hawkes.next 1 Cases.inhibited_start zero) as [[e p]|err] eqn:E.
  - vm_compute in E. injection E as <- <-.
    apply (next_spins_without_intensity
             (fun _ => of_int 1) (fun _ => of_int (-1))).
    intros i Hi.
    do 6 (destruct i as [|i]; [vm_compute; reflexivity|]).
    exfalso. cbn [Hawkes.dim_] in Hi. lia.
  - vm_compute in E. discriminate E.
Defined.




Lemma next_sets_clock_witness :
  let rng := Samples.zero_draws in
  let p := Samples.unit_rates in
  let r := Hawkes.accept (Hawkes.propose p 0%R) in
  Hawkes.next 1 p 0%R = Ok r /\
  Hawkes.last_time_ (snd r) = t (fst r) /\
  (Hawkes.last_time_ p <= Hawkes.last_time_ (snd r))%R.
Proof.
  intros rng p r. split; [exact unit_rates_next|].
  apply (next_sets_clock 1 p (snd r) 0%R (fst r)).
  - exact zero_draws_unit_interval.
  - simpl. lra.
  - rewrite <- surjective_pairing. exact unit_rates_next.
Defined.



Lemma sampler_inverts_cumulative_witness :
  let rng := Samples.zero_draws in
  let p := Samples.unit_rates in
  let k := fst (Hawkes.sample_dimension_weighted p) in
  let u := (fst (uniform_real01 (Hawkes.rng_ p))
            * Hawkes.total_weighted_intensity p)%R in
  (k < Hawkes.dim_ p)%nat /\
  (u <= cumulative p (S k))%R /\
  (forall j, (j < k)%nat -> (cumulative p (S j) < u)%R) /\
  snd (Hawkes.sample_dimension_weighted p)
  = snd (uniform_real01 (Hawkes.rng_ p)).
Proof.
  intros rng p. apply (sampler_inverts_cumulative p).
  - exact zero_draws_unit_interval.
  - exact unit_rates_valid.
  - discriminate.
Defined.

Lemma safety_net_outcome_witness :
  let b := Sim.seed_book (create Sim.tick) in
  let drained := mkOrderBook Sim.tick [] [(safety_bid, 5)] in
  Sim.liveness b zero = b /\
  bids_ (Sim.liveness drained zero) = [] /\
  asks_ (Sim.liveness drained zero) = consume_best_ask (asks_ drained) 50.
Proof.
  intros b drained. split.
  - exact (safety_net_outcome b zero
             ltac:(vm_compute; reflexivity) ltac:(reflexivity)).
  - exact (safety_net_outcome drained zero
             ltac:(reflexivity) ltac:(reflexivity)).
Defined.

Lemma simulate_rows_witness :
  let num := Samples.stub_num in
  let rng1 := Samples.replay (lit 5 1) in
  let rng2 := Samples.replay (lit 5 1) in
  match
    Main.simulate (rng1 := rng1) (rng2 := rng2)
      Main.main_mu Main.main_alpha Main.main_beta 5 50 42 42 3 1
  with
  | Ok obs => length obs = 3%nat /\ Forall row_ok obs
  | Raise _ => False
  end.
Proof.
  intros num rng1 rng2.
  destruct (Main.simulate (rng1 := rng1) (rng2 := rng2)
              Main.main_mu Main.main_alpha Main.main_beta 5 50 42 42 3 1)
    as [obs|err] eqn:E.
  - exact (simulate_rows (rng1 := rng1) (rng2 := rng2) _ _ _ _ _ _ _ _ _ _ E).
  - vm_compute in E. discriminate E.
Defined.


Lemma clamped_in_range (u : double) :
  int_draws_in_range (SimpleCases.clamped u).
Proof. intros lo hi [|x g] Hle; cbn [uniform_int SimpleCases.clamped fst]; lia. Qed.

Lemma zero_draws_in_range : int_draws_in_range Samples.zero_draws.
Proof. intros lo hi g Hle. cbn [uniform_int Samples.zero_draws fst]. lia. Qed.

Lemma run_simulation_columns_witness :
  let num := Samples.stub_num in
  let rng := Samples.replay (lit 5 1) in
  match
    Bindings.run_simulation 1 Main.main_mu Main.main_alpha Main.main_beta 2
      (of_int 100) (lit 1 1) 5 50 42
  with
  | Ok c => columns_ok c 2
  | Raise _ => False
  end.
Proof.
  intros num rng.
  destruct (Bindings.run_simulation 1 Main.main_mu Main.main_alpha
              Main.main_beta 2 (of_int 100) (lit 1 1) 5 50 42)
    as [c|err] eqn:E.
  - exact (run_simulation_columns _ _ _ _ _ _ _ _ _ _ _ E).
  - vm_compute in E. discriminate E.
Defined.

Lemma poisson_event_witness :
  let num := Samples.stub_num in
  let conv := F64_from_int in
  let rng := SimpleCases.clamped (lit 5 1) in
  let dists := SimpleCases.heads in
  let p := SimpleCases.poisson_sample in
  let e := fst (Simple.poisson_next p zero) in
  simple_event (Simple.p_price_center_ p) (Simple.p_tick_size_ p) e /\
  5 <= quantity e <= 50.
Proof.
  intros num conv rng dists p e.
  destruct (poisson_event p zero (clamped_in_range (lit 5 1))
              ltac:(cbn; lia)) as (H1 & H2 & _).
  split; [exact H1|exact H2].
Defined.

Lemma univariate_event_witness :
  let num := Samples.stub_num in
  let conv := F64_from_int in
  let rng := SimpleCases.clamped (lit 5 1) in
  let dists := SimpleCases.heads in
  let p := SimpleCases.univariate_sample in
  match Simple.next 1 p zero with
  | Ok (e, _) =>
      simple_event (Simple.price_center_ p) (Simple.tick_size_ p) e /\
      5 <= quantity e <= 50
  | Raise _ => False
  end.
Proof.
  intros num conv rng dists p.
  destruct (Simple.next 1 p zero) as [[e p']|err] eqn:E.
  - exact (univariate_event 1 p p' zero e (clamped_in_range (lit 5 1))
             ltac:(cbn; lia) E).
  - vm_compute in E. discriminate E.
Defined.

Lemma univariate_unbounded_baseline_witness :
  let conv := F64_from_int in
  let rng := SimpleCases.clamped (lit 5 1) in
  let dists := SimpleCases.heads in
  exists p,
    Simple.create (num := Samples.stub_num) (S754_infinity false)
      (lit 5 1) (of_int 1) (of_int 100) (lit 1 1) 5 50 42 = Ok p /\
    forall fuel now,
      Simple.next (num := Samples.stub_num) fuel p now = Raise NoAcceptance.
Proof.
  intros conv rng dists.
  apply (univariate_unbounded_baseline
           (fun _ => of_int 1) (fun _ => of_int (-1))); reflexivity.
Defined.

Lemma real_univariate_sound : sound SimpleCases.real_univariate.
Proof. unfold sound. cbn. lra. Qed.


Lemma real_univariate_next :
  Simple.next (rng := Samples.zero_draws) (dists := SimpleCases.real_heads)
    1 SimpleCases.real_univariate 0%R
  = Ok (Simple.accept (rng := Samples.zero_draws)
          (dists := SimpleCases.real_heads)
          (Simple.propose (rng := Samples.zero_draws)
             (Simple.decay_to SimpleCases.real_univariate 0%R) 0%R)).
Proof.
  unfold Simple.next. cbn [Simple.thinning].
  set (p0 := Simple.decay_to SimpleCases.real_univariate 0%R).
  assert (Hs : sound p0 /\ (Simple.last_time_ p0 <= 0)%R).
  { destruct (univariate_decay (G := unit) SimpleCases.real_univariate 0%R
                real_univariate_sound ltac:(cbn; lra)) as (H1 & H2 & _).
    split; [exact H1|]. fold p0 in H2. lra. }
  destruct Hs as [Hs Hl].
  destruct (univariate_turn (rng := Samples.zero_draws)
              (dists := SimpleCases.real_heads) p0 0%R
              zero_draws_unit_interval Hs Hl)
    as (_ & Hp & (Hc & _) & _).
  assert (Hu : Simple.u2 (Simple.propose (rng := Samples.zero_draws) p0 0%R)
               = 0%R) by reflexivity.
  cbn [nle ndiv R_num]. rewrite Hu, Rleb_true; [reflexivity|].
  left. apply Rdiv_lt_0_compat; assumption.
Qed.

Lemma univariate_event_time_witness :
  let rng := Samples.zero_draws in
  let dists := SimpleCases.real_heads in
  let p := SimpleCases.real_univariate in
  let r := Simple.accept (Simple.propose (Simple.decay_to p 0%R) 0%R) in
  Simple.next 1 p 0%R = Ok r /\
  (0 <= t (fst r))%R /\ Simple.last_time_ (snd r) = t (fst r).
Proof.
  intros rng dists p r. split; [exact real_univariate_next|].
  destruct (univariate_event_time 1 p (snd r) 0%R (fst r)
              zero_draws_unit_interval real_univariate_sound
              ltac:(cbn; lra)
              ltac:(rewrite <- surjective_pairing; exact real_univariate_next))
    as (H1 & H2 & _).
  split; [exact H1|exact H2].
Defined.
